(** * Dependency Guard: peer compatibility checker and risk scoring engine

    A shallow embedding of [src/checkers/compatibility.ts],
    [src/checkers/security.ts], [src/checkers/scoring.ts],
    [src/checkers/npm.ts], [src/validator.ts], [src/utils/cache.ts] and the
    exit status of the [check] command of [src/index.ts], with the
    properties of the specification stated and proved (or refuted) over it,
    and further properties of the code.

    Conventions of the embedding:
    - a JavaScript object used as a dictionary is the [gmap string _] of
      its own properties, and a read by name that finds no own property
      finds the member of [Object.prototype] of that name, if there is
      one; [Object.entries] of such an object is the association list it
      enumerates, in enumeration order;
    - an [async] function that can reject is a function into [result];
    - the file system, the registry, the OSV service and the clock are
      explicit arguments (records of what each call answers);
    - JavaScript numbers: counts are [nat], instants and scores are [Z], and
      the two factors that divide are computed as the code computes them, in
      binary64 arithmetic: a double is the rational [Q] it denotes and every
      operation rounds its exact result to the nearest double. *)

From Stdlib Require Import ZArith QArith Qround Qminmax Qpower Lia Lqa.
From Stdlib Require Import String Ascii List.
From stdpp Require Import gmap strings list fin_maps pretty.

Local Open Scope Z_scope.
Local Open Scope string_scope.
Local Open Scope list_scope.

(** ** Completions of asynchronous calls *)

(** What a rejected promise carries. *)
Inductive JsError : Type :=
| TypeError (message : string)
| SyntaxError (message : string)
| SystemError (code : string).

(** The outcome of awaiting a promise. *)
Inductive result (A : Type) : Type :=
| Returned (a : A)
| Thrown (e : JsError).
Arguments Returned {A} a.
Arguments Thrown {A} e.

Definition bind {A B} (r : result A) (k : A -> result B) : result B :=
  match r with
  | Returned a => k a
  | Thrown e => Thrown e
  end.

Notation "'let*' x ':=' r 'in' k" := (bind r (fun x => k))
  (at level 10, x name, r at level 100, k at level 200).

(** [try { body } catch { return fallback }] *)
Definition try_catch {A} (body : result A) (fallback : A) : A :=
  match body with
  | Returned a => a
  | Thrown _ => fallback
  end.

(** ** Shared interfaces ([src/types.ts]) *)

Inductive PeerStatus : Type :=
| COMPATIBLE | INCOMPATIBLE | MISSING | OPTIONAL_MISSING.

Record PeerCheck : Type := mkPeerCheck {
  name : string;
  required : string;
  installed : option string;
  status : PeerStatus;
  fixCommand : option string
}.

Record CompatibilityReport : Type := mkCompatibilityReport {
  packageName : string;
  checks : list PeerCheck;
  compatible : bool
}.

Record PackageInfo : Type := mkPackageInfo {
  pi_name : string;
  version : string;
  description : string;
  (** [string | false]: [None] is [false]. *)
  deprecated : option string;
  (** The instant [new Date(info.lastPublish).getTime()] denotes, in
      milliseconds; [None] when it is [NaN]. *)
  lastPublish : option Z;
  weeklyDownloads : Z;
  maintainerCount : nat;
  license : string;
  peerDependencies : list (string * string);
  peerDependenciesMeta : gmap string (option bool);
  homepage : string;
  repository : string
}.

Inductive Severity : Type := LOW | MODERATE | HIGH | CRITICAL.

Record SecurityVulnerability : Type := mkSecurityVulnerability {
  id : string;
  summary : string;
  severity : Severity;
  affectedVersions : string;
  url : string
}.

Record SecurityReport : Type := mkSecurityReport {
  sr_packageName : string;
  vulnerabilities : list SecurityVulnerability;
  hasCritical : bool
}.

Inductive RiskAction : Type := ALLOW | WARN | BLOCK.

Record RiskFactor : Type := mkRiskFactor {
  rf_name : string;
  rf_score : Z;
  maxScore : Z;
  reason : string
}.

Record RiskScore : Type := mkRiskScore {
  score : Z;
  action : RiskAction;
  factors : list RiskFactor
}.

Record CacheEntry (T : Type) : Type := mkCacheEntry {
  data : T;
  timestamp : Z;
  ttl : Z
}.
Arguments mkCacheEntry {T} _ _ _.
Arguments data {T} _.
Arguments timestamp {T} _.
Arguments ttl {T} _.

#[global] Instance PeerStatus_eq_dec : EqDecision PeerStatus.
Proof. solve_decision. Defined.
#[global] Instance Severity_eq_dec : EqDecision Severity.
Proof. solve_decision. Defined.
#[global] Instance RiskAction_eq_dec : EqDecision RiskAction.
Proof. solve_decision. Defined.

(** ** Risk scoring engine ([src/checkers/scoring.ts]) *)

Definition WEIGHT_COMPATIBILITY : Z := 40.
Definition WEIGHT_SECURITY : Z := 30.
Definition WEIGHT_DEPRECATION : Z := 15.
Definition WEIGHT_MAINTENANCE : Z := 15.

Definition THRESHOLD_ALLOW : Z := 75.
Definition THRESHOLD_WARN : Z := 40.

(** *** Double arithmetic

    JavaScript numbers are IEEE 754 binary64 values.  A finite double is
    modelled by the rational it denotes; an arithmetic operation gives the
    double nearest to its exact result, ties to the even significand.
    Overflow to infinity is left out: no operand of the scoring engine comes
    near it. *)

(** The binade of a positive rational: the [e] with 2^e <= x < 2^(e+1). *)
Definition binade (x : Q) : Z :=
  let e := Z.log2 (Qnum x) - Z.log2 (Zpos (Qden x)) in
  if Qle_bool (2 ^ e) x then e else e - 1.

(** The nearest integer, ties to even. *)
Definition rne (x : Q) : Z :=
  let f := Qfloor x in
  match (x - inject_Z f ?= 1 # 2)%Q with
  | Lt => f
  | Gt => f + 1
  | Eq => if Z.even f then f else f + 1
  end.

(** The double nearest to a positive rational: 53 significant bits, on the
    grid of the subnormal numbers below 2^-1022. *)
Definition round_pos (x : Q) : Q :=
  let s := Z.max (binade x - 52) (-1074) in
  (inject_Z (rne (x / 2 ^ s)) * 2 ^ s)%Q.

(** The double nearest to a rational. *)
Definition binary64 (x : Q) : Q :=
  match Qnum x with
  | Z0 => 0%Q
  | Zpos _ => round_pos x
  | Zneg _ => (- round_pos (- x))%Q
  end.

(** [x / y], [x - y] and [x * y] on doubles. *)
Definition double_div (x y : Q) : Q := binary64 (x / y).
Definition double_sub (x y : Q) : Q := binary64 (x - y).
Definition double_mul (x y : Q) : Q := binary64 (x * y).

(** [Math.round] of a double: the nearest integer, ties towards plus
    infinity. *)
Definition Math_round (x : Q) : Z := Qfloor (x + (1 # 2))%Q.

(** [xs.filter(p).length] *)
Definition count_where {A} (p : A -> bool) (xs : list A) : nat :=
  length (List.filter p xs).

Definition has_status (s : PeerStatus) (c : PeerCheck) : bool :=
  bool_decide (status c = s).

Definition has_severity (s : Severity) (v : SecurityVulnerability) : bool :=
  bool_decide (severity v = s).

(** [parts.join(sep)] *)
Fixpoint join (sep : string) (parts : list string) : string :=
  match parts with
  | [] => ""
  | [p] => p
  | p :: rest => p +:+ sep +:+ join sep rest
  end.

Definition inject_nat (n : nat) : Q := inject_Z (Z.of_nat n).

Definition scoreCompatibility (report : CompatibilityReport) : RiskFactor :=
  let total := length (checks report) in
  if (total =? 0)%nat then
    {| rf_name := "Peer Compatibility";
       rf_score := WEIGHT_COMPATIBILITY;
       maxScore := WEIGHT_COMPATIBILITY;
       reason := "No peer dependencies declared" |}
  else
    let missing := count_where (has_status MISSING) (checks report) in
    let incompatible := count_where (has_status INCOMPATIBLE) (checks report) in
    let issues := (missing + incompatible)%nat in
    let penalty := Qmin (double_div (inject_nat issues) (inject_nat total)) 1%Q in
    let score :=
      Math_round (double_mul (inject_Z WEIGHT_COMPATIBILITY)
                             (double_sub 1 penalty)) in
    let reason :=
      if (issues =? 0)%nat then "All peer dependencies satisfied"
      else
        let parts :=
          (if (0 <? missing)%nat then [pretty missing +:+ " missing"] else []) ++
          (if (0 <? incompatible)%nat
           then [pretty incompatible +:+ " incompatible"] else []) in
        "Peer issues: " +:+ join ", " parts in
    {| rf_name := "Peer Compatibility";
       rf_score := score;
       maxScore := WEIGHT_COMPATIBILITY;
       reason := reason |}.

Definition scoreSecurity (report : SecurityReport) : RiskFactor :=
  let vulnerabilities := vulnerabilities report in
  if (length vulnerabilities =? 0)%nat then
    {| rf_name := "Security";
       rf_score := WEIGHT_SECURITY;
       maxScore := WEIGHT_SECURITY;
       reason := "No known vulnerabilities" |}
  else
    let critical := count_where (has_severity CRITICAL) vulnerabilities in
    let high := count_where (has_severity HIGH) vulnerabilities in
    let moderate := count_where (has_severity MODERATE) vulnerabilities in
    let penalty :=
      Qmin (double_div (inject_nat (critical * 15 + high * 8 + moderate * 3))
                       (inject_Z WEIGHT_SECURITY)) 1%Q in
    let score :=
      Math_round (double_mul (inject_Z WEIGHT_SECURITY)
                             (double_sub 1 penalty)) in
    let reason :=
      pretty (length vulnerabilities) +:+ " vulnerabilit" +:+
      (if (length vulnerabilities =? 1)%nat then "y" else "ies") +:+
      " (" +:+ pretty critical +:+ " critical, " +:+ pretty high +:+ " high)" in
    {| rf_name := "Security";
       rf_score := score;
       maxScore := WEIGHT_SECURITY;
       reason := reason |}.

Definition scoreDeprecation (info : option PackageInfo) : RiskFactor :=
  match info with
  | None =>
      {| rf_name := "Deprecation";
         rf_score := WEIGHT_DEPRECATION;
         maxScore := WEIGHT_DEPRECATION;
         reason := "Package info unavailable — skipped" |}
  | Some info =>
      match deprecated info with
      | Some message =>
          {| rf_name := "Deprecation";
             rf_score := 0;
             maxScore := WEIGHT_DEPRECATION;
             reason := "Deprecated: " +:+ message |}
      | None =>
          {| rf_name := "Deprecation";
             rf_score := WEIGHT_DEPRECATION;
             maxScore := WEIGHT_DEPRECATION;
             reason := "Not deprecated" |}
      end
  end.

(** [now] is what [Date.now()] answers.  The assignments to [score] and
    the pushes onto [reasons] are threaded through the three checks in the
    order of the source. *)
Definition scoreMaintenance (now : Z) (info : option PackageInfo) : RiskFactor :=
  match info with
  | None =>
      {| rf_name := "Maintenance";
         rf_score := WEIGHT_MAINTENANCE;
         maxScore := WEIGHT_MAINTENANCE;
         reason := "Package info unavailable — skipped" |}
  | Some info =>
      let score := WEIGHT_MAINTENANCE in
      let reasons : list string := [] in
      (* last publish staleness *)
      let '(score, reasons) :=
        match lastPublish info with
        | Some published =>
            let daysSince := (now - published) / (1000 * 60 * 60 * 24) in
            if (730 <? daysSince)%Z then
              (score - 10,
               reasons ++ ["Last published " +:+ pretty daysSince +:+ " days ago"])
            else if (365 <? daysSince)%Z then
              (score - 5,
               reasons ++ ["Last published " +:+ pretty daysSince +:+ " days ago"])
            else (score, reasons)
        | None => (score, reasons)
        end in
      (* maintainer count *)
      let '(score, reasons) :=
        if (maintainerCount info =? 0)%nat then
          (score - 5, reasons ++ ["No listed maintainers"])
        else if (maintainerCount info =? 1)%nat then
          (score - 2, reasons ++ ["Single maintainer (bus factor)"])
        else (score, reasons) in
      (* downloads *)
      let '(score, reasons) :=
        if (weeklyDownloads info <? 100)%Z then
          (score - 3,
           reasons ++ ["Low usage: " +:+ pretty (weeklyDownloads info)
                       +:+ " weekly downloads"])
        else (score, reasons) in
      let score := Z.max score 0 in
      let reason :=
        if (0 <? length reasons)%nat then join "; " reasons
        else "Actively maintained" in
      {| rf_name := "Maintenance";
         rf_score := score;
         maxScore := WEIGHT_MAINTENANCE;
         reason := reason |}
  end.

(** [factors.reduce((sum, f) => sum + f.score, 0)] *)
Definition sum_scores (factors : list RiskFactor) : Z :=
  fold_left (fun sum f => sum + rf_score f) factors 0.

Definition calculateRiskScore (now : Z) (compatibility : CompatibilityReport)
    (security : SecurityReport) (packageInfo : option PackageInfo) : RiskScore :=
  let factors :=
    [ scoreCompatibility compatibility;
      scoreSecurity security;
      scoreDeprecation packageInfo;
      scoreMaintenance now packageInfo ] in
  let totalScore := sum_scores factors in
  let action :=
    if (THRESHOLD_ALLOW <? totalScore)%Z then ALLOW
    else if (THRESHOLD_WARN <? totalScore)%Z then WARN
    else BLOCK in
  {| score := totalScore; action := action; factors := factors |}.

(** ** The semver dependency

    [src/checkers/compatibility.ts] decides overlap by calling
    [semver.intersects] of the npm package semver (version 7, the one the
    project depends on).  That package is not part of this repository; this
    module transcribes the part of it the call runs through, in its default
    options (strict parsing, pre-releases not included):
    [internal/identifiers.js], [classes/semver.js] (comparison),
    [classes/comparator.js], [classes/range.js] and [ranges/intersects.js]. *)
Module Semver.

(** A pre-release identifier: a number, or a word of letters, digits and
    hyphens that is not a number. *)
Inductive Identifier : Type :=
| Numeric (n : N)
| Alphanumeric (s : string).

(** A parsed version; build metadata takes no part in any comparison and
    is dropped. *)
Record SemVer : Type := mkSemVer {
  major : N;
  minor : N;
  patch : N;
  prerelease : list Identifier
}.

#[global] Instance Identifier_eq_dec : EqDecision Identifier.
Proof. solve_decision. Defined.
#[global] Instance SemVer_eq_dec : EqDecision SemVer.
Proof. solve_decision. Defined.

(** [compareIdentifiers]: numbers sort numerically and before words,
    words sort by code unit. *)
Definition compareIdentifiers (a b : Identifier) : comparison :=
  match a, b with
  | Numeric x, Numeric y => N.compare x y
  | Numeric _, Alphanumeric _ => Lt
  | Alphanumeric _, Numeric _ => Gt
  | Alphanumeric x, Alphanumeric y => String.compare x y
  end.

(** [a || b] on comparison results. *)
Definition orElse (c d : comparison) : comparison :=
  match c with Eq => d | _ => c end.

Definition compareMain (a b : SemVer) : comparison :=
  orElse (N.compare (major a) (major b))
    (orElse (N.compare (minor a) (minor b))
            (N.compare (patch a) (patch b))).

(** The [do ... while (++i)] loop of [comparePre], over the two
    identifier lists from index [i] on. *)
Fixpoint comparePreFrom (a b : list Identifier) : comparison :=
  match a, b with
  | [], [] => Eq
  | _ :: _, [] => Gt
  | [], _ :: _ => Lt
  | x :: a', y :: b' =>
      if decide (x = y) then comparePreFrom a' b'
      else compareIdentifiers x y
  end.

Definition comparePre (a b : SemVer) : comparison :=
  match prerelease a, prerelease b with
  | _ :: _, [] => Lt
  | [], _ :: _ => Gt
  | [], [] => Eq
  | pa, pb => comparePreFrom pa pb
  end.

Definition compare (a b : SemVer) : comparison :=
  if decide (a = b) then Eq
  else orElse (compareMain a b) (comparePre a b).

(** The operator of a comparator; [OpEq] is the empty operator. *)
Inductive Operator : Type := OpEq | OpLt | OpLe | OpGt | OpGe.

#[global] Instance Operator_eq_dec : EqDecision Operator.
Proof. solve_decision. Defined.

(** [cmp(a, op, b)] *)
Definition cmp (a : SemVer) (op : Operator) (b : SemVer) : bool :=
  match op, compare a b with
  | OpEq, Eq => true
  | OpLt, Lt => true
  | OpLe, (Lt | Eq) => true
  | OpGt, Gt => true
  | OpGe, (Gt | Eq) => true
  | _, _ => false
  end.

(** A comparator: [ANY] (the empty comparator, written [*] or nothing),
    or an operator and a version. *)
Inductive Comparator : Type :=
| ANY
| Cmp (operator : Operator) (semver : SemVer).

#[global] Instance Comparator_eq_dec : EqDecision Comparator.
Proof. solve_decision. Defined.

(** A range: a disjunction of conjunctions of comparators ([range.set]). *)
Definition Range : Type := list (list Comparator).

Definition startsWithGt (op : Operator) : bool :=
  match op with OpGt | OpGe => true | _ => false end.
Definition startsWithLt (op : Operator) : bool :=
  match op with OpLt | OpLe => true | _ => false end.
Definition includesEq (op : Operator) : bool :=
  match op with OpLe | OpGe => true | _ => false end.

(** [Comparator.prototype.test] *)
Definition Comparator_test (c : Comparator) (version : SemVer) : bool :=
  match c with
  | ANY => true
  | Cmp op sv => cmp version op sv
  end.

(** Whether a comparator lets the pre-release [version] in: it carries a
    pre-release itself, on the same major, minor and patch. *)
Definition allowsPrerelease (version : SemVer) (c : Comparator) : bool :=
  match c with
  | ANY => false
  | Cmp _ allowed =>
      match prerelease allowed with
      | [] => false
      | _ :: _ =>
          (major allowed =? major version)%N &&
          (minor allowed =? minor version)%N &&
          (patch allowed =? patch version)%N
      end
  end.

(** [testSet] of [classes/range.js] *)
Definition testSet (set : list Comparator) (version : SemVer) : bool :=
  if forallb (fun c => Comparator_test c version) set then
    match prerelease version with
    | [] => true
    | _ :: _ => existsb (allowsPrerelease version) set
    end
  else false.

(** [Range.prototype.test] *)
Definition Range_test (r : Range) (version : SemVer) : bool :=
  existsb (fun set => testSet set version) r.

Definition zero : SemVer :=
  {| major := 0; minor := 0; patch := 0; prerelease := [] |}.

(** [replaceGTE0]: the comparator [>=0.0.0] reads as [ANY]. *)
Definition replaceGTE0 (c : Comparator) : Comparator :=
  match c with
  | Cmp OpGe sv => if decide (sv = zero) then ANY else c
  | _ => c
  end.

(** [new Range(comp.value)]: the range a single comparator prints to and
    parses back as. *)
Definition Range_of_value (c : Comparator) : Range := [[replaceGTE0 c]].

(** [value.startsWith('<0.0.0')]: the operator is [<] and the version is
    0.0.0, with or without a pre-release. *)
Definition belowZero (c : Comparator) : bool :=
  match c with
  | Cmp OpLt sv => (major sv =? 0)%N && (minor sv =? 0)%N && (patch sv =? 0)%N
  | _ => false
  end.

(** [Comparator.prototype.intersects] *)
Definition Comparator_intersects (this comp : Comparator) : bool :=
  match this, comp with
  | ANY, _ => true
  | Cmp OpEq v, _ => Range_test (Range_of_value comp) v
  | _, ANY => true
  | Cmp _ _, Cmp OpEq v => Range_test (Range_of_value this) v
  | Cmp op1 v1, Cmp op2 v2 =>
      if belowZero this || belowZero comp then false
      else if startsWithGt op1 && startsWithGt op2 then true
      else if startsWithLt op1 && startsWithLt op2 then true
      else if bool_decide (v1 = v2) && includesEq op1 && includesEq op2 then true
      else if cmp v1 OpLt v2 && startsWithGt op1 && startsWithLt op2 then true
      else if cmp v1 OpGt v2 && startsWithLt op1 && startsWithGt op2 then true
      else false
  end.

(** The loop of [isSatisfiable], which pops comparators off the end:
    [popped] is the list in popping order. *)
Fixpoint isSatisfiableFrom (popped : list Comparator) : bool :=
  match popped with
  | [] => true
  | testComparator :: remaining =>
      forallb (fun other => Comparator_intersects testComparator other)
              remaining
      && isSatisfiableFrom remaining
  end.

Definition isSatisfiable (comparators : list Comparator) : bool :=
  isSatisfiableFrom (rev comparators).

(** [Range.prototype.intersects] *)
Definition Range_intersects (this range : Range) : bool :=
  existsb (fun thisComparators =>
    isSatisfiable thisComparators &&
    existsb (fun rangeComparators =>
      isSatisfiable rangeComparators &&
      forallb (fun thisComparator =>
        forallb (fun rangeComparator =>
          Comparator_intersects thisComparator rangeComparator)
          rangeComparators)
        thisComparators)
      range)
    this.

(** *** Reading a range

    [new Range(string)] for the range syntax in common use: alternatives
    separated by [||]; each a hyphen range of two versions, or comparators
    separated by blanks; a comparator is an optional operator ([<], [>],
    [<=], [>=], [=]) or a caret or tilde in front of a version, which may
    be prefixed with [v], whose components may be left out or be [x], [X]
    or [*], and which may end in a pre-release and build metadata once it
    has three components.  Every version a comparator ends up with has
    components up to [MAX_SAFE_INTEGER].  Left out of this reader, and
    answered [None] like a string that is no range: blanks other than the
    space, and strings beyond the length the package accepts. *)

Definition isDigit (c : ascii) : bool :=
  (48 <=? nat_of_ascii c)%nat && (nat_of_ascii c <=? 57)%nat.

Definition isLetter (c : ascii) : bool :=
  ((65 <=? nat_of_ascii c)%nat && (nat_of_ascii c <=? 90)%nat) ||
  ((97 <=? nat_of_ascii c)%nat && (nat_of_ascii c <=? 122)%nat).

Definition isIdentifierChar (c : ascii) : bool :=
  isDigit c || isLetter c || Ascii.eqb c "-".

Fixpoint allChars (p : ascii -> bool) (s : string) : bool :=
  match s with
  | EmptyString => true
  | String c rest => p c && allChars p rest
  end.

Fixpoint digitsValue (acc : N) (s : string) : N :=
  match s with
  | EmptyString => acc
  | String c rest =>
      digitsValue (acc * 10 + N.of_nat (nat_of_ascii c - 48)) rest
  end.

Definition MAX_SAFE_INTEGER : N := 9007199254740991.

(** A numeric identifier: [0], or digits with no leading zero. *)
Definition parseNumeric (s : string) : option N :=
  match s with
  | EmptyString => None
  | String c rest =>
      if allChars isDigit s && (negb (Ascii.eqb c "0") || String.eqb rest "")
      then
        let n := digitsValue 0 s in
        if (n <=? MAX_SAFE_INTEGER)%N then Some n else None
      else None
  end.

Definition parseIdentifier (s : string) : option Identifier :=
  match s with
  | EmptyString => None
  | String _ _ =>
      if allChars isDigit s then Numeric <$> parseNumeric s
      else if allChars isIdentifierChar s then Some (Alphanumeric s)
      else None
  end.

(** [s.split(sep)] for a separator of one character. *)
Fixpoint splitOn (sep : ascii) (s : string) : list string :=
  match s with
  | EmptyString => [EmptyString]
  | String c rest =>
      if Ascii.eqb c sep then EmptyString :: splitOn sep rest
      else
        match splitOn sep rest with
        | [] => [String c EmptyString]
        | w :: ws => String c w :: ws
        end
  end.

(** [s.split('||')] *)
Fixpoint splitOnBars (s : string) : list string :=
  match s with
  | EmptyString => [EmptyString]
  | String c rest =>
      let keep :=
        match splitOnBars rest with
        | [] => [String c EmptyString]
        | w :: ws => String c w :: ws
        end in
      match rest with
      | String d rest' =>
          if Ascii.eqb c "|" && Ascii.eqb d "|"
          then EmptyString :: splitOnBars rest'
          else keep
      | EmptyString => keep
      end
  end.

(** The text before the first [sep], and the text after it if there is
    one. *)
Fixpoint cutAt (sep : ascii) (s : string) : string * option string :=
  match s with
  | EmptyString => (EmptyString, None)
  | String c rest =>
      if Ascii.eqb c sep then (EmptyString, Some rest)
      else let '(before, after) := cutAt sep rest in (String c before, after)
  end.

(** A version component as written: a number, or left open. *)
Inductive XR : Type := X | Num (n : N).

Definition parseXR (s : string) : option XR :=
  if String.eqb s "x" || String.eqb s "X" || String.eqb s "*" then Some X
  else Num <$> parseNumeric s.

(** A version with components possibly left out ([XRANGEPLAIN]); a
    component that is absent reads as [X]. *)
Record Partial : Type := mkPartial {
  pM : XR; pm : XR; pp : XR;
  ppr : list Identifier
}.

Definition parseIdentifiers (s : string) : option (list Identifier) :=
  mapM parseIdentifier (splitOn "." s).

Definition validBuild (s : string) : bool :=
  forallb (fun part => negb (String.eqb part "") && allChars isIdentifierChar part)
          (splitOn "." s).

Definition parsePartial (s : string) : option Partial :=
  let '(versionAndPre, build) := cutAt "+" s in
  let '(main, pre) := cutAt "-" versionAndPre in
  let buildOk := match build with None => true | Some b => validBuild b end in
  if negb buildOk then None
  else
    match splitOn "." main, pre, build with
    | [M], None, None =>
        M ← parseXR M; Some (mkPartial M X X [])
    | [M; m], None, None =>
        M ← parseXR M; m ← parseXR m; Some (mkPartial M m X [])
    | [M; m; p], pre, _ =>
        M ← parseXR M; m ← parseXR m; p ← parseXR p;
        pr ← match pre with
             | None => Some []
             | Some pre => parseIdentifiers pre
             end;
        Some (mkPartial M m p pr)
    | _, _, _ => None
    end.

(** The characters [XRANGEPLAIN] lets stand in front of a version, taken
    off. *)
Fixpoint dropVersionPrefix (s : string) : string :=
  match s with
  | String c rest =>
      if Ascii.eqb c "v" || Ascii.eqb c "=" then dropVersionPrefix rest else s
  | EmptyString => EmptyString
  end.

(** A version as [XRANGEPLAIN] reads it, prefix included. *)
Definition parsePrefixed (s : string) : option Partial :=
  parsePartial (dropVersionPrefix s).

Definition isFull (x : Partial) : bool :=
  match pM x, pm x, pp x with
  | Num _, Num _, Num _ => true
  | _, _, _ => false
  end.

(** A version written in full is left as it is by the replacements and
    read by the comparator pattern, which lets one [v] stand in front of
    it and nothing else; a version with a component left open is written
    anew from its numbers. *)
Definition parseInComparator (s : string) : option Partial :=
  x ← parsePrefixed s;
  if isFull x && negb (String.eqb (dropVersionPrefix s) s
                       || String.eqb ("v" +:+ dropVersionPrefix s) s)
  then None else Some x.

Definition v (M m p : N) (pr : list Identifier) : SemVer :=
  {| major := M; minor := m; patch := p; prerelease := pr |}.

(** The pre-release [-0], the lowest of a version. *)
Definition pre0 : list Identifier := [Numeric 0].

(** [replaceCaret] *)
Definition replaceCaret (x : Partial) : list Comparator :=
  match pM x, pm x, pp x with
  | X, _, _ => [ANY]
  | Num M, X, _ => [Cmp OpGe (v M 0 0 []); Cmp OpLt (v (M + 1) 0 0 pre0)]
  | Num M, Num m, X =>
      if (M =? 0)%N
      then [Cmp OpGe (v M m 0 []); Cmp OpLt (v M (m + 1) 0 pre0)]
      else [Cmp OpGe (v M m 0 []); Cmp OpLt (v (M + 1) 0 0 pre0)]
  | Num M, Num m, Num p =>
      if (M =? 0)%N then
        if (m =? 0)%N
        then [Cmp OpGe (v M m p (ppr x)); Cmp OpLt (v M m (p + 1) pre0)]
        else [Cmp OpGe (v M m p (ppr x)); Cmp OpLt (v M (m + 1) 0 pre0)]
      else [Cmp OpGe (v M m p (ppr x)); Cmp OpLt (v (M + 1) 0 0 pre0)]
  end.

(** [replaceTilde] *)
Definition replaceTilde (x : Partial) : list Comparator :=
  match pM x, pm x, pp x with
  | X, _, _ => [ANY]
  | Num M, X, _ => [Cmp OpGe (v M 0 0 []); Cmp OpLt (v (M + 1) 0 0 pre0)]
  | Num M, Num m, X => [Cmp OpGe (v M m 0 []); Cmp OpLt (v M (m + 1) 0 pre0)]
  | Num M, Num m, Num p =>
      [Cmp OpGe (v M m p (ppr x)); Cmp OpLt (v M (m + 1) 0 pre0)]
  end.

(** The operator in front of a version, as written ([GTLT]). *)
Inductive Gtlt : Type := GNone | GEq | GLt | GLe | GGt | GGe.

Definition operatorOf (g : Gtlt) : Operator :=
  match g with
  | GNone | GEq => OpEq
  | GLt => OpLt | GLe => OpLe | GGt => OpGt | GGe => OpGe
  end.

(** [replaceXRange], followed by [replaceStars] and the comparator
    parse. *)
Definition replaceXRange (gtlt : Gtlt) (x : Partial) : list Comparator :=
  match pM x, pm x, pp x with
  | Num M, Num m, Num p => [Cmp (operatorOf gtlt) (v M m p (ppr x))]
  | X, _, _ =>
      match gtlt with
      | GGt | GLt => [Cmp OpLt (v 0 0 0 pre0)]
      | _ => [ANY]
      end
  | Num M, xm, _ =>
      match gtlt, xm with
      | (GNone | GEq), X =>
          [Cmp OpGe (v M 0 0 []); Cmp OpLt (v (M + 1) 0 0 pre0)]
      | (GNone | GEq), Num m =>
          [Cmp OpGe (v M m 0 []); Cmp OpLt (v M (m + 1) 0 pre0)]
      | GGt, X => [Cmp OpGe (v (M + 1) 0 0 [])]
      | GGt, Num m => [Cmp OpGe (v M (m + 1) 0 [])]
      | GLe, X => [Cmp OpLt (v (M + 1) 0 0 pre0)]
      | GLe, Num m => [Cmp OpLt (v M (m + 1) 0 pre0)]
      | GLt, X => [Cmp OpLt (v M 0 0 pre0)]
      | GLt, Num m => [Cmp OpLt (v M m 0 pre0)]
      | GGe, X => [Cmp OpGe (v M 0 0 [])]
      | GGe, Num m => [Cmp OpGe (v M m 0 [])]
      end
  end.

(** One blank-separated piece of a range, through [parseComparator]. *)
Definition parseComparator (token : string) : option (list Comparator) :=
  match token with
  | EmptyString => Some [ANY]
  | String "^" rest => replaceCaret <$> parsePrefixed rest
  | String "~" (String ">" rest) => replaceTilde <$> parsePrefixed rest
  | String "~" rest => replaceTilde <$> parsePrefixed rest
  | String "<" (String "=" rest) => replaceXRange GLe <$> parseInComparator rest
  | String ">" (String "=" rest) => replaceXRange GGe <$> parseInComparator rest
  | String "<" rest => replaceXRange GLt <$> parseInComparator rest
  | String ">" rest => replaceXRange GGt <$> parseInComparator rest
  | String "=" rest => replaceXRange GEq <$> parseInComparator rest
  | _ => replaceXRange GNone <$> parseInComparator token
  end.

(** [hyphenReplace]: the comparators [from - to] stands for. *)
Definition hyphenFrom (from : string) : option (list Comparator) :=
  x ← parsePrefixed from;
  match pM x, pm x, pp x with
  | X, _, _ => Some []
  | Num M, X, _ => Some [Cmp OpGe (v M 0 0 [])]
  | Num M, Num m, X => Some [Cmp OpGe (v M m 0 [])]
  | Num _, Num _, Num _ => parseComparator (">=" +:+ from)
  end.

Definition hyphenTo (to : string) : option (list Comparator) :=
  x ← parsePrefixed to;
  match pM x, pm x, pp x with
  | X, _, _ => Some []
  | Num M, X, _ => Some [Cmp OpLt (v (M + 1) 0 0 pre0)]
  | Num M, Num m, X => Some [Cmp OpLt (v M (m + 1) 0 pre0)]
  | Num M, Num m, Num p =>
      match ppr x with
      | [] => parseComparator ("<=" +:+ to)
      | pr => Some [Cmp OpLe (v M m p pr)]
      end
  end.

(** [new Comparator(comp)] accepts the version: no component above
    [MAX_SAFE_INTEGER]. *)
Definition validComparator (c : Comparator) : bool :=
  match c with
  | ANY => true
  | Cmp _ sv =>
      (major sv <=? MAX_SAFE_INTEGER)%N && (minor sv <=? MAX_SAFE_INTEGER)%N
      && (patch sv <=? MAX_SAFE_INTEGER)%N
  end.

Definition isBareOperator (token : string) : bool :=
  bool_decide (token ∈ ["<"; ">"; "<="; ">="; "="; "~"; "~>"; "^"]).

(** The trimming of [parseRange]: an operator, caret or tilde separated
    from its version by blanks is joined to it. *)
Fixpoint joinOperators (tokens : list string) : list string :=
  match tokens with
  | [] => []
  | t :: rest =>
      match joinOperators rest with
      | next :: rest' =>
          if isBareOperator t then (t +:+ next) :: rest'
          else t :: next :: rest'
      | [] => [t]
      end
  end.

Definition isNullSet (c : Comparator) : bool :=
  bool_decide (c = Cmp OpLt (v 0 0 0 pre0)).

Definition isAny (c : Comparator) : bool := bool_decide (c = ANY).

(** Each comparator once, at its first place (the [Map] of
    [parseRange]). *)
Fixpoint dedupe (seen cs : list Comparator) : list Comparator :=
  match cs with
  | [] => []
  | c :: rest =>
      if bool_decide (c ∈ seen) then dedupe seen rest
      else c :: dedupe (c :: seen) rest
  end.

(** The comparators of one alternative: of its hyphen range, if it is
    one, or of its blank-separated pieces. *)
Definition parseComparators (tokens : list string)
    : option (list Comparator) :=
  let hyphen : option (list Comparator) :=
    match tokens with
    | [from; dash; to] =>
        if String.eqb dash "-"
        then low ← hyphenFrom from; high ← hyphenTo to; Some (low ++ high)
        else None
    | _ => None
    end in
  match hyphen with
  | Some [] => Some [ANY]
  | Some comparators => Some comparators
  | None =>
      let tokens := match joinOperators tokens with [] => [""] | ts => ts end in
      parsed ← mapM parseComparator tokens; Some (concat parsed)
  end.

(** [Range.prototype.parseRange] on one alternative, already trimmed. *)
Definition parseRangeSet (part : string) : option (list Comparator) :=
  let tokens := List.filter (fun t => negb (String.eqb t "")) (splitOn " " part) in
  parsed ← parseComparators tokens;
  if negb (forallb validComparator parsed) then None
  else
    let comparators := replaceGTE0 <$> parsed in
    match List.find isNullSet comparators with
    | Some null => Some [null]
    | None =>
        let unique := dedupe [] comparators in
        if (1 <? length unique)%nat
        then Some (List.filter (fun c => negb (isAny c)) unique)
        else Some unique
    end.

Definition isNullSetList (set : list Comparator) : bool :=
  match set with c :: _ => isNullSet c | [] => false end.

Definition isAnyList (set : list Comparator) : bool :=
  match set with [c] => isAny c | _ => false end.

(** [new Range(range)]: [None] when the constructor throws. *)
Definition parseRange (range : string) : option Range :=
  sets ← mapM parseRangeSet (splitOnBars range);
  match sets with
  | [] => None
  | [set] => Some [set]
  | first :: _ =>
      match List.filter (fun set => negb (isNullSetList set)) sets with
      | [] => Some [first]
      | [set] => Some [set]
      | kept =>
          match List.find isAnyList kept with
          | Some any => Some [any]
          | None => Some kept
          end
      end
  end.

(** An exact version with a pre-release, such as [1.0.0-beta]. *)
Definition isExactPrerelease (c : Comparator) : bool :=
  match c with
  | Cmp OpEq sv => match prerelease sv with [] => false | _ :: _ => true end
  | _ => false
  end.

(** The one pair of comparators on which the order of the two arguments
    of [Comparator.prototype.intersects] matters: the wildcard against an
    exact pre-release version. *)
Definition wildcardMeetsPrerelease (c1 c2 : Comparator) : bool :=
  (bool_decide (c1 = ANY) && isExactPrerelease c2)
  || (isExactPrerelease c1 && bool_decide (c2 = ANY)).

(** Whether such a pair occurs between two ranges. *)
Definition meetsWildcardPrerelease (r1 r2 : Range) : bool :=
  existsb (fun set1 =>
    existsb (fun set2 =>
      existsb (fun c1 => existsb (wildcardMeetsPrerelease c1) set2) set1)
      r2)
    r1.

(** [semver.intersects(r1, r2)]: both strings are parsed ([new Range],
    which throws a [TypeError] on a string that is no range), first [r1]
    then [r2], and the ranges compared.  [parse] is the parser; the error
    carries the string that was refused. *)
Definition intersects (parse : string -> option Range) (r1 r2 : string)
    : result bool :=
  match parse r1 with
  | None => Thrown (TypeError r1)
  | Some range1 =>
      match parse r2 with
      | None => Thrown (TypeError r2)
      | Some range2 => Returned (Range_intersects range1 range2)
      end
  end.

End Semver.

(** ** The on-disk cache ([src/utils/cache.ts])

    The cache directory holds one file per key.  Its three users prefix
    their keys differently ([peers:], [npminfo:], [security:]), so each sees
    a store of its own type of data.  A file that cannot be read or parsed
    counts as absent, as in [Cache.get]. *)

(** What the file system and the clock answer during one call; the clock
    is read as one instant. *)
Record Io : Type := mkIo {
  (** [Date.now()] *)
  now : Z;
  (** [fs.mkdir(cacheDir, { recursive: true })] resolves *)
  mkdirOk : bool;
  (** [fs.writeFile] into the cache directory resolves *)
  writeOk : bool;
  (** [fs.unlink] of a file of the cache directory resolves *)
  unlinkOk : bool
}.

Definition DEFAULT_TTL_MS : Z := 24 * 60 * 60 * 1000.
Definition SECURITY_CACHE_TTL_MS : Z := 7 * 24 * 60 * 60 * 1000.

Section Cache.
Context {T : Type}.

Definition ensureDir (io : Io) : result unit :=
  if mkdirOk io then Returned tt else Thrown (SystemError "EACCES").

(** [cache.get(key)]: the answer and the store it leaves. *)
Definition cache_get (io : Io) (store : gmap string (CacheEntry T))
    (key : string) : result (option T) * gmap string (CacheEntry T) :=
  match ensureDir io with
  | Thrown e => (Thrown e, store)
  | Returned _ =>
      match store !! key with
      | None => (Returned None, store)
      | Some entry =>
          let age := now io - timestamp entry in
          if (ttl entry <? age)%Z then
            (* expired: removed, unless [unlink] fails, which is ignored *)
            (Returned None, if unlinkOk io then delete key store else store)
          else (Returned (Some (data entry)), store)
      end
  end.

(** [cache.set(key, data, ttl)] *)
Definition cache_set (io : Io) (store : gmap string (CacheEntry T))
    (key : string) (d : T) (ttl : Z)
    : result unit * gmap string (CacheEntry T) :=
  match ensureDir io with
  | Thrown e => (Thrown e, store)
  | Returned _ =>
      if writeOk io
      then (Returned tt,
            <[key := {| data := d; timestamp := now io; ttl := ttl |}]> store)
      else (Thrown (SystemError "EIO"), store)
  end.
End Cache.

(** An HTTP exchange: [fetch] rejects, or resolves to a response with its
    [ok] flag and what [res.json()] settles to. *)
Record Response (A : Type) : Type := mkResponse {
  ok : bool;
  json : result A
}.
Arguments mkResponse {A} _ _.
Arguments ok {A} _.
Arguments json {A} _.

(** ** Plain objects

    A JavaScript object used as a dictionary is modelled by the map of its
    own properties.  Reading [o[key]] finds the own property of that name
    and, failing that, the member of [Object.prototype] of that name: a
    function, or for [__proto__] the prototype itself.  (That nothing else
    has been added to [Object.prototype] is assumed.) *)

(** The names of the members of [Object.prototype]. *)
Definition inheritedNames : list string :=
  ["constructor"; "__defineGetter__"; "__defineSetter__"; "hasOwnProperty";
   "__lookupGetter__"; "__lookupSetter__"; "isPrototypeOf";
   "propertyIsEnumerable"; "toString"; "valueOf"; "__proto__";
   "toLocaleString"].

Definition inherited (key : string) : bool :=
  bool_decide (key ∈ inheritedNames).

(** ** Peer dependency compatibility checker
       ([src/checkers/compatibility.ts]) *)

Record PeerMeta : Type := mkPeerMeta { optional : option bool }.

Record NpmVersionData : Type := mkNpmVersionData {
  vd_peerDependencies : option (list (string * string));
  vd_peerDependenciesMeta : option (gmap string PeerMeta)
}.

Record NpmRegistryResponse : Type := mkNpmRegistryResponse {
  (** [data['dist-tags']?.latest] *)
  dist_tags_latest : option string;
  versions : option (gmap string NpmVersionData)
}.

Record UserPackageJson : Type := mkUserPackageJson {
  dependencies : option (gmap string string);
  devDependencies : option (gmap string string)
}.

Record CachedPeers : Type := mkCachedPeers {
  peers : list (string * string);
  meta : gmap string PeerMeta;
  resolvedVersion : string
}.

(** An absolute path, as its segments below the root. *)
Definition Path : Type := list string.

(** [path.dirname]; the root is its own parent. *)
Definition dirname (p : Path) : Path := removelast p.

(** What the world outside answers to the compatibility checker. *)
Record World : Type := mkWorld {
  io : Io;
  (** [fs.access(path)] resolves *)
  fs_access : Path -> bool;
  (** [JSON.parse(await fs.readFile(path, 'utf-8'))] *)
  readManifest : Path -> result UserPackageJson;
  (** [fetch] of the registry document of a package *)
  registry : string -> result (Response NpmRegistryResponse)
}.

Fixpoint findPackageJsonFrom (w : World) (current : Path) (remaining : nat)
    : option Path :=
  match remaining with
  | O => None
  | S remaining =>
      let candidate := current ++ ["package.json"] in
      if fs_access w candidate then Some candidate
      else
        let parent := dirname current in
        if decide (parent = current) then None
        else findPackageJsonFrom w parent remaining
  end.

(** [startPath] is the path as [path.resolve] gives it. *)
Definition findPackageJson (w : World) (startPath : Path) (maxDepth : nat)
    : option Path :=
  findPackageJsonFrom w startPath maxDepth.

(** [Object.assign(target, source)] on a plain [target]: every own key of
    [source] is assigned into [target].  The assignment to [__proto__] goes
    to the setter [Object.prototype] has for it, which does nothing with a
    string: that key never becomes an own property of [target]. *)
Definition Object_assign (target source : gmap string string)
    : gmap string string :=
  delete "__proto__" source ∪ target.

Definition getInstalledPackages (w : World) (pkgJsonPath : Path)
    : result (gmap string string) :=
  let* pkg := readManifest w pkgJsonPath in
  let installed : gmap string string := ∅ in
  let installed :=
    match dependencies pkg with
    | Some deps => Object_assign installed deps
    | None => installed
    end in
  let installed :=
    match devDependencies pkg with
    | Some devDeps => Object_assign installed devDeps
    | None => installed
    end in
  Returned installed.

(** [data.versions[latestTag]]: the entry of the version, or undefined.
    An inherited member read in its place is an object without
    [peerDependencies] and without [peerDependenciesMeta]. *)
Definition readVersion (versions : gmap string NpmVersionData)
    (latestTag : string) : option NpmVersionData :=
  match versions !! latestTag with
  | Some versionData => Some versionData
  | None =>
      if inherited latestTag
      then Some {| vd_peerDependencies := None;
                   vd_peerDependenciesMeta := None |}
      else None
  end.

(** The body of the [try] block of [fetchPeerDependencies]. *)
Definition fetchPeersUncached (w : World)
    (store : gmap string (CacheEntry CachedPeers))
    (cacheKey packageName : string)
    : result (option CachedPeers) * gmap string (CacheEntry CachedPeers) :=
  match registry w packageName with
  | Thrown e => (Thrown e, store)
  | Returned res =>
      if negb (ok res) then (Returned None, store)
      else
        match json res with
        | Thrown e => (Thrown e, store)
        | Returned data =>
            match dist_tags_latest data, versions data with
            | Some latestTag, Some versions =>
                if String.eqb latestTag "" then (Returned None, store)
                else
                  match readVersion versions latestTag with
                  | None => (Returned None, store)
                  | Some versionData =>
                      let result :=
                        {| peers := default [] (vd_peerDependencies versionData);
                           meta := default ∅ (vd_peerDependenciesMeta versionData);
                           resolvedVersion := latestTag |} in
                      match cache_set (io w) store cacheKey result DEFAULT_TTL_MS with
                      | (Thrown e, store) => (Thrown e, store)
                      | (Returned _, store) => (Returned (Some result), store)
                      end
                  end
            | _, _ => (Returned None, store)
            end
        end
  end.

Definition fetchPeerDependencies (w : World)
    (store : gmap string (CacheEntry CachedPeers)) (packageName : string)
    : result (option CachedPeers) * gmap string (CacheEntry CachedPeers) :=
  let cacheKey := "peers:" +:+ packageName in
  match cache_get (io w) store cacheKey with
  | (Thrown e, store) => (Thrown e, store)
  | (Returned (Some cached), store) => (Returned (Some cached), store)
  | (Returned None, store) =>
      match fetchPeersUncached w store cacheKey packageName with
      | (Thrown _, store) => (Returned None, store)
      | (Returned r, store) => (Returned r, store)
      end
  end.

(** The double quote of the remediation commands. *)
Definition dquote : string := String "034"%char EmptyString.

(** [`${peerName}@"${requiredRange}"`] *)
Definition fixPart (peerName requiredRange : string) : string :=
  peerName +:+ "@" +:+ dquote +:+ requiredRange +:+ dquote.

Definition isFailing (c : PeerCheck) : bool :=
  has_status MISSING c || has_status INCOMPATIBLE c.

Definition isPassing (c : PeerCheck) : bool :=
  has_status COMPATIBLE c || has_status OPTIONAL_MISSING c.

Section Compatibility.
(** [semver.intersects] *)
Variable semver_intersects : string -> string -> result bool.

(** One turn of the loop over [Object.entries(peerData.peers)]: the check
    pushed onto [checks] and what is pushed onto [fixParts]. *)
Definition checkPeer (installed : gmap string string)
    (meta : gmap string PeerMeta) (peerName requiredRange : string)
    : result (PeerCheck * list string) :=
  (* an inherited member read in place of the entry has no [optional] *)
  let isOptional :=
    match meta !! peerName with
    | Some m => bool_decide (optional m = Some true)
    | None => false
    end in
  let installedRange := installed !! peerName in
  let* verdict :=
    match installedRange with
    | None =>
        if inherited peerName then
          (* [installed[peerName]] is a member of [Object.prototype], which
             is not null: [semver.intersects] is called with it and throws,
             its first argument being no string *)
          Thrown (TypeError "range.trim is not a function")
        else if isOptional then Returned (OPTIONAL_MISSING, None, [])
        else
          Returned (MISSING,
                    Some ("npm install " +:+ fixPart peerName requiredRange),
                    [fixPart peerName requiredRange])
    | Some installedRange =>
        let* compatible := semver_intersects installedRange requiredRange in
        if compatible : bool then Returned (COMPATIBLE, None, [])
        else
          Returned (INCOMPATIBLE,
                    Some ("npm install " +:+ fixPart peerName requiredRange),
                    [fixPart peerName requiredRange])
    end in
  let '(status, fixCommand, pushed) := verdict in
  Returned ({| name := peerName;
               required := requiredRange;
               installed := installedRange;
               status := status;
               fixCommand := fixCommand |}, pushed).

(** The loop, from the arrays built so far. *)
Fixpoint comparePeers (installed : gmap string string)
    (meta : gmap string PeerMeta) (entries : list (string * string))
    (checks : list PeerCheck) (fixParts : list string)
    : result (list PeerCheck * list string) :=
  match entries with
  | [] => Returned (checks, fixParts)
  | (peerName, requiredRange) :: entries =>
      let* r := checkPeer installed meta peerName requiredRange in
      comparePeers installed meta entries (checks ++ [r.1]) (fixParts ++ r.2)
  end.

(** [checks.find(failing).fixCommand = combinedFix]: the first failing
    check, if any, is updated in place. *)
Fixpoint attachCombinedFix (combinedFix : string) (checks : list PeerCheck)
    : list PeerCheck :=
  match checks with
  | [] => []
  | c :: rest =>
      if isFailing c then
        {| name := name c; required := required c; installed := installed c;
           status := status c; fixCommand := Some combinedFix |} :: rest
      else c :: attachCombinedFix combinedFix rest
  end.

Definition combinedFixOf (fixParts : list string) : string :=
  "npm install " +:+ join " " fixParts.

Definition checkCompatibility (w : World)
    (store : gmap string (CacheEntry CachedPeers))
    (packageName : string) (projectPath : Path)
    : result CompatibilityReport * gmap string (CacheEntry CachedPeers) :=
  match findPackageJson w projectPath 3 with
  | None =>
      (Returned {| packageName := packageName; checks := []; compatible := true |},
       store)
  | Some pkgJsonPath =>
      match getInstalledPackages w pkgJsonPath with
      | Thrown e => (Thrown e, store)
      | Returned installed =>
          match fetchPeerDependencies w store packageName with
          | (Thrown e, store) => (Thrown e, store)
          | (Returned None, store) =>
              (Returned {| packageName := packageName; checks := [];
                           compatible := true |}, store)
          | (Returned (Some peerData), store) =>
              if (length (peers peerData) =? 0)%nat then
                (Returned {| packageName := packageName; checks := [];
                             compatible := true |}, store)
              else
                (let* r := comparePeers installed (meta peerData)
                                        (peers peerData) [] [] in
                 let '(checks, fixParts) := r in
                 let checks :=
                   if (0 <? length fixParts)%nat
                   then attachCombinedFix (combinedFixOf fixParts) checks
                   else checks in
                 let compatible := forallb isPassing checks in
                 Returned {| packageName := packageName; checks := checks;
                             compatible := compatible |},
                 store)
          end
      end
  end.
End Compatibility.

(** ** Security vulnerability checker ([src/checkers/security.ts]) *)

Record OsvSeverityEntry : Type := mkOsvSeverityEntry {
  sev_type : option string;
  sev_score : option string
}.

Record OsvEvent : Type := mkOsvEvent {
  introduced : option string;
  fixed : option string
}.

Record OsvAffectedRange : Type := mkOsvAffectedRange {
  range_type : option string;
  events : option (list OsvEvent)
}.

Record OsvAffected : Type := mkOsvAffected {
  ranges : option (list OsvAffectedRange)
}.

Record OsvReference : Type := mkOsvReference {
  ref_type : option string;
  ref_url : option string
}.

Record OsvVuln : Type := mkOsvVuln {
  osv_id : option string;
  osv_summary : option string;
  osv_severity : option (list OsvSeverityEntry);
  affected : option (list OsvAffected);
  references : option (list OsvReference)
}.

Record OsvResponse : Type := mkOsvResponse {
  vulns : option (list OsvVuln)
}.

(** A JavaScript number as [parseFloat] can answer it. *)
Inductive JsNumber : Type :=
| NaN
| Finite (q : Q)
| Infinity (negative : bool).

(** [num >= bound], for a finite [bound]. *)
Definition geq (num : JsNumber) (bound : Q) : bool :=
  match num with
  | NaN => false
  | Finite q => if Qlt_le_dec q bound then false else true
  | Infinity negative => negb negative
  end.

(** A string that is [undefined] or empty is falsy. *)
Definition truthy (s : option string) : option string :=
  match s with
  | Some s => if String.eqb s "" then None else Some s
  | None => None
  end.

(** What the world outside answers to the security checker. *)
Record SecurityWorld : Type := mkSecurityWorld {
  sio : Io;
  (** [fetch] of the OSV query for a package and version *)
  osv : string -> string -> result (Response OsvResponse)
}.

Section Security.
(** [parseFloat] *)
Variable parseFloat : string -> JsNumber.

Definition normalizeSeverity (sevEntries : option (list OsvSeverityEntry))
    : Severity :=
  match sevEntries with
  | None | Some [] => MODERATE
  | Some ((first :: _) as sevEntries) =>
      let cvss :=
        default first
          (List.find (fun s => bool_decide (sev_type s = Some "CVSS_V3"))
                     sevEntries) in
      match truthy (sev_score cvss) with
      | None => MODERATE
      | Some scoreStr =>
          let num := parseFloat scoreStr in
          match num with
          | NaN => MODERATE
          | _ =>
              if geq num 9 then CRITICAL
              else if geq num 7 then HIGH
              else if geq num 4 then MODERATE
              else LOW
          end
      end
  end.

Definition eventParts (event : OsvEvent) : list string :=
  (match truthy (introduced event) with
   | Some i => [">=" +:+ i] | None => [] end) ++
  (match truthy (fixed event) with
   | Some f => ["<" +:+ f] | None => [] end).

Definition extractAffectedVersions (affected : option (list OsvAffected))
    : string :=
  match affected with
  | None | Some [] => "unknown"
  | Some affected =>
      let parts :=
        entry ← affected;
        range ← default [] (ranges entry);
        event ← default [] (events range);
        eventParts event in
      if (0 <? length parts)%nat then join ", " parts else "unknown"
  end.

Definition pickUrl (refs : option (list OsvReference)) : string :=
  match refs with
  | None | Some [] => ""
  | Some ((first :: _) as refs) =>
      let advisory :=
        List.find (fun r => bool_decide (ref_type r = Some "ADVISORY")) refs in
      match advisory ≫= ref_url with
      | Some u => u
      | None => default "" (ref_url first)
      end
  end.

Definition toVulnerability (v : OsvVuln) : SecurityVulnerability :=
  {| id := default "UNKNOWN" (osv_id v);
     summary := default "No description available" (osv_summary v);
     severity := normalizeSeverity (osv_severity v);
     affectedVersions := extractAffectedVersions (affected v);
     url := pickUrl (references v) |}.

(** The body of the [try] block of [checkSecurity]. *)
Definition querySecurity (w : SecurityWorld)
    (store : gmap string (CacheEntry SecurityReport))
    (cacheKey packageName version : string) (emptyReport : SecurityReport)
    : result SecurityReport * gmap string (CacheEntry SecurityReport) :=
  match osv w packageName version with
  | Thrown e => (Thrown e, store)
  | Returned res =>
      if negb (ok res) then (Returned emptyReport, store)
      else
        match json res with
        | Thrown e => (Thrown e, store)
        | Returned data =>
            match vulns data with
            | None | Some [] =>
                match cache_set (sio w) store cacheKey emptyReport
                                SECURITY_CACHE_TTL_MS with
                | (Thrown e, store) => (Thrown e, store)
                | (Returned _, store) => (Returned emptyReport, store)
                end
            | Some vulns =>
                let vulnerabilities := toVulnerability <$> vulns in
                let hasCritical :=
                  existsb (has_severity CRITICAL) vulnerabilities in
                let report :=
                  {| sr_packageName := packageName;
                     vulnerabilities := vulnerabilities;
                     hasCritical := hasCritical |} in
                match cache_set (sio w) store cacheKey report
                                SECURITY_CACHE_TTL_MS with
                | (Thrown e, store) => (Thrown e, store)
                | (Returned _, store) => (Returned report, store)
                end
            end
        end
  end.

Definition checkSecurity (w : SecurityWorld)
    (store : gmap string (CacheEntry SecurityReport))
    (packageName version : string)
    : result SecurityReport * gmap string (CacheEntry SecurityReport) :=
  let cacheKey := "security:" +:+ packageName +:+ "@" +:+ version in
  match cache_get (sio w) store cacheKey with
  | (Thrown e, store) => (Thrown e, store)
  | (Returned (Some cached), store) => (Returned cached, store)
  | (Returned None, store) =>
      let emptyReport :=
        {| sr_packageName := packageName;
           vulnerabilities := [];
           hasCritical := false |} in
      match querySecurity w store cacheKey packageName version emptyReport with
      | (Thrown _, store) => (Returned emptyReport, store)
      | (Returned report, store) => (Returned report, store)
      end
  end.

(** A session: calls of [checkSecurity] one after the other on the cache
    directory the previous ones left, each in the world of its moment.
    The answers are collected in order. *)
Fixpoint securitySession
    (calls : list (SecurityWorld * string * string))
    (store : gmap string (CacheEntry SecurityReport))
    : list (result SecurityReport) :=
  match calls with
  | [] => []
  | (w, packageName, version) :: calls =>
      let '(answer, store) := checkSecurity w store packageName version in
      answer :: securitySession calls store
  end.
End Security.

(** ** The specification's wording, for comparison with the code *)

(** How many vulnerabilities of a list have a given severity. *)
Fixpoint severityCount (s : Severity) (vs : list SecurityVulnerability) : nat :=
  match vs with
  | [] => 0
  | v :: vs => ((if decide (severity v = s) then 1 else 0) + severityCount s vs)%nat
  end.

(** The security factor of a report with vulnerabilities, as the
    specification gives it:
    round(30 x (1 - min(1, (15 critical + 8 high + 3 moderate) / 30))). *)
Definition specSecurityScore (criticalCount highCount moderateCount : nat) : Z :=
  Math_round
    (30 * (1 - Qmin 1 (inject_nat (15 * criticalCount + 8 * highCount
                                   + 3 * moderateCount) / 30)))%Q.

(** A report with its low-severity vulnerabilities taken out. *)
Definition withoutLow (report : SecurityReport) : SecurityReport :=
  {| sr_packageName := sr_packageName report;
     vulnerabilities :=
       List.filter (fun v => negb (has_severity LOW v)) (vulnerabilities report);
     hasCritical := hasCritical report |}.

(** The action the thresholds give a total. *)
Definition actionOf (total : Z) : RiskAction :=
  if (75 <? total)%Z then ALLOW else if (40 <? total)%Z then WARN else BLOCK.

(** ** Sample inputs *)

(** A package with no peers to check. *)
Definition noPeersReport : CompatibilityReport :=
  {| packageName := "request"; checks := []; compatible := true |}.

(** A package with no known vulnerability. *)
Definition cleanSecurity : SecurityReport :=
  {| sr_packageName := "request"; vulnerabilities := []; hasCritical := false |}.

Definition criticalVulnerability : SecurityVulnerability :=
  {| id := "GHSA-0000"; summary := "remote code execution";
     severity := CRITICAL; affectedVersions := ">=0"; url := "" |}.

(** Two critical vulnerabilities: the security factor is 0. *)
Definition twoCriticals : SecurityReport :=
  {| sr_packageName := "request";
     vulnerabilities := [criticalVulnerability; criticalVulnerability];
     hasCritical := true |}.

(** Metadata of a package: deprecated or not, published [age] days before
    the instant 0, with the given maintainers and downloads. *)
Definition sampleInfo (deprecation : option string) (age : Z)
    (maintainers : nat) (downloads : Z) : PackageInfo :=
  {| pi_name := "request"; version := "2.88.2"; description := "";
     deprecated := deprecation;
     lastPublish := Some (- age * (1000 * 60 * 60 * 24));
     weeklyDownloads := downloads; maintainerCount := maintainers;
     license := "Apache-2.0"; peerDependencies := [];
     peerDependenciesMeta := ∅; homepage := ""; repository := "" |}.

(** Deprecated, but published yesterday, with five maintainers and a
    million weekly downloads. *)
Definition deprecatedButHealthy : PackageInfo :=
  sampleInfo (Some "use X instead") 1 5 1000000.

(** ** Reading a report *)

(** The part a check contributes to the combined command when it fails. *)
Definition fixPartOf (c : PeerCheck) : string := fixPart (name c) (required c).

(** The command a failing check gets for itself. *)
Definition individualFix (c : PeerCheck) : string :=
  "npm install " +:+ fixPartOf c.

(** The combined command of a list of checks: every failing peer with its
    required range, in order, joined by spaces. *)
Definition combinedFix (cs : list PeerCheck) : string :=
  "npm install " +:+ join " " (fixPartOf <$> List.filter isFailing cs).

(** The [optional] flag the loop reads for a peer. *)
Definition isOptionalPeer (meta : gmap string PeerMeta) (peerName : string)
    : bool :=
  match meta !! peerName with
  | Some m => bool_decide (optional m = Some true)
  | None => false
  end.



(** The cache has nothing to offer for a key: no entry, or an expired one. *)
Definition cacheMiss {T} (i : Io) (store : gmap string (CacheEntry T))
    (key : string) : Prop :=
  mkdirOk i = true /\
  match store !! key with
  | None => True
  | Some entry => ttl entry < now i - timestamp entry
  end.



(** A world in which nothing fails: the manifest of the project is found in
    its directory and reads as [manifest], the cache directory is usable, and
    the registry publishes [published] as version 1.0.0 of every package. *)
Definition quietIo : Io := {| now := 0; mkdirOk := true; writeOk := true; unlinkOk := true |}.

Definition projectDir : Path := ["home"; "app"].

Definition sampleWorld (manifest : UserPackageJson) (published : NpmVersionData)
    : World :=
  {| io := quietIo;
     fs_access := fun p => bool_decide (p = projectDir ++ ["package.json"]);
     readManifest := fun _ => Returned manifest;
     registry := fun _ =>
       Returned {| ok := true;
                   json := Returned
                     {| dist_tags_latest := Some "1.0.0";
                        versions := Some {[ "1.0.0" := published ]} |} |} |}.

Definition publishes (peers : list (string * string))
    (meta : gmap string PeerMeta) : NpmVersionData :=
  {| vd_peerDependencies := Some peers; vd_peerDependenciesMeta := Some meta |}.

Definition dependsOn (deps : gmap string string) : UserPackageJson :=
  {| dependencies := Some deps; devDependencies := None |}.

(** react is declared twice, with different ranges. *)
Definition collidingManifest : UserPackageJson :=
  {| dependencies := Some {[ "react" := "^17.0.2" ]};
     devDependencies := Some {[ "react" := "^18.0.0" ]} |}.

(** ** The loop over the peer requirements, as relations *)

Section Verdicts.
(** [semver.intersects] *)
Variable semver_intersects : string -> string -> result bool.

(** What one turn of the loop produces. *)
Inductive PeerVerdict (installedMap : gmap string string)
    (meta : gmap string PeerMeta) (peerName requiredRange : string)
    : PeerCheck -> list string -> Prop :=
| VerdictOptionalMissing :
    installedMap !! peerName = None -> inherited peerName = false ->
    isOptionalPeer meta peerName = true ->
    PeerVerdict installedMap meta peerName requiredRange
      (mkPeerCheck peerName requiredRange None OPTIONAL_MISSING None) []
| VerdictMissing :
    installedMap !! peerName = None -> inherited peerName = false ->
    isOptionalPeer meta peerName = false ->
    PeerVerdict installedMap meta peerName requiredRange
      (mkPeerCheck peerName requiredRange None MISSING
         (Some ("npm install " +:+ fixPart peerName requiredRange)))
      [fixPart peerName requiredRange]
| VerdictCompatible installedRange :
    installedMap !! peerName = Some installedRange ->
    semver_intersects installedRange requiredRange = Returned true ->
    PeerVerdict installedMap meta peerName requiredRange
      (mkPeerCheck peerName requiredRange (Some installedRange) COMPATIBLE None) []
| VerdictIncompatible installedRange :
    installedMap !! peerName = Some installedRange ->
    semver_intersects installedRange requiredRange = Returned false ->
    PeerVerdict installedMap meta peerName requiredRange
      (mkPeerCheck peerName requiredRange (Some installedRange) INCOMPATIBLE
         (Some ("npm install " +:+ fixPart peerName requiredRange)))
      [fixPart peerName requiredRange].

(** The loop as a relation between the entries and the checks. *)
Inductive PeerVerdicts (installedMap : gmap string string)
    (meta : gmap string PeerMeta)
    : list (string * string) -> list PeerCheck -> list string -> Prop :=
| VerdictsNil : PeerVerdicts installedMap meta [] [] []
| VerdictsCons peerName requiredRange entries c pushed cs parts :
    PeerVerdict installedMap meta peerName requiredRange c pushed ->
    PeerVerdicts installedMap meta entries cs parts ->
    PeerVerdicts installedMap meta ((peerName, requiredRange) :: entries)
                 (c :: cs) (pushed ++ parts).
End Verdicts.

(** A check with its command replaced, as the assignment to
    [firstFailing.fixCommand] leaves it. *)
Definition withFix (f : string) (c : PeerCheck) : PeerCheck :=
  {| name := name c; required := required c; installed := installed c;
     status := status c; fixCommand := Some f |}.

(** The checks of a report, from the checks the loop built. *)
Definition finalChecks (cs : list PeerCheck) : list PeerCheck :=
  if existsb isFailing cs then attachCombinedFix (combinedFix cs) cs else cs.

(** Whether comparing an entry of the peer requirements has to read
    something that is no range: the peer is installed, and its installed
    range or its required range does not parse; or the peer is not declared
    by the manifest but bears the name of a member of [Object.prototype],
    which is then read in place of its installed range. *)
Definition readsUnparseable (parse : string -> option Semver.Range)
    (installedMap : gmap string string) (entry : string * string) : Prop :=
  match installedMap !! entry.1 with
  | Some installedRange => parse installedRange = None \/ parse entry.2 = None
  | None => inherited entry.1 = true
  end.

(** What the check of an entry has to say when every string read parses. *)
Definition classifies (parse : string -> option Semver.Range)
    (installedMap : gmap string string) (meta : gmap string PeerMeta)
    (entry : string * string) (c : PeerCheck) : Prop :=
  name c = entry.1 /\ required c = entry.2 /\ installed c = installedMap !! entry.1 /\
  match installedMap !! entry.1 with
  | Some installedRange =>
      exists r1 r2,
        parse installedRange = Some r1 /\ parse entry.2 = Some r2 /\
        status c = if Semver.Range_intersects r1 r2 then COMPATIBLE
                   else INCOMPATIBLE
  | None =>
      status c = if isOptionalPeer meta entry.1 then OPTIONAL_MISSING
                 else MISSING
  end.

(** The project pins react to a dist-tag instead of a range. *)
Definition latestManifest : UserPackageJson :=
  dependsOn {[ "react" := "latest" ]}.

(** A package that wants react 18 and vue 3 as peers. *)
Definition wantsReactAndVue : NpmVersionData :=
  publishes [("react", "^18.0.0"); ("vue", "^3.0.0")] ∅.

(** A package that wants the package named constructor as a peer. *)
Definition wantsConstructor : NpmVersionData :=
  publishes [("constructor", "^1.0.0")] ∅.



(** ** Reading a security report *)

(** The flag of a report agrees with its list. *)
Definition flagMatchesList (report : SecurityReport) : Prop :=
  hasCritical report = true <->
  Exists (fun v => severity v = CRITICAL) (vulnerabilities report).

(** Every report the cache directory holds has a flag that agrees with its
    list. *)
Definition storeMatches (store : gmap string (CacheEntry SecurityReport))
    : Prop :=
  forall key entry, store !! key = Some entry -> flagMatchesList (data entry).

(** The OSV query cannot be had: the request fails or is answered with an
    error status. *)
Inductive OsvFails (w : SecurityWorld) (packageName version : string) : Prop :=
| OsvNetworkFailure e :
    osv w packageName version = Thrown e -> OsvFails w packageName version
| OsvErrorStatus res :
    osv w packageName version = Returned res -> ok res = false ->
    OsvFails w packageName version.

(** [parseFloat] on the two score strings of the samples, [NaN] elsewhere
    (as on a CVSS vector string). *)
Definition sampleParseFloat (s : string) : JsNumber :=
  if String.eqb s "9.8" then Finite (98 # 10)
  else if String.eqb s "5.3" then Finite (53 # 10)
  else NaN.

Definition osvAnswers (found : list OsvVuln) : SecurityWorld :=
  {| sio := quietIo;
     osv := fun _ _ =>
       Returned {| ok := true; json := Returned {| vulns := Some found |} |} |}.

Definition osvDown : SecurityWorld :=
  {| sio := quietIo; osv := fun _ _ => Thrown (SystemError "ECONNREFUSED") |}.

Definition scoredVuln (ident score : string) : OsvVuln :=
  {| osv_id := Some ident; osv_summary := None;
     osv_severity := Some [ {| sev_type := Some "CVSS_V3";
                               sev_score := Some score |} ];
     affected := None; references := None |}.

(** ** Scenarios *)

Definition manifestPath : Path := projectDir ++ ["package.json"].

(** What [fetchPeerDependencies] makes of a published version. *)
Definition peersOf (published : NpmVersionData) : CachedPeers :=
  {| peers := default [] (vd_peerDependencies published);
     meta := default ∅ (vd_peerDependenciesMeta published);
     resolvedVersion := "1.0.0" |}.

(** The cache directory after the peers of a package were fetched in
    [sampleWorld], from an empty directory. *)
Definition cacheAfterFetch (packageName : string) (published : NpmVersionData)
    : gmap string (CacheEntry CachedPeers) :=
  {[ "peers:" +:+ packageName :=
       {| data := peersOf published; timestamp := 0; ttl := DEFAULT_TTL_MS |} ]}.

(** Scenario A of the specification: react ^17.0.2 is installed, the target
    requires react ^18.0.0. *)
Definition scenarioA : World :=
  sampleWorld (dependsOn {[ "react" := "^17.0.2" ]})
              (publishes [("react", "^18.0.0")] ∅).

Definition scenarioAReport : CompatibilityReport :=
  {| packageName := "some-pkg";
     checks := [ {| name := "react"; required := "^18.0.0";
                    installed := Some "^17.0.2"; status := INCOMPATIBLE;
                    fixCommand :=
                      Some ("npm install react@" +:+ dquote +:+ "^18.0.0"
                            +:+ dquote) |} ];
     compatible := false |}.

(** A target with five peer requirements (react twice, as an object with
    duplicate keys cannot have, but a list can) against a project that has
    react 17 only; types is optional. *)
Definition manyPeers : World :=
  sampleWorld (dependsOn {[ "react" := "^17.0.2" ]})
              (publishes [("left-pad", "*"); ("react", "^18.0.0");
                          ("vue", "^3.0.0"); ("types", "1.x")]
                         {[ "types" := {| optional := Some true |} ]}).

Definition quoted (range : string) : string := dquote +:+ range +:+ dquote.

Definition manyPeersReport : CompatibilityReport :=
  {| packageName := "some-pkg";
     checks :=
       [ {| name := "left-pad"; required := "*"; installed := None;
            status := MISSING;
            fixCommand :=
              Some ("npm install left-pad@" +:+ quoted "*"
                    +:+ " react@" +:+ quoted "^18.0.0"
                    +:+ " vue@" +:+ quoted "^3.0.0") |};
         {| name := "react"; required := "^18.0.0";
            installed := Some "^17.0.2"; status := INCOMPATIBLE;
            fixCommand := Some ("npm install react@" +:+ quoted "^18.0.0") |};
         {| name := "vue"; required := "^3.0.0"; installed := None;
            status := MISSING;
            fixCommand := Some ("npm install vue@" +:+ quoted "^3.0.0") |};
         {| name := "types"; required := "1.x"; installed := None;
            status := OPTIONAL_MISSING; fixCommand := None |} ];
     compatible := false |}.


(** ** Further reading of reports *)

(** How many checks of a report fail. *)
Definition failingCount (report : CompatibilityReport) : nat :=
  count_where isFailing (checks report).

(** A report with some more vulnerabilities. *)
Definition withMore (report : SecurityReport)
    (more : list SecurityVulnerability) : SecurityReport :=
  {| sr_packageName := sr_packageName report;
     vulnerabilities := vulnerabilities report ++ more;
     hasCritical := hasCritical report
                    || existsb (has_severity CRITICAL) more |}.

(** A check with nothing but its peer and status. *)
Definition checkOf (peerName : string) (s : PeerStatus) : PeerCheck :=
  {| name := peerName; required := "*"; installed := None; status := s;
     fixCommand := None |}.

(** Four checks of which one fails, and four of which all fail. *)
Definition oneOfFourFails : CompatibilityReport :=
  {| packageName := "some-pkg";
     checks := [checkOf "a" COMPATIBLE; checkOf "b" INCOMPATIBLE;
                checkOf "c" COMPATIBLE; checkOf "d" OPTIONAL_MISSING];
     compatible := false |}.

Definition allFourFail : CompatibilityReport :=
  {| packageName := "some-pkg";
     checks := [checkOf "a" MISSING; checkOf "b" INCOMPATIBLE;
                checkOf "c" MISSING; checkOf "d" INCOMPATIBLE];
     compatible := false |}.

(** A report of [total] checks, of which the first [failing] are MISSING
    and the others COMPATIBLE. *)
Definition failingOf (failing total : nat) : CompatibilityReport :=
  {| packageName := "some-pkg";
     checks := replicate failing (checkOf "p" MISSING)
               ++ replicate (total - failing) (checkOf "p" COMPATIBLE);
     compatible := (failing =? 0)%nat |}.

(** One vulnerability of a given severity. *)
Definition vulnerabilityOf (s : Severity) : SecurityVulnerability :=
  {| id := "GHSA-0000"; summary := ""; severity := s;
     affectedVersions := "unknown"; url := "" |}.

(** The order of the actions, from the most to the least permissive. *)
Definition actionRank (a : RiskAction) : nat :=
  match a with ALLOW => 0 | WARN => 1 | BLOCK => 2 end.

(** The three deductions of the maintenance factor. *)
Definition stalenessPoints (now : Z) (info : PackageInfo) : Z :=
  match lastPublish info with
  | Some published =>
      let daysSince := (now - published) / (1000 * 60 * 60 * 24) in
      if (730 <? daysSince)%Z then 10
      else if (365 <? daysSince)%Z then 5 else 0
  | None => 0
  end.

Definition maintainerPoints (info : PackageInfo) : Z :=
  if (maintainerCount info =? 0)%nat then 5
  else if (maintainerCount info =? 1)%nat then 2 else 0.

Definition downloadPoints (info : PackageInfo) : Z :=
  if (weeklyDownloads info <? 100)%Z then 3 else 0.

(** What a vulnerability of a given severity takes off the security
    factor, before the floor at 0. *)
Definition severityPoints (s : Severity) : Z :=
  match s with CRITICAL => 15 | HIGH => 8 | MODERATE => 3 | LOW => 0 end.

(** Whether a severity entry is a CVSS version 3 entry. *)
Definition isCvss3 (s : OsvSeverityEntry) : bool :=
  bool_decide (sev_type s = Some "CVSS_V3").

(** A score that decides nothing: absent, empty, or not a number. *)
Definition undecidable (parseFloat : string -> JsNumber)
    (s : OsvSeverityEntry) : Prop :=
  match truthy (sev_score s) with
  | Some scoreStr => parseFloat scoreStr = NaN
  | None => True
  end.

(** The report [checkSecurity] builds from the vulnerabilities OSV lists. *)
Definition reportOf (parseFloat : string -> JsNumber) (packageName : string)
    (found : list OsvVuln) : SecurityReport :=
  {| sr_packageName := packageName;
     vulnerabilities := toVulnerability parseFloat <$> found;
     hasCritical := existsb (has_severity CRITICAL)
                            (toVulnerability parseFloat <$> found) |}.

(** The report without vulnerabilities. *)
Definition emptyReportOf (packageName : string) : SecurityReport :=
  {| sr_packageName := packageName; vulnerabilities := [];
     hasCritical := false |}.

(** The cache key of a security report. *)
Definition securityKey (packageName version : string) : string :=
  "security:" +:+ packageName +:+ "@" +:+ version.

(** OSV answers the query with a list of vulnerabilities. *)
Definition osvLists (w : SecurityWorld) (packageName version : string)
    (found : list OsvVuln) : Prop :=
  exists res,
    osv w packageName version = Returned res /\ ok res = true /\
    json res = Returned {| vulns := Some found |}.

(** A severity entry with a type and a score. *)
Definition severityEntry (type score : string) : OsvSeverityEntry :=
  {| sev_type := Some type; sev_score := Some score |}.

(** A world like [osvAnswers], at a given instant and with a cache
    directory that can or cannot be written. *)
Definition osvAnswersAt (instant : Z) (writable : bool)
    (found : list OsvVuln) : SecurityWorld :=
  {| sio := {| now := instant; mkdirOk := true; writeOk := writable; unlinkOk := true |};
     osv := fun _ _ =>
       Returned {| ok := true; json := Returned {| vulns := Some found |} |} |}.

(** OSV is down, at a given instant; cache files can or cannot be
    removed. *)
Definition osvDownAt (instant : Z) (removable : bool) : SecurityWorld :=
  {| sio := {| now := instant; mkdirOk := true; writeOk := true;
               unlinkOk := removable |};
     osv := fun _ _ => Thrown (SystemError "ECONNREFUSED") |}.

(** The manifest of a directory. *)
Definition manifestIn (dir : Path) : Path := dir ++ ["package.json"].

(** The peer requirements [fetchPeerDependencies] makes of the entry of the
    latest version. *)
Definition cachedPeersOf (latestTag : string) (versionData : NpmVersionData)
    : CachedPeers :=
  {| peers := default [] (vd_peerDependencies versionData);
     meta := default ∅ (vd_peerDependenciesMeta versionData);
     resolvedVersion := latestTag |}.

(** The registry answers with a document whose latest version is
    [latestTag], with entry [versionData]. *)
Definition registryPublishes (w : World) (packageName latestTag : string)
    (versionData : NpmVersionData) : Prop :=
  exists res data published,
    registry w packageName = Returned res /\ ok res = true /\
    json res = Returned data /\
    dist_tags_latest data = Some latestTag /\ latestTag <> "" /\
    versions data = Some published /\
    published !! latestTag = Some versionData.

(** The cache key of the peer requirements of a package. *)
Definition peersKey (packageName : string) : string := "peers:" +:+ packageName.

(** The report with nothing to check. *)
Definition nothingChecked (packageName : string) : CompatibilityReport :=
  {| packageName := packageName; checks := []; compatible := true |}.

(** A world like [sampleWorld], at a given instant, with a cache directory
    that can or cannot be written and a registry that is up or down. *)
Definition sampleWorldAt (instant : Z) (writable registryUp : bool)
    (manifest : UserPackageJson) (published : NpmVersionData) : World :=
  {| io := {| now := instant; mkdirOk := true; writeOk := writable; unlinkOk := true |};
     fs_access := fun p => bool_decide (p = projectDir ++ ["package.json"]);
     readManifest := fun _ => Returned manifest;
     registry := fun name =>
       if registryUp then registry (sampleWorld manifest published) name
       else Thrown (SystemError "ENOTFOUND") |}.

(** An oracle for [semver.intersects] that throws on every call. *)
Definition alwaysThrows (r1 r2 : string) : result bool :=
  Thrown (TypeError r1).

(** Reading [installed[peerName]] finds nothing: the manifest does not
    declare the peer and its name is not that of an inherited member. *)
Definition notInstalled (installedMap : gmap string string)
    (entry : string * string) : Prop :=
  installedMap !! entry.1 = None /\ inherited entry.1 = false.

(** The check of a peer that is not installed. *)
Definition absentCheck (meta : gmap string PeerMeta) (entry : string * string)
    : PeerCheck :=
  if isOptionalPeer meta entry.1
  then mkPeerCheck entry.1 entry.2 None OPTIONAL_MISSING None
  else mkPeerCheck entry.1 entry.2 None MISSING
         (Some ("npm install " +:+ fixPart entry.1 entry.2)).


(** ** npm registry info checker ([src/checkers/npm.ts]) *)

Record NpmVersionPayload : Type := mkNpmVersionPayload {
  vp_deprecated : option string;
  vp_peerDependencies : option (list (string * string));
  vp_peerDependenciesMeta : option (gmap string (option bool))
}.

(** [license?: string | { type?: string }] *)
Inductive RawLicense : Type :=
| LicenseString (s : string)
| LicenseObject (type : option string).

(** [repository?: string | { url?: string }] *)
Inductive RawRepository : Type :=
| RepositoryString (s : string)
| RepositoryObject (url : option string).

Record NpmRegistryFull : Type := mkNpmRegistryFull {
  reg_name : option string;
  reg_description : option string;
  (** [reg['dist-tags']?.latest] *)
  reg_latest : option string;
  reg_time : option (gmap string string);
  reg_license : option RawLicense;
  reg_homepage : option string;
  reg_repository : option RawRepository;
  reg_maintainers : option (list (option string));
  reg_versions : option (gmap string NpmVersionPayload)
}.

Record NpmDownloadsResponse : Type := mkNpmDownloadsResponse {
  dl_downloads : option Z
}.

(** What the world outside answers to the registry info checker. *)
Record NpmWorld : Type := mkNpmWorld {
  nio : Io;
  (** [fetch] of the full registry document of a package *)
  packument : string -> result (Response NpmRegistryFull);
  (** [fetch] of the downloads of the last week *)
  downloadsApi : string -> result (Response NpmDownloadsResponse)
}.

(** What is left of [s] after [prefix], if [s] starts with it. *)
Fixpoint afterPrefix (prefix s : string) : option string :=
  match prefix, s with
  | EmptyString, _ => Some s
  | String a prefix, String b s =>
      if Ascii.eqb a b then afterPrefix prefix s else None
  | String _ _, EmptyString => None
  end.

(** [s.replace(/^prefix/, '')], for a literal prefix. *)
Definition removePrefix (prefix s : string) : string :=
  default s (afterPrefix prefix s).

(** [s.replace(/suffix$/, '')], for a literal suffix. *)
Fixpoint removeSuffix (suffix s : string) : string :=
  if String.eqb s suffix then ""
  else
    match s with
    | EmptyString => EmptyString
    | String c rest => String c (removeSuffix suffix rest)
    end.

(** [typeof rawLicense === 'string' ? rawLicense
     : rawLicense?.type ?? 'unknown'] *)
Definition licenseOf (rawLicense : option RawLicense) : string :=
  match rawLicense with
  | Some (LicenseString s) => s
  | Some (LicenseObject type) => default "unknown" type
  | None => "unknown"
  end.

(** [typeof rawRepo === 'string' ? rawRepo
     : rawRepo?.url?.replace(/^git\+/, '').replace(/\.git$/, '') ?? ''] *)
Definition repositoryOf (rawRepo : option RawRepository) : string :=
  match rawRepo with
  | Some (RepositoryString s) => s
  | Some (RepositoryObject (Some url)) =>
      removeSuffix ".git" (removePrefix "git+" url)
  | Some (RepositoryObject None) | None => ""
  end.

(** The second [try] block of [getPackageInfo]: the downloads of the last
    week, 0 when the service does not give them. *)
Definition weeklyDownloadsOf (w : NpmWorld) (packageName : string) : Z :=
  try_catch
    (let* dlRes := downloadsApi w packageName in
     if ok dlRes then
       let* dlData := json dlRes in
       Returned (default 0 (dl_downloads dlData))
     else Returned 0)
    0.

Section Npm.
(** [new Date(s).getTime()]; [None] when it is [NaN]. *)
Variable parseDate : string -> option Z.

(** The metadata [getPackageInfo] makes of a registry document. *)
Definition infoOf (w : NpmWorld) (packageName : string)
    (reg : NpmRegistryFull) : PackageInfo :=
  let latestVersion := default "0.0.0" (reg_latest reg) in
  (* an inherited member read in place of the entry of the version has none
     of the three fields that are read from it *)
  let versionData := reg_versions reg ≫= (.!! latestVersion) in
  let weeklyDownloads := weeklyDownloadsOf w packageName in
  let deprecated := versionData ≫= vp_deprecated in
  let lastPublish :=
    match reg_time reg with
    | Some time =>
        match time !! latestVersion with
        | Some published => parseDate published
        | None =>
            if inherited latestVersion then
              (* the inherited member is kept; it is no date *)
              None
            else parseDate (default "unknown" (time !! "modified"))
        end
    | None => parseDate "unknown"
    end in
  {| pi_name := default packageName (reg_name reg);
     version := latestVersion;
     description := default "" (reg_description reg);
     deprecated := deprecated;
     lastPublish := lastPublish;
     weeklyDownloads := weeklyDownloads;
     maintainerCount := default 0%nat (length <$> reg_maintainers reg);
     license := licenseOf (reg_license reg);
     peerDependencies := default [] (versionData ≫= vp_peerDependencies);
     peerDependenciesMeta := default ∅ (versionData ≫= vp_peerDependenciesMeta);
     homepage := default "" (reg_homepage reg);
     repository := repositoryOf (reg_repository reg) |}.

(** The body of the outer [try] block of [getPackageInfo]. *)
Definition fetchInfoUncached (w : NpmWorld)
    (store : gmap string (CacheEntry PackageInfo))
    (cacheKey packageName : string)
    : result (option PackageInfo) * gmap string (CacheEntry PackageInfo) :=
  match packument w packageName with
  | Thrown e => (Thrown e, store)
  | Returned regRes =>
      if negb (ok regRes) then (Returned None, store)
      else
        match json regRes with
        | Thrown e => (Thrown e, store)
        | Returned reg =>
            let info := infoOf w packageName reg in
            match cache_set (nio w) store cacheKey info DEFAULT_TTL_MS with
            | (Thrown e, store) => (Thrown e, store)
            | (Returned _, store) => (Returned (Some info), store)
            end
        end
  end.

Definition getPackageInfo (w : NpmWorld)
    (store : gmap string (CacheEntry PackageInfo)) (packageName : string)
    : result (option PackageInfo) * gmap string (CacheEntry PackageInfo) :=
  let cacheKey := "npminfo:" +:+ packageName in
  match cache_get (nio w) store cacheKey with
  | (Thrown e, store) => (Thrown e, store)
  | (Returned (Some cached), store) => (Returned (Some cached), store)
  | (Returned None, store) =>
      match fetchInfoUncached w store cacheKey packageName with
      | (Thrown _, store) => (Returned None, store)
      | (Returned r, store) => (Returned r, store)
      end
  end.

(** [isDeprecated]: the flag and the message. *)
Definition isDeprecated (w : NpmWorld)
    (store : gmap string (CacheEntry PackageInfo)) (packageName : string)
    : result (bool * string) * gmap string (CacheEntry PackageInfo) :=
  match getPackageInfo w store packageName with
  | (Thrown e, store) => (Thrown e, store)
  | (Returned None, store) => (Returned (false, ""), store)
  | (Returned (Some info), store) =>
      (Returned (bool_decide (deprecated info <> None),
                 default "" (deprecated info)), store)
  end.
End Npm.

(** ** Orchestrator ([src/validator.ts]) *)

Record ValidationResult : Type := mkValidationResult {
  vr_packageName : string;
  vr_compatibility : CompatibilityReport;
  vr_packageInfo : option PackageInfo;
  vr_security : SecurityReport;
  riskScore : RiskScore;
  vr_action : RiskAction
}.

(** The cache directory, as its three users see it. *)
Record Caches : Type := mkCaches {
  peersCache : gmap string (CacheEntry CachedPeers);
  infoCache : gmap string (CacheEntry PackageInfo);
  securityCache : gmap string (CacheEntry SecurityReport)
}.

(** What the world outside answers during one validation: to each of the
    three checkers at its moment, which of the two concurrent checks is the
    first to reject when both do, and the clock when the score is
    calculated. *)
Record Services : Type := mkServices {
  project : World;
  npm : NpmWorld;
  advisories : SecurityWorld;
  compatibilityRejectsFirst : bool;
  scoredAt : Z
}.

(** [await Promise.all([a, b])]: both values, or the reason of the first
    promise to reject. *)
Definition Promise_all {A B} (firstRejectsFirst : bool)
    (a : result A) (b : result B) : result (A * B) :=
  match a, b with
  | Returned x, Returned y => Returned (x, y)
  | Thrown e, Returned _ => Thrown e
  | Returned _, Thrown e => Thrown e
  | Thrown ea, Thrown eb => Thrown (if firstRejectsFirst then ea else eb)
  end.

Section Validator.
Variable semver_intersects : string -> string -> result bool.
Variable parseFloat : string -> JsNumber.
Variable parseDate : string -> option Z.

(** The result, with the cache directory the three checkers leave when the
    validation resolves. *)
Definition validatePackage (s : Services) (c : Caches)
    (packageName : string) (projectPath : Path)
    : result (ValidationResult * Caches) :=
  let '(compatibility, peersCache) :=
    checkCompatibility semver_intersects (project s) (peersCache c)
                       packageName projectPath in
  let '(packageInfo, infoCache) :=
    getPackageInfo parseDate (npm s) (infoCache c) packageName in
  let* both :=
    Promise_all (compatibilityRejectsFirst s) compatibility packageInfo in
  let '(compatibility, packageInfo) := both in
  let version := default "latest" (version <$> packageInfo) in
  let '(security, securityCache) :=
    checkSecurity parseFloat (advisories s) (securityCache c)
                  packageName version in
  let* security := security in
  let riskScore :=
    calculateRiskScore (scoredAt s) compatibility security packageInfo in
  Returned ({| vr_packageName := packageName;
               vr_compatibility := compatibility;
               vr_packageInfo := packageInfo;
               vr_security := security;
               riskScore := riskScore;
               vr_action := action riskScore |},
            {| peersCache := peersCache;
               infoCache := infoCache;
               securityCache := securityCache |}).

(** The exit status of [dependency-guard check <package>]: 1 when the
    validation rejects, 1 when the verdict is BLOCK and [--dry-run] is not
    given, and 0, the status of a process that ends on its own, otherwise. *)
Definition checkCommand (s : Services) (c : Caches)
    (pkg : string) (projectPath : Path) (dryRun : bool) : Z :=
  match validatePackage s c pkg projectPath with
  | Thrown _ => 1
  | Returned (result, _) =>
      if negb dryRun && bool_decide (vr_action result = BLOCK) then 1 else 0
  end.
End Validator.

(** ** Sample services *)

(** A registry document of a package whose latest version is 2.0.0. *)
Definition samplePackument (payload : NpmVersionPayload)
    (repo : option RawRepository) : NpmRegistryFull :=
  {| reg_name := Some "some-pkg";
     reg_description := None;
     reg_latest := Some "2.0.0";
     reg_time := Some {[ "2.0.0" := "2024-01-01T00:00:00.000Z" ]};
     reg_license := Some (LicenseString "MIT");
     reg_homepage := None;
     reg_repository := repo;
     reg_maintainers := Some [Some "a"; Some "b"];
     reg_versions := Some {[ "2.0.0" := payload ]} |}.

Definition plainPayload : NpmVersionPayload :=
  {| vp_deprecated := None; vp_peerDependencies := None;
     vp_peerDependenciesMeta := None |}.

(** The registry answers with [samplePackument]; the downloads service
    answers as given. *)
Definition npmAnswers (writable : bool) (reg : NpmRegistryFull)
    (downloads : result (Response NpmDownloadsResponse)) : NpmWorld :=
  {| nio := {| now := 0; mkdirOk := true; writeOk := writable; unlinkOk := true |};
     packument := fun _ => Returned {| ok := true; json := Returned reg |};
     downloadsApi := fun _ => downloads |}.

(** The registry cannot be reached. *)
Definition npmDown (mkdir : bool) : NpmWorld :=
  {| nio := {| now := 0; mkdirOk := mkdir; writeOk := true; unlinkOk := true |};
     packument := fun _ => Thrown (SystemError "ENOTFOUND");
     downloadsApi := fun _ => Thrown (SystemError "ENOTFOUND") |}.

(** A date parser that knows one date. *)
Definition sampleParseDate (s : string) : option Z :=
  if String.eqb s "2024-01-01T00:00:00.000Z" then Some 1704067200000
  else None.

(** No service can be reached; the project has a manifest. *)
Definition allDown (manifest : UserPackageJson) : Services :=
  {| project := sampleWorldAt 0 true false manifest (publishes [] ∅);
     npm := npmDown true;
     advisories := osvDown;
     compatibilityRejectsFirst := true;
     scoredAt := 0 |}.

Definition noCaches : Caches :=
  {| peersCache := ∅; infoCache := ∅; securityCache := ∅ |}.

(** The registry answers the request for the full document of a package
    with [reg]. *)
Definition packumentGives (w : NpmWorld) (packageName : string)
    (reg : NpmRegistryFull) : Prop :=
  exists regRes,
    packument w packageName = Returned regRes /\ ok regRes = true /\
    json regRes = Returned reg.

(** The downloads of a package cannot be had: the request fails or is
    answered with an error status. *)
Definition downloadsFail (w : NpmWorld) (packageName : string) : Prop :=
  forall res, downloadsApi w packageName = Returned res -> ok res = false.

(** The cache key of the metadata of a package. *)
Definition infoKey (packageName : string) : string :=
  "npminfo:" +:+ packageName.

(** No service answers a request about a package. *)
Definition unreachable (s : Services) (packageName : string) : Prop :=
  (exists e, registry (project s) packageName = Thrown e)
  /\ (exists e, packument (npm s) packageName = Thrown e)
  /\ (forall version, exists e,
        osv (advisories s) packageName version = Thrown e).

(** The cache directory can be created whenever a checker asks. *)
Definition cacheDirUsable (s : Services) : Prop :=
  mkdirOk (io (project s)) = true /\ mkdirOk (nio (npm s)) = true
  /\ mkdirOk (sio (advisories s)) = true.

(** The manifest of the project, if there is one, can be read and parsed. *)
Definition manifestReadable (w : World) (projectPath : Path) : Prop :=
  match findPackageJson w projectPath 3 with
  | Some pkgJsonPath => exists pkg, readManifest w pkgJsonPath = Returned pkg
  | None => True
  end.

(** The cache holds nothing about a package. *)
Definition nothingCached (c : Caches) (packageName : string) : Prop :=
  peersCache c !! peersKey packageName = None
  /\ infoCache c !! infoKey packageName = None
  /\ forall version,
       securityCache c !! securityKey packageName version = None.

(** * Properties *)

(** ** Double arithmetic: rounding to the nearest double is monotone *)

Lemma rne_between (x : Q) : Qfloor x <= rne x <= Qfloor x + 1.
Proof.
  unfold rne. destruct (_ ?= _)%Q; [destruct (Z.even _)| |]; lia.
Qed.

Lemma rne_mono (x y : Q) : (x <= y)%Q -> rne x <= rne y.
Proof.
  intros Hxy. pose proof (Qfloor_resp_le _ _ Hxy) as Hf.
  pose proof (rne_between x) as Hx. pose proof (rne_between y) as Hy.
  destruct (Z.eq_dec (Qfloor x) (Qfloor y)) as [Heq|Hne]; [|lia].
  unfold rne. rewrite <- Heq.
  destruct (Qcompare_spec (x - inject_Z (Qfloor x)) (1 # 2)) as [Hx2|Hx2|Hx2];
    destruct (Qcompare_spec (y - inject_Z (Qfloor x)) (1 # 2)) as [Hy2|Hy2|Hy2];
    try destruct (Z.even (Qfloor x)); try lia; exfalso; lra.
Qed.

Lemma rne_Z (z : Z) : rne (inject_Z z) = z.
Proof.
  unfold rne. rewrite Qfloor_Z.
  destruct (Qcompare_spec (inject_Z z - inject_Z z) (1 # 2)) as [H|H|H];
    [exfalso; lra | done | exfalso; lra].
Qed.

Lemma pow2_pos (k : Z) : (0 < 2 ^ k)%Q.
Proof. by apply Qpower_0_lt. Qed.

Lemma pow2_plus (a b : Z) : (2 ^ (a + b) == 2 ^ a * 2 ^ b)%Q.
Proof. by apply Qpower_plus. Qed.

Lemma pow2_succ (a : Z) : (2 ^ (a + 1) == 2 * 2 ^ a)%Q.
Proof. rewrite pow2_plus. change (2 ^ 1)%Q with 2%Q. ring. Qed.

Lemma pow2_le (a b : Z) : a <= b -> (2 ^ a <= 2 ^ b)%Q.
Proof. intros H. by apply Qpower_le_compat_l. Qed.

Lemma pow2_Z (k : Z) : 0 <= k -> (2 ^ k == inject_Z (2 ^ k))%Q.
Proof. intros H. by rewrite Zpower_Qpower. Qed.

Lemma log2_bounds (n : Z) :
  0 < n -> (2 ^ Z.log2 n <= inject_Z n)%Q /\ (inject_Z n < 2 * 2 ^ Z.log2 n)%Q.
Proof.
  intros Hn. pose proof (Z.log2_spec n Hn) as [Hlo Hhi].
  pose proof (Z.log2_nonneg n) as Hnn.
  rewrite <- pow2_succ. rewrite !pow2_Z by lia. rewrite <- Zle_Qle, <- Zlt_Qlt.
  unfold Z.succ in Hhi. done.
Qed.

Lemma binade_spec (x : Q) :
  (0 < x)%Q -> (2 ^ binade x <= x)%Q /\ (x < 2 ^ (binade x + 1))%Q.
Proof.
  intros Hx. destruct x as [n d]. 
  assert (0 < n) as Hn by (unfold Qlt in Hx; simpl in Hx; lia).
  unfold binade. cbn [Qnum Qden].
  destruct (log2_bounds n Hn) as [Ha1 Ha2].
  destruct (log2_bounds (Zpos d) eq_refl) as [Hb1 Hb2].
  set (a := Z.log2 n) in *. set (b := Z.log2 (Zpos d)) in *.
  pose proof (pow2_pos a) as HA. pose proof (pow2_pos b) as HB.
  assert (2 ^ (a - b) == 2 ^ a / 2 ^ b)%Q as Hab by (by apply Qpower_minus).
  assert (n # d == inject_Z n / inject_Z (Zpos d))%Q as Hx' by apply Qmake_Qdiv.
  assert (0 < inject_Z (Zpos d))%Q as HD by (change 0%Q with (inject_Z 0); by rewrite <- Zlt_Qlt).
  destruct (Qle_bool (2 ^ (a - b)) (n # d)) eqn:Hle.
  - apply Qle_bool_iff in Hle. split; [done|].
    rewrite pow2_succ, Hab, Hx'.
    apply Qlt_shift_div_r; [done|].
    assert ((2 * (2 ^ a / 2 ^ b) * inject_Z (Z.pos d))%Q == (2 * 2 ^ a * (inject_Z (Z.pos d) / 2 ^ b))%Q)%Q as ->
      by (field; lra).
    assert (1 <= inject_Z (Z.pos d) / 2 ^ b)%Q as H1.
    { apply Qle_shift_div_l; [done|]. lra. }
    nra.
  - assert (n # d < 2 ^ (a - b))%Q as Hlt.
    { apply Qnot_le_lt. intros H. apply Qle_bool_iff in H. congruence. }
    split.
    + assert (2 ^ (a - b) == 2 * 2 ^ (a - b - 1))%Q as Hs.
      { rewrite <- pow2_succ. by replace (a - b - 1 + 1) with (a - b) by lia. }
      assert (2 ^ (a - b - 1) == 2 ^ a / (2 * 2 ^ b))%Q as ->.
      { assert (2 ^ a / (2 * 2 ^ b) == (2 ^ a / 2 ^ b) * (1 # 2))%Q as ->
          by (field; lra).
        rewrite <- Hab, Hs. field. }
      rewrite Hx'. apply Qle_shift_div_l; [done|].
      assert ((2 ^ a / (2 * 2 ^ b) * inject_Z (Z.pos d))%Q == (2 ^ a * (inject_Z (Z.pos d) / (2 * 2 ^ b)))%Q)%Q as ->
      by (field; lra).
      assert (inject_Z (Z.pos d) / (2 * 2 ^ b) <= 1)%Q as H1.
      { apply Qle_shift_div_r; [lra|]. lra. }
      nra.
    + by replace (a - b - 1 + 1) with (a - b) by lia.
Qed.

Lemma binade_mono (x y : Q) : (0 < x)%Q -> (x <= y)%Q -> binade x <= binade y.
Proof.
  intros Hx Hxy. assert (0 < y)%Q as Hy by lra.
  destruct (binade_spec x Hx) as [Hx1 _]. destruct (binade_spec y Hy) as [_ Hy2].
  destruct (Z.le_gt_cases (binade x) (binade y)) as [|Hgt]; [done|exfalso].
  pose proof (pow2_le (binade y + 1) (binade x) ltac:(lia)). lra.
Qed.

Lemma scaled_le (x : Q) (s k : Z) :
  s <= k -> (x <= 2 ^ k)%Q -> (inject_Z (rne (x / 2 ^ s)) * 2 ^ s <= 2 ^ k)%Q.
Proof.
  intros Hsk Hx. pose proof (pow2_pos s) as Hs.
  assert (2 ^ k == inject_Z (2 ^ (k - s)) * 2 ^ s)%Q as ->.
  { rewrite <- pow2_Z by lia. rewrite <- pow2_plus. by replace (k - s + s) with k by lia. }
  apply Qmult_le_compat_r; [|lra]. rewrite <- Zle_Qle.
  rewrite <- (rne_Z (2 ^ (k - s))). apply rne_mono.
  apply Qle_shift_div_r; [done|].
  rewrite <- pow2_Z by lia. rewrite <- pow2_plus. by replace (k - s + s) with k by lia.
Qed.

Lemma scaled_ge (x : Q) (s k : Z) :
  s <= k -> (2 ^ k <= x)%Q -> (2 ^ k <= inject_Z (rne (x / 2 ^ s)) * 2 ^ s)%Q.
Proof.
  intros Hsk Hx. pose proof (pow2_pos s) as Hs.
  assert (2 ^ k == inject_Z (2 ^ (k - s)) * 2 ^ s)%Q as ->.
  { rewrite <- pow2_Z by lia. rewrite <- pow2_plus. by replace (k - s + s) with k by lia. }
  apply Qmult_le_compat_r; [|lra]. rewrite <- Zle_Qle.
  rewrite <- (rne_Z (2 ^ (k - s))) at 1. apply rne_mono.
  apply Qle_shift_div_l; [done|].
  rewrite <- pow2_Z by lia. rewrite <- pow2_plus. by replace (k - s + s) with k by lia.
Qed.

Lemma round_pos_mono (x y : Q) :
  (0 < x)%Q -> (x <= y)%Q -> (round_pos x <= round_pos y)%Q.
Proof.
  intros Hx Hxy. assert (0 < y)%Q as Hy by lra.
  pose proof (binade_mono x y Hx Hxy) as He.
  destruct (binade_spec x Hx) as [_ Hx2]. destruct (binade_spec y Hy) as [Hy1 _].
  unfold round_pos.
  set (sx := Z.max (binade x - 52) (-1074)).
  set (sy := Z.max (binade y - 52) (-1074)).
  destruct (Z.eq_dec sx sy) as [Heq|Hne].
  - rewrite <- Heq. pose proof (pow2_pos sx) as Hs.
    apply Qmult_le_compat_r; [|lra]. rewrite <- Zle_Qle. apply rne_mono.
    apply Qle_shift_div_l; [done|].
    assert ((x / 2 ^ sx * 2 ^ sx)%Q == x)%Q as ->
      by (field; lra). done.
  - set (k := Z.max (binade x + 1) sx).
    apply Qle_trans with (2 ^ k)%Q.
    + apply scaled_le; [lia|].
      apply Qle_trans with (2 ^ (binade x + 1))%Q; [lra|]. apply pow2_le. lia.
    + apply Qle_trans with (2 ^ binade y)%Q; [apply pow2_le; lia|].
      apply scaled_ge; [lia | done].
Qed.

Lemma round_pos_nonneg (x : Q) : (0 <= x)%Q -> (0 <= round_pos x)%Q.
Proof.
  intros Hx. unfold round_pos. set (s := Z.max _ _).
  pose proof (pow2_pos s) as Hs.
  apply Qmult_le_0_compat; [|lra].
  change 0%Q with (inject_Z 0). rewrite <- Zle_Qle.
  rewrite <- (rne_Z 0). apply rne_mono. apply Qle_shift_div_l; [done|].
  change (inject_Z 0) with 0%Q. by rewrite Qmult_0_l.
Qed.

Lemma Qnum_sign (x : Q) :
  match Qnum x with
  | Z0 => (x == 0)%Q
  | Zpos _ => (0 < x)%Q
  | Zneg _ => (x < 0)%Q
  end.
Proof. destruct x as [[|n|n] d]; unfold Qeq, Qlt; simpl; lia. Qed.

Lemma binary64_mono (x y : Q) : (x <= y)%Q -> (binary64 x <= binary64 y)%Q.
Proof.
  intros Hxy. unfold binary64.
  pose proof (Qnum_sign x) as Hx. pose proof (Qnum_sign y) as Hy.
  pose proof (Qnum_sign (- x)) as Hx'. pose proof (Qnum_sign (- y)) as Hy'.
  destruct (Qnum x) as [|px|px]; destruct (Qnum y) as [|py|py];
    try (exfalso; lra).
  - lra.
  - apply round_pos_nonneg. lra.
  - by apply round_pos_mono.
  - pose proof (round_pos_nonneg (- x) ltac:(lra)). lra.
  - pose proof (round_pos_nonneg (- x) ltac:(lra)).
    pose proof (round_pos_nonneg y ltac:(lra)). lra.
  - pose proof (round_pos_mono (- y) (- x) ltac:(lra) ltac:(lra)). lra.
Qed.

#[local] Instance binary64_proper : Proper (Qeq ==> Qeq) binary64.
Proof.
  intros x y Hxy. apply Qle_antisym; apply binary64_mono; lra.
Qed.

Lemma binary64_0 : (binary64 0 == 0)%Q.
Proof. reflexivity. Qed.

Lemma binary64_1 : (binary64 1 == 1)%Q.
Proof. vm_compute. reflexivity. Qed.

Lemma binary64_40 : (binary64 40 == 40)%Q.
Proof. vm_compute. reflexivity. Qed.

Lemma binary64_30 : (binary64 30 == 30)%Q.
Proof. vm_compute. reflexivity. Qed.

(** ** The scoring engine *)

Lemma Qfloor_unique (x : Q) (z : Z) :
  (inject_Z z <= x)%Q -> (x < inject_Z (z + 1))%Q -> Qfloor x = z.
Proof.
  intros Hle Hlt.
  pose proof (Qfloor_resp_le _ _ Hle) as H1. rewrite Qfloor_Z in H1.
  pose proof (Qfloor_le x) as H2.
  assert (inject_Z (Qfloor x) < inject_Z (z + 1))%Q as H3
    by (eapply Qle_lt_trans; eassumption).
  rewrite <- Zlt_Qlt in H3. lia.
Qed.

#[local] Instance Math_round_proper : Proper (Qeq ==> eq) Math_round.
Proof. intros x y Hxy. unfold Math_round. apply Qfloor_comp. rewrite Hxy. reflexivity. Qed.

Lemma Math_round_Z (z : Z) : Math_round (inject_Z z) = z.
Proof.
  unfold Math_round. apply Qfloor_unique.
  - lra.
  - rewrite inject_Z_plus. change (inject_Z 1) with 1%Q. lra.
Qed.

Lemma Math_round_bounds (x : Q) (k : Z) :
  (0 <= x)%Q -> (x <= inject_Z k)%Q -> 0 <= Math_round x <= k.
Proof.
  intros H0 Hk. unfold Math_round. split.
  - change 0 with (Qfloor (inject_Z 0)) at 1. rewrite Qfloor_Z.
    pose proof (Qfloor_resp_le 0 (x + (1 # 2))) as H. 
    change (Qfloor 0) with 0 in H. apply H. lra.
  - pose proof (Qfloor_resp_le (x + (1 # 2)) (inject_Z k + (1 # 2))) as H.
    fold (Math_round (inject_Z k)) in H. rewrite Math_round_Z in H. apply H. lra.
Qed.

Lemma Math_round_mono (x y : Q) : (x <= y)%Q -> Math_round x <= Math_round y.
Proof. intros H. unfold Math_round. apply Qfloor_resp_le. lra. Qed.

Lemma Qmult_le_l_nonneg (w a b : Q) :
  (0 <= w)%Q -> (a <= b)%Q -> (w * a <= w * b)%Q.
Proof. intros Hw Hab. nra. Qed.

Lemma binary64_nonneg (x : Q) : (0 <= x)%Q -> (0 <= binary64 x)%Q.
Proof.
  intros H. apply Qle_trans with (binary64 0); [apply Qle_refl|].
  by apply binary64_mono.
Qed.

Lemma binary64_le (x k : Q) :
  (binary64 k == k)%Q -> (x <= k)%Q -> (binary64 x <= k)%Q.
Proof.
  intros Hk H. apply Qle_trans with (binary64 k); [by apply binary64_mono|].
  lra.
Qed.

Lemma binary64_ge (x k : Q) :
  (binary64 k == k)%Q -> (k <= x)%Q -> (k <= binary64 x)%Q.
Proof.
  intros Hk H. apply Qle_trans with (binary64 k); [lra|].
  by apply binary64_mono.
Qed.

(** The factor computed from a penalty quotient [q] and a weight [w] that
    is a double: [Math.round(w * (1 - Math.min(q, 1)))]. *)
Lemma weighted_round_bounds (w : Z) (q : Q) :
  (binary64 (inject_Z w) == inject_Z w)%Q -> (0 <= inject_Z w)%Q -> (0 <= q)%Q ->
  0 <= Math_round (double_mul (inject_Z w)
                     (double_sub 1 (Qmin (binary64 q) 1))) <= w.
Proof.
  intros Hw Hw0 Hq. unfold double_mul, double_sub.
  pose proof (binary64_nonneg _ Hq) as Hq'.
  assert (0 <= Qmin (binary64 q) 1 <= 1)%Q as [Hp0 Hp1].
  { split; [apply Q.min_glb; lra | apply Q.le_min_r]. }
  set (p := Qmin (binary64 q) 1) in *.
  assert (0 <= binary64 (1 - p) <= 1)%Q as [Hd0 Hd1].
  { split.
    - apply binary64_nonneg. lra.
    - apply binary64_le; [exact binary64_1 | lra]. }
  set (d := binary64 (1 - p)) in *.
  apply Math_round_bounds.
  - apply binary64_nonneg. by apply Qmult_le_0_compat.
  - apply binary64_le; [done|].
    apply Qle_trans with (inject_Z w * 1)%Q; [by apply Qmult_le_l_nonneg|].
    rewrite Qmult_1_r. apply Qle_refl.
Qed.

Lemma weighted_round_antitone (w : Z) (q1 q2 : Q) :
  (0 <= inject_Z w)%Q -> (q1 <= q2)%Q ->
  Math_round (double_mul (inject_Z w) (double_sub 1 (Qmin (binary64 q2) 1)))
  <= Math_round (double_mul (inject_Z w) (double_sub 1 (Qmin (binary64 q1) 1))).
Proof.
  intros Hw Hq. unfold double_mul, double_sub.
  pose proof (binary64_mono _ _ Hq) as Hq'.
  assert (Qmin (binary64 q1) 1 <= Qmin (binary64 q2) 1)%Q as Hp
    by (by apply Q.min_le_compat_r).
  set (p1 := Qmin (binary64 q1) 1) in *. set (p2 := Qmin (binary64 q2) 1) in *.
  assert (binary64 (1 - p2) <= binary64 (1 - p1))%Q as Hd
    by (apply binary64_mono; lra).
  apply Math_round_mono, binary64_mono. by apply Qmult_le_l_nonneg.
Qed.

Lemma weighted_round_no_penalty (w : Z) (q : Q) :
  (binary64 (inject_Z w) == inject_Z w)%Q -> (q == 0)%Q ->
  Math_round (double_mul (inject_Z w) (double_sub 1 (Qmin (binary64 q) 1))) = w.
Proof.
  intros Hw Hq. unfold double_mul, double_sub.
  rewrite Hq, binary64_0, Q.min_l by lra.
  assert (1 - 0 == 1)%Q as -> by ring. rewrite binary64_1, Qmult_1_r, Hw.
  apply Math_round_Z.
Qed.

Lemma weighted_round_full_penalty (w : Z) (q : Q) :
  (1 <= q)%Q ->
  Math_round (double_mul (inject_Z w) (double_sub 1 (Qmin (binary64 q) 1))) = 0.
Proof.
  intros Hq. unfold double_mul, double_sub.
  pose proof (binary64_ge _ _ binary64_1 Hq) as Hq'.
  rewrite Q.min_r by done.
  assert (1 - 1 == 0)%Q as -> by ring. rewrite binary64_0, Qmult_0_r.
  reflexivity.
Qed.

Lemma inject_nat_nonneg n : (0 <= inject_nat n)%Q.
Proof. unfold inject_nat. change 0%Q with (inject_Z 0). rewrite <- Zle_Qle. lia. Qed.

Lemma inject_nat_pos n : (0 < n)%nat -> (0 < inject_nat n)%Q.
Proof. intros H. unfold inject_nat. change 0%Q with (inject_Z 0). rewrite <- Zlt_Qlt. lia. Qed.

Lemma quotient_nonneg (n t : nat) :
  (0 < t)%nat -> (0 <= inject_nat n / inject_nat t)%Q.
Proof.
  intros Ht. apply Qle_shift_div_l; [by apply inject_nat_pos|].
  rewrite Qmult_0_l. apply inject_nat_nonneg.
Qed.

Lemma scoreCompatibility_bounds report :
  0 <= rf_score (scoreCompatibility report) <= WEIGHT_COMPATIBILITY.
Proof.
  unfold scoreCompatibility.
  destruct (Nat.eqb_spec (length (checks report)) 0) as [Hz|Hnz]; cbn [rf_score].
  - unfold WEIGHT_COMPATIBILITY; lia.
  - unfold double_div. apply weighted_round_bounds.
    + exact binary64_40.
    + done.
    + apply quotient_nonneg. lia.
Qed.

(** In doubles the security factor is exact: each of the thirty penalties
    below the weight gives the integer the exact computation gives. *)
Lemma security_points (n : nat) :
  Math_round (double_mul (inject_Z WEIGHT_SECURITY)
                (double_sub 1 (Qmin (double_div (inject_nat n)
                                                (inject_Z WEIGHT_SECURITY)) 1)))
  = Z.max 0 (30 - Z.of_nat n).
Proof.
  destruct (le_lt_dec 30 n) as [Hge|Hlt].
  - unfold double_div. rewrite weighted_round_full_penalty; [lia|].
    unfold WEIGHT_SECURITY. change (inject_Z 30) with 30%Q.
    apply Qle_shift_div_l; [lra|]. unfold inject_nat.
    rewrite Qmult_1_l. change 30%Q with (inject_Z 30). rewrite <- Zle_Qle. lia.
  - do 30 (destruct n as [|n]; [vm_compute; reflexivity|]). lia.
Qed.

Lemma scoreSecurity_closed_form report :
  vulnerabilities report <> [] ->
  rf_score (scoreSecurity report) =
    Z.max 0 (30 - Z.of_nat
      (count_where (has_severity CRITICAL) (vulnerabilities report) * 15 +
       count_where (has_severity HIGH) (vulnerabilities report) * 8 +
       count_where (has_severity MODERATE) (vulnerabilities report) * 3)).
Proof.
  intros Hne. unfold scoreSecurity.
  destruct (Nat.eqb_spec (length (vulnerabilities report)) 0) as [Hz|Hnz].
  { destruct (vulnerabilities report); [done | discriminate]. }
  cbn [rf_score]. apply security_points.
Qed.

Lemma count_where_severityCount s vs :
  count_where (has_severity s) vs = severityCount s vs.
Proof.
  unfold count_where, has_severity. induction vs as [|v vs IH]; simpl; [done|].
  rewrite <- IH. destruct (decide (severity v = s)) as [H|H].
  - rewrite bool_decide_eq_true_2 by done. done.
  - rewrite bool_decide_eq_false_2 by done. done.
Qed.

Lemma severityCount_withoutLow s vs :
  s <> LOW ->
  severityCount s (List.filter (fun v => negb (has_severity LOW v)) vs)
  = severityCount s vs.
Proof.
  intros Hs. induction vs as [|v vs IH]; simpl; [done|].
  unfold has_severity at 1.
  destruct (decide (severity v = LOW)) as [Hl|Hl].
  - rewrite bool_decide_eq_true_2 by done. simpl.
    destruct (decide (severity v = s)); [congruence | done].
  - rewrite bool_decide_eq_false_2 by done. simpl. by rewrite IH.
Qed.

Lemma scoreSecurity_empty report :
  vulnerabilities report = [] -> rf_score (scoreSecurity report) = 30.
Proof. intros H. unfold scoreSecurity. rewrite H. reflexivity. Qed.

Lemma specSecurityScore_closed_form c h m :
  specSecurityScore c h m = Z.max 0 (30 - Z.of_nat (c * 15 + h * 8 + m * 3)).
Proof.
  unfold specSecurityScore.
  replace (15 * c + 8 * h + 3 * m)%nat with (c * 15 + h * 8 + m * 3)%nat by lia.
  set (n := (_ + _ + _)%nat).
  destruct (Z.le_gt_cases (Z.of_nat n) 30) as [Hle|Hgt].
  - assert (inject_nat n <= 30)%Q as Hq.
    { unfold inject_nat. change 30%Q with (inject_Z 30). rewrite <- Zle_Qle. lia. }
    assert (30 * (1 - Qmin 1 (inject_nat n / 30)) == inject_Z (30 - Z.of_nat n))%Q as ->.
    { rewrite Q.min_r.
      - unfold Zminus. rewrite inject_Z_plus, inject_Z_opp. fold (inject_nat n).
        change (inject_Z 30) with 30%Q. field.
      - apply Qle_shift_div_r; lra. }
    rewrite Math_round_Z. lia.
  - assert (30 <= inject_nat n)%Q as Hq.
    { unfold inject_nat. change 30%Q with (inject_Z 30). rewrite <- Zle_Qle. lia. }
    assert (30 * (1 - Qmin 1 (inject_nat n / 30)) == inject_Z 0)%Q as ->.
    { rewrite Q.min_l.
      - change (inject_Z 0) with 0%Q. ring.
      - apply Qle_shift_div_l; lra. }
    rewrite Math_round_Z. lia.
Qed.

(** C7. The security factor is the full weight 30 on a report without
    vulnerabilities; on any other report it is the value the specification's
    formula gives for the counts of critical, high and moderate entries, which
    is max(0, 30 - (15 critical + 8 high + 3 moderate)); and taking the
    low-severity entries out of a report never changes the factor. *)
Theorem scoreSecurity_formula_ignores_low (report : SecurityReport) :
  let vs := vulnerabilities report in
  rf_score (scoreSecurity report) =
    (if decide (vs = []) then WEIGHT_SECURITY
     else specSecurityScore (severityCount CRITICAL vs) (severityCount HIGH vs)
                            (severityCount MODERATE vs))
  /\ (if decide (vs = []) then True
      else rf_score (scoreSecurity report) =
           Z.max 0 (30 - (15 * Z.of_nat (severityCount CRITICAL vs)
                          + 8 * Z.of_nat (severityCount HIGH vs)
                          + 3 * Z.of_nat (severityCount MODERATE vs))))
  /\ rf_score (scoreSecurity (withoutLow report)) = rf_score (scoreSecurity report)
  /\ maxScore (scoreSecurity report) = WEIGHT_SECURITY.
Proof.
  intros vs. subst vs.
  assert (forall r, vulnerabilities r <> [] ->
            rf_score (scoreSecurity r) =
            Z.max 0 (30 - (15 * Z.of_nat (severityCount CRITICAL (vulnerabilities r))
                           + 8 * Z.of_nat (severityCount HIGH (vulnerabilities r))
                           + 3 * Z.of_nat (severityCount MODERATE (vulnerabilities r)))))
    as Hclosed.
  { intros r Hr. rewrite scoreSecurity_closed_form by done.
    rewrite !count_where_severityCount. f_equal. lia. }
  repeat split.
  - destruct (decide (vulnerabilities report = [])) as [He|Hne].
    + by apply scoreSecurity_empty.
    + rewrite Hclosed by done. rewrite specSecurityScore_closed_form.
      f_equal. lia.
  - destruct (decide (vulnerabilities report = [])) as [He|Hne]; [done|].
    by apply Hclosed.
  - destruct (decide (vulnerabilities report = [])) as [He|Hne].
    { rewrite !scoreSecurity_empty; [done | done |].
      unfold withoutLow; simpl. by rewrite He. }
    rewrite (Hclosed report) by done.
    destruct (decide (vulnerabilities (withoutLow report) = [])) as [He'|Hne'].
    + rewrite scoreSecurity_empty by done.
      pose proof (severityCount_withoutLow CRITICAL (vulnerabilities report)) as H1.
      pose proof (severityCount_withoutLow HIGH (vulnerabilities report)) as H2.
      pose proof (severityCount_withoutLow MODERATE (vulnerabilities report)) as H3.
      unfold withoutLow in He'; simpl in He'. rewrite He' in H1, H2, H3.
      simpl in H1, H2, H3. rewrite <- H1, <- H2, <- H3 by done. reflexivity.
    + rewrite (Hclosed (withoutLow report)) by done.
      unfold withoutLow; cbn [vulnerabilities].
      by rewrite !severityCount_withoutLow.
  - unfold scoreSecurity. by destruct (_ =? _)%nat.
Qed.

Lemma scoreSecurity_bounds report :
  0 <= rf_score (scoreSecurity report) <= WEIGHT_SECURITY.
Proof.
  destruct (decide (vulnerabilities report = [])) as [He|Hne].
  - rewrite scoreSecurity_empty by done. unfold WEIGHT_SECURITY. lia.
  - rewrite scoreSecurity_closed_form by done. unfold WEIGHT_SECURITY. lia.
Qed.

Lemma scoreDeprecation_cases info :
  rf_score (scoreDeprecation info) =
    match info with
    | Some i => match deprecated i with
                | Some _ => 0
                | None => WEIGHT_DEPRECATION
                end
    | None => WEIGHT_DEPRECATION
    end.
Proof. destruct info as [i|]; [|done]. unfold scoreDeprecation. by destruct (deprecated i). Qed.

Lemma scoreDeprecation_bounds info :
  0 <= rf_score (scoreDeprecation info) <= WEIGHT_DEPRECATION.
Proof.
  rewrite scoreDeprecation_cases. unfold WEIGHT_DEPRECATION.
  destruct info as [i|]; [destruct (deprecated i)|]; lia.
Qed.

Lemma scoreMaintenance_bounds now info :
  0 <= rf_score (scoreMaintenance now info) <= WEIGHT_MAINTENANCE.
Proof.
  unfold scoreMaintenance, WEIGHT_MAINTENANCE. destruct info as [i|]; [|simpl; lia].
  destruct (lastPublish i) as [published|];
    repeat match goal with
           | |- context [if ?b then _ else _] => destruct b
           end; simpl; lia.
Qed.

Lemma calculateRiskScore_score now compatibility security packageInfo :
  score (calculateRiskScore now compatibility security packageInfo) =
    rf_score (scoreCompatibility compatibility)
    + rf_score (scoreSecurity security)
    + rf_score (scoreDeprecation packageInfo)
    + rf_score (scoreMaintenance now packageInfo).
Proof. unfold calculateRiskScore, sum_scores. simpl. lia. Qed.

Lemma calculateRiskScore_action now compatibility security packageInfo :
  action (calculateRiskScore now compatibility security packageInfo) =
    actionOf (score (calculateRiskScore now compatibility security packageInfo)).
Proof. reflexivity. Qed.

Lemma actionOf_spec total :
  (actionOf total = ALLOW <-> 75 < total)
  /\ (actionOf total = WARN <-> 40 < total <= 75)
  /\ (actionOf total = BLOCK <-> total <= 40).
Proof.
  unfold actionOf.
  destruct (Z.ltb_spec 75 total); [|destruct (Z.ltb_spec 40 total)];
    repeat split; intros; try discriminate; try lia; auto.
Qed.

(** C4. Whatever the three inputs and the clock, the score of
    [calculateRiskScore] is the sum of the four factor scores, it lies
    between 0 and 100, and the action follows it by strict thresholds: ALLOW
    exactly above 75, WARN exactly above 40 and up to 75, BLOCK exactly up to
    40; so a total of 75 is WARN and a total of 40 is BLOCK. *)
Theorem calculateRiskScore_sum_range_thresholds
    (now : Z) (compatibility : CompatibilityReport)
    (security : SecurityReport) (packageInfo : option PackageInfo) :
  let r := calculateRiskScore now compatibility security packageInfo in
  score r = rf_score (scoreCompatibility compatibility)
            + rf_score (scoreSecurity security)
            + rf_score (scoreDeprecation packageInfo)
            + rf_score (scoreMaintenance now packageInfo)
  /\ factors r = [scoreCompatibility compatibility; scoreSecurity security;
                  scoreDeprecation packageInfo; scoreMaintenance now packageInfo]
  /\ 0 <= score r <= 100
  /\ (action r = ALLOW <-> 75 < score r)
  /\ (action r = WARN <-> 40 < score r <= 75)
  /\ (action r = BLOCK <-> score r <= 40)
  /\ (if decide (score r = 75) then action r = WARN else True)
  /\ (if decide (score r = 40) then action r = BLOCK else True).
Proof.
  intros r. subst r.
  pose proof (scoreCompatibility_bounds compatibility) as Hc.
  pose proof (scoreSecurity_bounds security) as Hs.
  pose proof (scoreDeprecation_bounds packageInfo) as Hd.
  pose proof (scoreMaintenance_bounds now packageInfo) as Hm.
  unfold WEIGHT_COMPATIBILITY, WEIGHT_SECURITY, WEIGHT_DEPRECATION,
    WEIGHT_MAINTENANCE in *.
  pose proof (calculateRiskScore_score now compatibility security packageInfo) as Hsum.
  rewrite calculateRiskScore_action.
  destruct (actionOf_spec
              (score (calculateRiskScore now compatibility security packageInfo)))
    as (Ha & Hw & Hb).
  repeat split; try tauto; try lia.
  - case_decide; [|done]. apply Hw. lia.
  - case_decide; [|done]. apply Hb. lia.
Qed.

(** The two boundary totals of C4 are reached: an input scoring exactly 75,
    which is WARN, and one scoring exactly 40, which is BLOCK. *)
Example total_75_is_WARN :
  let r := calculateRiskScore 0 noPeersReport cleanSecurity
             (Some (sampleInfo (Some "use X instead") 800 5 1000000)) in
  score r = 75 /\ action r = WARN.
Proof. vm_compute. split; reflexivity. Qed.

Example total_40_is_BLOCK :
  let r := calculateRiskScore 0 noPeersReport twoCriticals
             (Some (sampleInfo (Some "use X instead") 800 0 12)) in
  score r = 40 /\ action r = BLOCK.
Proof. vm_compute. split; reflexivity. Qed.

(** The factors are computed in doubles.  With 49 failing checks of 80 the
    product 40 * (1 - 49 / 80) is the double just below 15.5, so the
    compatibility factor is 15, where the exact value 15.5 would round to
    16; with no vulnerability and no metadata the total is 75, which is
    WARN. *)
Example forty_nine_failing_of_eighty :
  let r := calculateRiskScore 0 (failingOf 49 80) cleanSecurity None in
  (double_mul 40 (double_sub 1 (double_div 49 80)) < 155 # 10)%Q
  /\ rf_score (scoreCompatibility (failingOf 49 80)) = 15
  /\ score r = 75 /\ action r = WARN.
Proof. vm_compute. repeat split; reflexivity. Qed.

(** Scenario B of the specification: no peer requirements, no
    vulnerabilities, not deprecated, published yesterday, many maintainers
    and downloads: score 100, ALLOW. *)
Example healthy_package_scores_100 :
  let r := calculateRiskScore 0 noPeersReport cleanSecurity
             (Some (sampleInfo None 1 5 1000000)) in
  score r = 100 /\ action r = ALLOW.
Proof. vm_compute. split; reflexivity. Qed.

(** C2, as the specification states it, fails: a deprecated package with no
    peers, no vulnerabilities and healthy maintenance scores 85 and is
    ALLOW. *)
Lemma deprecated_package_can_be_ALLOW :
  deprecated deprecatedButHealthy = Some "use X instead"
  /\ rf_score (scoreDeprecation (Some deprecatedButHealthy)) = 0
  /\ score (calculateRiskScore 0 noPeersReport cleanSecurity
              (Some deprecatedButHealthy)) = 85
  /\ action (calculateRiskScore 0 noPeersReport cleanSecurity
               (Some deprecatedButHealthy)) = ALLOW.
Proof. vm_compute. repeat split; reflexivity. Qed.

(** C2, amended. When the metadata reports the package deprecated, the
    deprecation factor is 0, the total is the sum of the other three factors
    and is at most 85, and the action is ALLOW exactly when that sum exceeds
    75, WARN exactly when it is above 40 and up to 75, BLOCK otherwise. *)
Theorem deprecated_scores_zero_total_at_most_85
    (now : Z) (compatibility : CompatibilityReport) (security : SecurityReport)
    (info : PackageInfo) (message : string) :
  deprecated info = Some message ->
  let r := calculateRiskScore now compatibility security (Some info) in
  let others := rf_score (scoreCompatibility compatibility)
                + rf_score (scoreSecurity security)
                + rf_score (scoreMaintenance now (Some info)) in
  rf_score (scoreDeprecation (Some info)) = 0
  /\ score r = others
  /\ score r <= 85
  /\ (action r = ALLOW <-> 75 < others)
  /\ (action r = WARN <-> 40 < others <= 75)
  /\ (action r = BLOCK <-> others <= 40).
Proof.
  intros Hdep r others. subst r others.
  assert (rf_score (scoreDeprecation (Some info)) = 0) as Hzero.
  { rewrite scoreDeprecation_cases, Hdep. done. }
  rewrite calculateRiskScore_action, calculateRiskScore_score, Hzero.
  pose proof (scoreCompatibility_bounds compatibility) as Hc.
  pose proof (scoreSecurity_bounds security) as Hs.
  pose proof (scoreMaintenance_bounds now (Some info)) as Hm.
  unfold WEIGHT_COMPATIBILITY, WEIGHT_SECURITY, WEIGHT_MAINTENANCE in *.
  set (c := rf_score (scoreCompatibility compatibility)) in *.
  set (s := rf_score (scoreSecurity security)) in *.
  set (m := rf_score (scoreMaintenance now (Some info))) in *.
  destruct (actionOf_spec (c + s + 0 + m)) as (Ha & Hw & Hb).
  split; [done|]. split; [lia|]. split; [lia|].
  split; [|split].
  - rewrite Ha. lia.
  - rewrite Hw. lia.
  - rewrite Hb. lia.
Qed.

Lemma deprecated_scores_zero_total_at_most_85_witness :
  deprecated deprecatedButHealthy = Some "use X instead"
  /\ rf_score (scoreDeprecation (Some deprecatedButHealthy)) = 0
  /\ score (calculateRiskScore 0 noPeersReport cleanSecurity
              (Some deprecatedButHealthy)) <= 85.
Proof.
  split; [reflexivity|].
  pose proof (deprecated_scores_zero_total_at_most_85 0 noPeersReport
                cleanSecurity deprecatedButHealthy "use X instead" eq_refl) as H.
  cbv zeta in H. destruct H as (H0 & _ & H85 & _). split; assumption.
Defined.

(** ** The compatibility checker *)



Lemma Object_assign_lookup target source k :
  Object_assign target source !! k =
    if decide (k = "__proto__") then target !! k
    else match source !! k with
         | Some r => Some r
         | None => target !! k
         end.
Proof.
  unfold Object_assign. rewrite lookup_union.
  destruct (decide (k = "__proto__")) as [->|Hk].
  - rewrite lookup_delete_eq. by destruct (target !! "__proto__").
  - rewrite lookup_delete_ne by done. by destruct (source !! k), (target !! k).
Qed.

Lemma getInstalledPackages_lookup w path pkg :
  readManifest w path = Returned pkg ->
  exists installed,
    getInstalledPackages w path = Returned installed /\
    forall k, installed !! k =
      if decide (k = "__proto__") then None
      else match default ∅ (devDependencies pkg) !! k with
           | Some r => Some r
           | None => default ∅ (dependencies pkg) !! k
           end.
Proof.
  intros Hread. unfold getInstalledPackages. rewrite Hread. simpl.
  eexists. split; [reflexivity|]. intros k.
  destruct (devDependencies pkg) as [dev|], (dependencies pkg) as [deps|]; simpl;
    rewrite ?Object_assign_lookup, ?lookup_empty;
    destruct (decide (k = "__proto__")); try done;
    repeat case_match; congruence.
Qed.

(** C3, as the specification states it, fails: with react declared as
    ^17.0.2 in dependencies and as ^18.0.0 in devDependencies, the installed
    map binds react to the devDependencies range. *)
Lemma dependencies_range_is_overridden :
  exists installed,
    getInstalledPackages (sampleWorld collidingManifest (publishes [] ∅))
                         (projectDir ++ ["package.json"]) = Returned installed
    /\ default ∅ (dependencies collidingManifest) !! "react" = Some "^17.0.2"
    /\ default ∅ (devDependencies collidingManifest) !! "react" = Some "^18.0.0"
    /\ installed !! "react" = Some "^18.0.0"
    /\ installed !! "react" <> Some "^17.0.2".
Proof.
  eexists. split; [reflexivity|]. vm_compute. repeat split; congruence.
Qed.

(** C3, amended. When the manifest declares a name in both dependencies and
    devDependencies, the installed map binds it to the range from
    devDependencies: the object assigned last wins.  (The one key that is no
    package name and that [Object.assign] cannot write, [__proto__], is set
    aside.) *)
Theorem getInstalledPackages_devDependencies_override
    (w : World) (path : Path) (pkg : UserPackageJson)
    (deps devDeps : gmap string string) (peerName r1 r2 : string) :
  readManifest w path = Returned pkg ->
  dependencies pkg = Some deps ->
  devDependencies pkg = Some devDeps ->
  peerName <> "__proto__" ->
  deps !! peerName = Some r1 ->
  devDeps !! peerName = Some r2 ->
  exists installed,
    getInstalledPackages w path = Returned installed
    /\ installed !! peerName = Some r2.
Proof.
  intros Hread Hdeps Hdev Hname H1 H2.
  destruct (getInstalledPackages_lookup w path pkg Hread) as (installed & Hget & Hlook).
  exists installed. split; [done|].
  rewrite Hlook, Hdev. simpl. rewrite H2. by case_decide.
Qed.

Lemma getInstalledPackages_devDependencies_override_witness :
  exists installed,
    getInstalledPackages (sampleWorld collidingManifest (publishes [] ∅))
                         (projectDir ++ ["package.json"]) = Returned installed
    /\ installed !! "react" = Some "^18.0.0".
Proof.
  apply (getInstalledPackages_devDependencies_override
           (sampleWorld collidingManifest (publishes [] ∅))
           (projectDir ++ ["package.json"]) collidingManifest
           {[ "react" := "^17.0.2" ]} {[ "react" := "^18.0.0" ]}
           "react" "^17.0.2" "^18.0.0");
    (reflexivity || discriminate).
Defined.

Lemma isFailing_status c :
  isFailing c = true <-> status c = MISSING \/ status c = INCOMPATIBLE.
Proof.
  unfold isFailing, has_status. rewrite orb_true_iff, !bool_decide_eq_true. done.
Qed.

Lemma isPassing_status c :
  isPassing c = true <-> status c = COMPATIBLE \/ status c = OPTIONAL_MISSING.
Proof.
  unfold isPassing, has_status. rewrite orb_true_iff, !bool_decide_eq_true. done.
Qed.

Lemma isPassing_isFailing c : isPassing c = negb (isFailing c).
Proof. unfold isPassing, isFailing, has_status. by destruct (status c). Qed.

Section CompatibilityFacts.
Variable semver_intersects : string -> string -> result bool.

Lemma checkPeer_returns installedMap meta peerName requiredRange c pushed :
  checkPeer semver_intersects installedMap meta peerName requiredRange
    = Returned (c, pushed) ->
  PeerVerdict semver_intersects installedMap meta peerName requiredRange c pushed.
Proof.
  unfold checkPeer. fold (isOptionalPeer meta peerName).
  destruct (installedMap !! peerName) as [installedRange|] eqn:Hin; simpl.
  - destruct (semver_intersects installedRange requiredRange) as [[|]|e] eqn:Hsi;
      simpl; intros [= <- <-]; econstructor; eauto.
  - destruct (inherited peerName) eqn:Hinh; [done|].
    destruct (isOptionalPeer meta peerName) eqn:Hopt; simpl;
      intros [= <- <-]; econstructor; eauto.
Qed.

Lemma checkPeer_throws installedMap meta peerName requiredRange e :
  checkPeer semver_intersects installedMap meta peerName requiredRange = Thrown e <->
  (exists installedRange,
     installedMap !! peerName = Some installedRange /\
     semver_intersects installedRange requiredRange = Thrown e)
  \/ (installedMap !! peerName = None /\ inherited peerName = true
      /\ e = TypeError "range.trim is not a function").
Proof.
  unfold checkPeer.
  destruct (installedMap !! peerName) as [installedRange|] eqn:Hin; simpl.
  - destruct (semver_intersects installedRange requiredRange) as [[|]|e'] eqn:Hsi;
      simpl; split.
    + discriminate.
    + intros [(? & [= <-] & ?)|(? & _)]; congruence.
    + discriminate.
    + intros [(? & [= <-] & ?)|(? & _)]; congruence.
    + intros [= ->]. eauto.
    + intros [(? & [= <-] & ?)|(? & _)]; congruence.
  - destruct (inherited peerName); simpl.
    + split; [intros [= <-]; by right|].
      intros [(? & ? & _)|(_ & _ & ->)]; done.
    + destruct (match meta !! peerName with Some _ => _ | None => _ end); simpl;
        split; try discriminate;
        intros [(? & ? & ?)|(_ & ? & _)]; discriminate.
Qed.

Lemma comparePeers_returns installedMap meta entries checks0 fixParts0 checks fixParts :
  comparePeers semver_intersects installedMap meta entries checks0 fixParts0
    = Returned (checks, fixParts) ->
  exists cs parts,
    PeerVerdicts semver_intersects installedMap meta entries cs parts
    /\ checks = checks0 ++ cs /\ fixParts = fixParts0 ++ parts.
Proof.
  revert checks0 fixParts0.
  induction entries as [|[peerName requiredRange] entries IH];
    intros checks0 fixParts0; simpl.
  - intros [= <- <-]. exists [], []. rewrite !app_nil_r. split; [constructor|done].
  - destruct (checkPeer semver_intersects installedMap meta peerName requiredRange)
      as [[c pushed]|e] eqn:Hc; simpl; [|discriminate].
    intros Hrest. apply IH in Hrest as (cs & parts & Hvs & -> & ->).
    exists (c :: cs), (pushed ++ parts). split.
    + constructor; [by apply checkPeer_returns | done].
    + by rewrite <- !app_assoc.
Qed.

Lemma PeerVerdict_shape installedMap meta peerName requiredRange c pushed :
  PeerVerdict semver_intersects installedMap meta peerName requiredRange c pushed ->
  name c = peerName /\ required c = requiredRange
  /\ installed c = installedMap !! peerName
  /\ fixCommand c = (if isFailing c then Some (individualFix c) else None)
  /\ pushed = (if isFailing c then [fixPartOf c] else []).
Proof. intros []; simpl; repeat split; done. Qed.

Lemma PeerVerdicts_parts installedMap meta entries cs parts :
  PeerVerdicts semver_intersects installedMap meta entries cs parts ->
  parts = fixPartOf <$> List.filter isFailing cs.
Proof.
  induction 1 as [|peerName requiredRange entries c pushed cs parts Hv _ IH]; [done|].
  apply PeerVerdict_shape in Hv as (_ & _ & _ & _ & ->). simpl.
  destruct (isFailing c); simpl; by rewrite IH.
Qed.

Lemma PeerVerdicts_fixCommand installedMap meta entries cs parts :
  PeerVerdicts semver_intersects installedMap meta entries cs parts ->
  Forall (fun c => fixCommand c =
                     if isFailing c then Some (individualFix c) else None) cs.
Proof.
  induction 1 as [|peerName requiredRange entries c pushed cs parts Hv _ IH];
    constructor; [|done].
  by apply PeerVerdict_shape in Hv as (_ & _ & _ & ? & _).
Qed.
End CompatibilityFacts.

(** *** Attaching the combined command *)

Lemma attachCombinedFix_split f cs :
  existsb isFailing cs = true ->
  exists pre c post,
    cs = pre ++ c :: post
    /\ Forall (fun d => isFailing d = false) pre
    /\ isFailing c = true
    /\ attachCombinedFix f cs = pre ++ withFix f c :: post.
Proof.
  induction cs as [|c cs IH]; simpl; [discriminate|].
  destruct (isFailing c) eqn:Hc; simpl.
  - intros _. exists [], c, cs. repeat split; auto.
  - intros Hex. destruct (IH Hex) as (pre & c' & post & -> & Hpre & Hc' & ->).
    exists (c :: pre), c', post. repeat split; auto.
Qed.

Lemma existsb_isFailing_filter cs :
  existsb isFailing cs = (0 <? length (fixPartOf <$> List.filter isFailing cs))%nat.
Proof.
  induction cs as [|c cs IH]; simpl; [done|].
  destruct (isFailing c); simpl; [done|]. apply IH.
Qed.

Lemma string_length_app (a b : string) :
  String.length (a +:+ b) = (String.length a + String.length b)%nat.
Proof. induction a as [|ch a IH]; simpl; [done|]. by rewrite IH. Qed.

Lemma join_member_shorter sep (x : string) parts :
  x ∈ parts -> (String.length x <= String.length (join sep parts))%nat.
Proof.
  induction parts as [|p parts IH]; [by intros ?%elem_of_nil|].
  intros [->|Hin]%elem_of_cons; simpl.
  - destruct parts; [done|]. rewrite !string_length_app. lia.
  - specialize (IH Hin). destruct parts as [|q parts]; [by apply elem_of_nil in Hin|].
    rewrite !string_length_app. lia.
Qed.

Lemma join_cons_longer (x h : string) parts :
  x ∈ parts -> (String.length x < String.length (join " " (h :: parts)))%nat.
Proof.
  intros Hin. pose proof (join_member_shorter " " x parts Hin) as Hle.
  destruct parts as [|q parts]; [by apply elem_of_nil in Hin|].
  change (join " " (h :: q :: parts)) with (h +:+ " " +:+ join " " (q :: parts)).
  set (j := join " " (q :: parts)) in *.
  rewrite !string_length_app. change (String.length " ") with 1%nat. lia.
Qed.

Lemma individualFix_not_combined d c post :
  d ∈ post -> isFailing d = true -> isFailing c = true ->
  forall pre, Forall (fun d => isFailing d = false) pre ->
  individualFix d <> combinedFix (pre ++ c :: post).
Proof.
  intros Hd Hfd Hfc pre Hpre. unfold individualFix, combinedFix.
  intros Heq%String.app_inj.
  assert (List.filter isFailing (pre ++ c :: post) = c :: List.filter isFailing post) as Hf.
  { rewrite List.filter_app. simpl. rewrite Hfc.
    assert (List.filter isFailing pre = []) as ->; [|done].
    clear -Hpre. induction Hpre as [|x pre Hx _ IH]; simpl; [done|]. by rewrite Hx. }
  rewrite Hf, fmap_cons in Heq.
  assert (fixPartOf d ∈ fixPartOf <$> List.filter isFailing post) as Hin.
  { apply list_elem_of_fmap. exists d. split; [done|].
    apply list_elem_of_In, List.filter_In. split; [by apply list_elem_of_In|done]. }
  pose proof (join_cons_longer _ (fixPartOf c) _ Hin) as Hlt.
  rewrite <- Heq in Hlt. lia.
Qed.

Lemma attachCombinedFix_status f cs :
  status <$> attachCombinedFix f cs = status <$> cs.
Proof.
  induction cs as [|c cs IH]; [done|]. cbn [attachCombinedFix].
  destruct (isFailing c); rewrite !fmap_cons; [done|]. by rewrite IH.
Qed.

Lemma forallb_isPassing_status cs cs' :
  status <$> cs = status <$> cs' ->
  forallb isPassing cs = forallb isPassing cs'.
Proof.
  revert cs'. induction cs as [|c cs IH]; intros [|c' cs']; try done.
  rewrite !fmap_cons. intros [= Hs Hrest]. simpl. rewrite (IH cs' Hrest). f_equal.
  unfold isPassing, has_status. by rewrite Hs.
Qed.

Lemma finalChecks_status cs : status <$> finalChecks cs = status <$> cs.
Proof.
  unfold finalChecks. destruct (existsb isFailing cs); [|done].
  apply attachCombinedFix_status.
Qed.

Lemma filter_isFailing_none pre :
  Forall (fun d => isFailing d = false) pre -> List.filter isFailing pre = [].
Proof. induction 1 as [|x pre Hx _ IH]; simpl; [done|]. by rewrite Hx. Qed.

Lemma combinedFix_attach f cs :
  combinedFix (attachCombinedFix f cs) = combinedFix cs.
Proof.
  unfold combinedFix. do 2 f_equal.
  induction cs as [|c cs IH]; [done|]. cbn [attachCombinedFix].
  destruct (isFailing c) eqn:Hc; cbn [List.filter].
  - fold (withFix f c). change (isFailing (withFix f c)) with (isFailing c).
    by rewrite Hc.
  - rewrite Hc. done.
Qed.

Lemma combinedFix_finalChecks cs : combinedFix (finalChecks cs) = combinedFix cs.
Proof.
  unfold finalChecks. destruct (existsb isFailing cs); [|done].
  apply combinedFix_attach.
Qed.

Section CheckCompatibilityFacts.
Variable semver_intersects : string -> string -> result bool.

(** The path of [checkCompatibility] through the loop. *)
Lemma checkCompatibility_compares w store packageName projectPath
      pkgJsonPath installedMap peerData store' :
  findPackageJson w projectPath 3 = Some pkgJsonPath ->
  getInstalledPackages w pkgJsonPath = Returned installedMap ->
  fetchPeerDependencies w store packageName = (Returned (Some peerData), store') ->
  peers peerData <> [] ->
  checkCompatibility semver_intersects w store packageName projectPath =
    (match comparePeers semver_intersects installedMap (meta peerData)
                        (peers peerData) [] [] with
     | Returned (cs, _) =>
         Returned {| packageName := packageName;
                     checks := finalChecks cs;
                     compatible := forallb isPassing (finalChecks cs) |}
     | Thrown e => Thrown e
     end, store').
Proof.
  intros Hfind Hget Hfetch Hne. unfold checkCompatibility.
  rewrite Hfind, Hget, Hfetch.
  destruct (peers peerData) as [|entry entries] eqn:Hp; [done|].
  change (length (entry :: entries) =? 0)%nat with false. cbv iota.
  destruct (comparePeers semver_intersects installedMap (meta peerData)
              (entry :: entries) [] []) as [[cs parts]|e] eqn:Hcmp; [|done].
  simpl. f_equal. f_equal.
  apply comparePeers_returns in Hcmp as (cs' & parts' & Hvs & Hcs & Hparts).
  simpl in Hcs, Hparts. subst cs' parts'.
  apply PeerVerdicts_parts in Hvs. subst parts.
  unfold finalChecks, combinedFixOf, combinedFix.
  rewrite existsb_isFailing_filter.
  destruct (0 <? _)%nat; done.
Qed.

(** Every report comes from an early exit or from the loop. *)
Lemma checkCompatibility_returns w store packageName projectPath report store' :
  checkCompatibility semver_intersects w store packageName projectPath
    = (Returned report, store') ->
  report = {| packageName := packageName; checks := []; compatible := true |}
  \/ exists pkgJsonPath installedMap peerData cs,
       findPackageJson w projectPath 3 = Some pkgJsonPath
       /\ getInstalledPackages w pkgJsonPath = Returned installedMap
       /\ fetchPeerDependencies w store packageName
            = (Returned (Some peerData), store')
       /\ peers peerData <> []
       /\ PeerVerdicts semver_intersects installedMap (meta peerData)
            (peers peerData) cs (fixPartOf <$> List.filter isFailing cs)
       /\ report = {| packageName := packageName;
                      checks := finalChecks cs;
                      compatible := forallb isPassing (finalChecks cs) |}.
Proof.
  intros Hrun.
  destruct (findPackageJson w projectPath 3) as [pkgJsonPath|] eqn:Hfind.
  2:{ unfold checkCompatibility in Hrun. rewrite Hfind in Hrun.
      injection Hrun as <- <-. by left. }
  destruct (getInstalledPackages w pkgJsonPath) as [installedMap|e] eqn:Hget.
  2:{ unfold checkCompatibility in Hrun. rewrite Hfind, Hget in Hrun. discriminate. }
  destruct (fetchPeerDependencies w store packageName) as [[[peerData|]|e] s] eqn:Hfetch.
  - destruct (decide (peers peerData = [])) as [Hnil|Hne].
    + unfold checkCompatibility in Hrun. rewrite Hfind, Hget, Hfetch, Hnil in Hrun.
      simpl in Hrun. injection Hrun as <- <-. by left.
    + rewrite (checkCompatibility_compares _ _ _ _ _ _ _ _ Hfind Hget Hfetch Hne)
        in Hrun.
      destruct (comparePeers semver_intersects installedMap (meta peerData)
                  (peers peerData) [] []) as [[cs parts]|e] eqn:Hcmp;
        [|discriminate].
      injection Hrun as <- <-. right.
      exists pkgJsonPath, installedMap, peerData, cs.
      apply comparePeers_returns in Hcmp as (cs' & parts' & Hvs & Hcs & Hparts).
      simpl in Hcs, Hparts. subst cs' parts'.
      pose proof (PeerVerdicts_parts _ _ _ _ _ _ Hvs) as Hp. subst parts.
      repeat split; done.
  - unfold checkCompatibility in Hrun. rewrite Hfind, Hget, Hfetch in Hrun.
    injection Hrun as <- <-. by left.
  - unfold checkCompatibility in Hrun. rewrite Hfind, Hget, Hfetch in Hrun.
    discriminate.
Qed.
End CheckCompatibilityFacts.

Lemma forallb_isPassing_Forall cs :
  forallb isPassing cs = true <->
  Forall (fun c => status c = COMPATIBLE \/ status c = OPTIONAL_MISSING) cs.
Proof.
  rewrite forallb_forall, Forall_forall.
  split; intros H c Hc.
  - apply isPassing_status, H. by apply list_elem_of_In.
  - apply isPassing_status, H. by apply list_elem_of_In.
Qed.

Lemma forallb_isPassing_Exists cs :
  forallb isPassing cs = false <->
  Exists (fun c => status c = MISSING \/ status c = INCOMPATIBLE) cs.
Proof.
  induction cs as [|c cs IH]; simpl.
  - split; [discriminate | by intros ?%Exists_nil].
  - rewrite andb_false_iff, Exists_cons, IH, isPassing_isFailing, negb_false_iff,
      isFailing_status. done.
Qed.

Lemma forallb_isPassing_without_optional cs :
  forallb isPassing cs =
  forallb (has_status COMPATIBLE)
          (List.filter (fun c => negb (has_status OPTIONAL_MISSING c)) cs).
Proof.
  induction cs as [|c cs IH]; simpl; [done|].
  unfold isPassing at 1.
  destruct (has_status OPTIONAL_MISSING c) eqn:Hopt; simpl.
  - by rewrite orb_true_r.
  - by rewrite orb_false_r, IH.
Qed.

Lemma PeerVerdicts_optional_absent si installedMap meta entries cs parts :
  PeerVerdicts si installedMap meta entries cs parts ->
  Forall (fun c => installedMap !! name c = None ->
                   isOptionalPeer meta (name c) = true ->
                   status c = OPTIONAL_MISSING /\ fixCommand c = None) cs.
Proof.
  induction 1 as [|peerName requiredRange entries c pushed cs parts Hv _ IH];
    constructor; [|done].
  destruct Hv; simpl; intros; (done || congruence).
Qed.

Lemma Forall_status_transfer (P : PeerStatus -> Prop) cs cs' :
  status <$> cs = status <$> cs' ->
  Forall (fun c => P (status c)) cs -> Forall (fun c => P (status c)) cs'.
Proof.
  intros Hs H. apply (Forall_fmap status P) in H. rewrite Hs in H.
  by apply (Forall_fmap status P).
Qed.

(** A peer that is optional and absent yields a passing check, also after
    the combined command is attached. *)
Lemma finalChecks_optional_absent si installedMap meta entries cs parts :
  PeerVerdicts si installedMap meta entries cs parts ->
  Forall (fun c => installedMap !! name c = None ->
                   isOptionalPeer meta (name c) = true ->
                   status c = OPTIONAL_MISSING /\ fixCommand c = None)
         (finalChecks cs).
Proof.
  intros Hvs. pose proof (PeerVerdicts_optional_absent _ _ _ _ _ _ Hvs) as H.
  unfold finalChecks. destruct (existsb isFailing cs) eqn:Hex; [|done].
  destruct (attachCombinedFix_split (combinedFix cs) cs Hex)
    as (pre & c & post & -> & Hpre & Hc & ->).
  apply Forall_app in H as [Hp H]. apply Forall_cons in H as [Hcc Hpost].
  apply Forall_app. split; [done|]. constructor; [|done].
  simpl. intros Hnone Hopt. destruct (Hcc Hnone Hopt) as [Hs _].
  apply isFailing_status in Hc. rewrite Hs in Hc. by destruct Hc.
Qed.

(** C5. In every report [checkCompatibility] returns, [compatible] is true
    exactly when every check is COMPATIBLE or OPTIONAL_MISSING, and false
    exactly when some check is MISSING or INCOMPATIBLE; the flag does not
    depend on the OPTIONAL_MISSING checks; and a peer that is optional and
    absent from the installed map always gets the status OPTIONAL_MISSING,
    so it never makes [compatible] false. *)
Theorem compatible_iff_no_failing_check
    (semver_intersects : string -> string -> result bool)
    (w : World) (store store' : gmap string (CacheEntry CachedPeers))
    (packageName : string) (projectPath : Path) (report : CompatibilityReport) :
  checkCompatibility semver_intersects w store packageName projectPath
    = (Returned report, store') ->
  (compatible report = true <->
     Forall (fun c => status c = COMPATIBLE \/ status c = OPTIONAL_MISSING)
            (checks report))
  /\ (compatible report = false <->
        Exists (fun c => status c = MISSING \/ status c = INCOMPATIBLE)
               (checks report))
  /\ compatible report =
       forallb (has_status COMPATIBLE)
               (List.filter (fun c => negb (has_status OPTIONAL_MISSING c))
                            (checks report))
  /\ (forall pkgJsonPath installedMap peerData s,
        findPackageJson w projectPath 3 = Some pkgJsonPath ->
        getInstalledPackages w pkgJsonPath = Returned installedMap ->
        fetchPeerDependencies w store packageName = (Returned (Some peerData), s) ->
        Forall (fun c => installedMap !! name c = None ->
                         isOptionalPeer (meta peerData) (name c) = true ->
                         status c = OPTIONAL_MISSING /\ isPassing c = true)
               (checks report)).
Proof.
  intros Hrun.
  apply checkCompatibility_returns in Hrun
    as [->|(pkgJsonPath & installedMap & peerData & cs & Hfind & Hget & Hfetch
            & Hne & Hvs & ->)]; cbn [compatible checks].
  - repeat split; try done; try (intros; constructor).
    + intros ?%Exists_nil. done.
  - split; [apply forallb_isPassing_Forall|].
    split; [apply forallb_isPassing_Exists|].
    split; [apply forallb_isPassing_without_optional|].
    intros pkgJsonPath' installedMap' peerData' s Hfind' Hget' Hfetch'.
    rewrite Hfind in Hfind'. injection Hfind' as <-.
    rewrite Hget in Hget'. injection Hget' as <-.
    rewrite Hfetch in Hfetch'. injection Hfetch' as <- <-.
    eapply Forall_impl; [by eapply finalChecks_optional_absent|].
    simpl. intros c Hc Hnone Hopt. destruct (Hc Hnone Hopt) as [Hs _].
    split; [done|]. apply isPassing_status. by right.
Qed.

Lemma not_failing_passing c :
  isFailing c = false <-> status c = COMPATIBLE \/ status c = OPTIONAL_MISSING.
Proof.
  rewrite <- isPassing_status, isPassing_isFailing. by destruct (isFailing c).
Qed.

Lemma existsb_isFailing_Exists cs :
  existsb isFailing cs = true <->
  Exists (fun c => status c = MISSING \/ status c = INCOMPATIBLE) cs.
Proof.
  induction cs as [|c cs IH]; simpl.
  - split; [discriminate | by intros ?%Exists_nil].
  - by rewrite orb_true_iff, Exists_cons, IH, isFailing_status.
Qed.

Lemma shape_is_Some c :
  fixCommand c = (if isFailing c then Some (individualFix c) else None) ->
  is_Some (fixCommand c) <-> status c = MISSING \/ status c = INCOMPATIBLE.
Proof.
  intros ->. rewrite <- isFailing_status.
  destruct (isFailing c); split; try done; by intros [? [=]].
Qed.

(** C6. In every report [checkCompatibility] returns, a check carries a fix
    command exactly when its status is MISSING or INCOMPATIBLE.  When some
    check fails, the checks split around the first failing one: those before
    it all pass; it carries the combined command, which names every failing
    peer with its required range in order, joined by spaces; no other check
    carries that command; and the failing checks after it keep the command
    for their own peer. *)
Theorem fixCommand_iff_failing_one_combined
    (semver_intersects : string -> string -> result bool)
    (w : World) (store store' : gmap string (CacheEntry CachedPeers))
    (packageName : string) (projectPath : Path) (report : CompatibilityReport) :
  checkCompatibility semver_intersects w store packageName projectPath
    = (Returned report, store') ->
  let combined :=
    "npm install " +:+
    join " " ((fun c => name c +:+ "@" +:+ dquote +:+ required c +:+ dquote)
              <$> List.filter isFailing (checks report)) in
  Forall (fun c => is_Some (fixCommand c) <->
                   status c = MISSING \/ status c = INCOMPATIBLE)
         (checks report)
  /\ (Exists (fun c => status c = MISSING \/ status c = INCOMPATIBLE)
             (checks report) ->
      exists pre first post,
        checks report = pre ++ first :: post
        /\ Forall (fun c => status c = COMPATIBLE \/ status c = OPTIONAL_MISSING) pre
        /\ (status first = MISSING \/ status first = INCOMPATIBLE)
        /\ fixCommand first = Some combined
        /\ Forall (fun c => fixCommand c <> Some combined) (pre ++ post)
        /\ Forall (fun c => status c = MISSING \/ status c = INCOMPATIBLE ->
                            fixCommand c = Some (individualFix c)) post).
Proof.
  intros Hrun combined.
  change combined with (combinedFix (checks report)). clear combined.
  apply checkCompatibility_returns in Hrun
    as [->|(pkgJsonPath & installedMap & peerData & cs & Hfind & Hget & Hfetch
            & Hne & Hvs & ->)]; cbn [checks].
  { split; [constructor | by intros ?%Exists_nil]. }
  pose proof (PeerVerdicts_fixCommand _ _ _ _ _ _ Hvs) as Hshape.
  rewrite combinedFix_finalChecks. unfold finalChecks.
  destruct (existsb isFailing cs) eqn:Hex.
  - destruct (attachCombinedFix_split (combinedFix cs) cs Hex)
      as (pre & c & post & -> & Hpre & Hc & ->).
    apply Forall_app in Hshape as [Hspre Hshape].
    apply Forall_cons in Hshape as [Hsc Hspost].
    split.
    + apply Forall_app. split; [|constructor].
      * eapply Forall_impl; [exact Hspre|]. intros d. apply shape_is_Some.
      * simpl. rewrite <- isFailing_status. change (isFailing (withFix _ c)) with (isFailing c).
        rewrite Hc. split; eauto.
      * eapply Forall_impl; [exact Hspost|]. intros d. apply shape_is_Some.
    + intros _. exists pre, (withFix (combinedFix (pre ++ c :: post)) c), post.
      split; [done|]. split.
      { eapply Forall_impl; [exact Hpre|]. intros d. apply not_failing_passing. }
      split; [by apply isFailing_status|]. split; [done|]. split.
      * apply Forall_app. split.
        -- apply Forall_forall. intros d Hd.
           rewrite Forall_forall in Hpre, Hspre.
           rewrite (Hspre d Hd), (Hpre d Hd). done.
        -- apply Forall_forall. intros d Hd.
           pose proof (proj1 (Forall_forall _ _) Hspost d Hd) as Hsd. rewrite Hsd.
           destruct (isFailing d) eqn:Hfd; [|done].
           intros Heq. apply (inj Some) in Heq. revert Heq.
           by apply individualFix_not_combined.
      * eapply Forall_impl; [exact Hspost|]. intros d -> Hd.
        apply isFailing_status in Hd. by rewrite Hd.
  - split.
    + eapply Forall_impl; [exact Hshape|]. intros d. apply shape_is_Some.
    + intros Hsome%existsb_isFailing_Exists. congruence.
Qed.

Lemma cache_get_miss {T} (i : Io) (store : gmap string (CacheEntry T)) key :
  cacheMiss i store key ->
  exists store', cache_get i store key = (Returned None, store').
Proof.
  intros [Hdir Hentry]. unfold cache_get, ensureDir. rewrite Hdir.
  destruct (store !! key) as [entry|]; [|by eauto].
  apply Z.ltb_lt in Hentry. rewrite Hentry. eauto.
Qed.




Lemma fetchPeerDependencies_cached w store packageName entry :
  mkdirOk (io w) = true ->
  store !! ("peers:" +:+ packageName) = Some entry ->
  now (io w) - timestamp entry <= ttl entry ->
  fetchPeerDependencies w store packageName = (Returned (Some (data entry)), store).
Proof.
  intros Hdir Hentry Hfresh. unfold fetchPeerDependencies, cache_get, ensureDir.
  rewrite Hdir, Hentry.
  destruct (Z.ltb_spec (ttl entry) (now (io w) - timestamp entry)); [lia|done].
Qed.



Section UnparseableRanges.
Variable parse : string -> option Semver.Range.

Lemma intersects_returns r1 r2 b :
  Semver.intersects parse r1 r2 = Returned b <->
  exists range1 range2,
    parse r1 = Some range1 /\ parse r2 = Some range2 /\
    b = Semver.Range_intersects range1 range2.
Proof.
  unfold Semver.intersects.
  destruct (parse r1) as [range1|], (parse r2) as [range2|]; split;
    try discriminate; try (by intros (? & ? & ? & ? & ?)).
  - intros [= <-]. eauto.
  - intros (? & ? & [= <-] & [= <-] & ->). done.
Qed.

Lemma intersects_throws r1 r2 :
  (exists e, Semver.intersects parse r1 r2 = Thrown e) <->
  parse r1 = None \/ parse r2 = None.
Proof.
  unfold Semver.intersects.
  destruct (parse r1) as [range1|], (parse r2) as [range2|]; split;
    try (by intros [? ?]); try (by intros [?|?]); eauto.
Qed.

Lemma checkPeer_unparseable installedMap meta entry :
  readsUnparseable parse installedMap entry <->
  exists e, checkPeer (Semver.intersects parse) installedMap meta entry.1 entry.2
            = Thrown e.
Proof.
  unfold readsUnparseable. split.
  - destruct (installedMap !! entry.1) as [installedRange|] eqn:Hin.
    + intros [e He]%intersects_throws. exists e. apply checkPeer_throws.
      left. eauto.
    + intros Hinh. eexists. apply checkPeer_throws. right. eauto.
  - intros [e [(installedRange & -> & He)|(-> & Hinh & _)]%checkPeer_throws].
    + apply intersects_throws. eauto.
    + done.
Qed.

Lemma comparePeers_aborts installedMap meta entries checks0 fixParts0 :
  Exists (readsUnparseable parse installedMap) entries ->
  exists e, comparePeers (Semver.intersects parse) installedMap meta entries
                         checks0 fixParts0 = Thrown e.
Proof.
  revert checks0 fixParts0.
  induction entries as [|[peerName requiredRange] entries IH];
    intros checks0 fixParts0; [by intros ?%Exists_nil|].
  intros Hex. simpl.
  destruct (checkPeer (Semver.intersects parse) installedMap meta peerName
              requiredRange) as [r|e] eqn:Hc; simpl; [|by eauto].
  apply Exists_cons in Hex as [Hhead|Htail]; [|by apply IH].
  apply (checkPeer_unparseable installedMap meta) in Hhead as [e He].
  simpl in He. congruence.
Qed.

Lemma comparePeers_completes installedMap meta entries checks0 fixParts0 :
  Forall (fun entry => ~ readsUnparseable parse installedMap entry) entries ->
  exists cs parts,
    comparePeers (Semver.intersects parse) installedMap meta entries
                 checks0 fixParts0 = Returned (checks0 ++ cs, fixParts0 ++ parts).
Proof.
  revert checks0 fixParts0.
  induction entries as [|[peerName requiredRange] entries IH];
    intros checks0 fixParts0 Hall; simpl.
  - exists [], []. by rewrite !app_nil_r.
  - apply Forall_cons in Hall as [Hhead Htail].
    destruct (checkPeer (Semver.intersects parse) installedMap meta peerName
                requiredRange) as [r|e] eqn:Hc; simpl.
    + destruct (IH (checks0 ++ [r.1]) (fixParts0 ++ r.2) Htail)
        as (cs & parts & ->).
      exists (r.1 :: cs), (r.2 ++ parts). by rewrite <- !app_assoc.
    + exfalso. apply Hhead.
      apply (checkPeer_unparseable installedMap meta (peerName, requiredRange)).
      eauto.
Qed.

Lemma PeerVerdict_classifies installedMap meta peerName requiredRange c pushed :
  PeerVerdict (Semver.intersects parse) installedMap meta peerName
              requiredRange c pushed ->
  classifies parse installedMap meta (peerName, requiredRange) c.
Proof.
  intros [Hnone _ Hopt|Hnone _ Hopt|installedRange Hin Hsi|installedRange Hin Hsi];
    unfold classifies; simpl; repeat split; try done.
  - by rewrite Hnone, Hopt.
  - by rewrite Hnone, Hopt.
  - rewrite Hin.
    apply intersects_returns in Hsi as (r1 & r2 & H1 & H2 & Hb).
    exists r1, r2. by rewrite <- Hb.
  - rewrite Hin.
    apply intersects_returns in Hsi as (r1 & r2 & H1 & H2 & Hb).
    exists r1, r2. by rewrite <- Hb.
Qed.

Lemma PeerVerdicts_classifies installedMap meta entries cs parts :
  PeerVerdicts (Semver.intersects parse) installedMap meta entries cs parts ->
  Forall2 (classifies parse installedMap meta) entries cs.
Proof.
  induction 1; constructor; [by eapply PeerVerdict_classifies | done].
Qed.

Lemma finalChecks_classifies installedMap meta entries cs :
  Forall2 (classifies parse installedMap meta) entries cs ->
  Forall2 (classifies parse installedMap meta) entries (finalChecks cs).
Proof.
  intros H. unfold finalChecks. destruct (existsb isFailing cs) eqn:Hex; [|done].
  destruct (attachCombinedFix_split (combinedFix cs) cs Hex)
    as (pre & c & post & -> & _ & _ & ->).
  apply Forall2_app_inv_r in H as (es1 & es2 & H1 & H2 & ->).
  apply Forall2_cons_inv_r in H2 as (e & es3 & Hc & H3 & ->).
  apply Forall2_app; [done|]. constructor; done.
Qed.
End UnparseableRanges.

(** C1, as the specification states it, fails: with react installed as
    "latest", which is no semver range, and a target that wants react
    ^18.0.0 and vue ^3.0.0, [checkCompatibility] raises the TypeError of
    [semver.intersects]; no report is returned, for react or for vue. *)
Lemma unparseable_installed_range_raises :
  (checkCompatibility (Semver.intersects Semver.parseRange)
     (sampleWorld latestManifest wantsReactAndVue) ∅ "some-pkg" projectDir).1
  = Thrown (TypeError "latest").
Proof. vm_compute. reflexivity. Qed.

(** What is read as the installed range of a peer is [installed[peerName]]:
    for a peer that the manifest does not declare but that bears the name
    of a member of [Object.prototype], such as the package constructor, it
    is that member, and [semver.intersects] throws on it. *)
Example inherited_peer_name_raises :
  (checkCompatibility (Semver.intersects Semver.parseRange)
     (sampleWorld (dependsOn ∅) wantsConstructor) ∅ "some-pkg" projectDir).1
  = Thrown (TypeError "range.trim is not a function").
Proof. vm_compute. reflexivity. Qed.

(** C1, amended. Once the manifest is read and the target has peer
    requirements, [checkCompatibility] raises exactly when some requirement
    makes it read something that is no semver range: it names a peer the
    manifest declares, whose installed or required range is no range, or it
    names a peer the manifest does not declare but whose name is that of a
    member of [Object.prototype], which is then read in place of the
    installed range.  The error of [semver.intersects] is not caught and no
    report is returned.  Otherwise a report is returned in which each
    installed peer is COMPATIBLE or INCOMPATIBLE as its two ranges intersect
    or not, and each other peer MISSING or OPTIONAL_MISSING; the required
    range of a peer that is not installed is never read. *)
Theorem unparseable_range_raises_else_classified
    (parse : string -> option Semver.Range)
    (w : World) (store store' : gmap string (CacheEntry CachedPeers))
    (packageName : string) (projectPath pkgJsonPath : Path)
    (installedMap : gmap string string) (peerData : CachedPeers) :
  findPackageJson w projectPath 3 = Some pkgJsonPath ->
  getInstalledPackages w pkgJsonPath = Returned installedMap ->
  fetchPeerDependencies w store packageName = (Returned (Some peerData), store') ->
  peers peerData <> [] ->
  let run := checkCompatibility (Semver.intersects parse) w store
                                packageName projectPath in
  (Exists (readsUnparseable parse installedMap) (peers peerData) ->
   exists e, run = (Thrown e, store'))
  /\ (Forall (fun entry => ~ readsUnparseable parse installedMap entry)
             (peers peerData) ->
      exists report,
        run = (Returned report, store')
        /\ Forall2 (classifies parse installedMap (meta peerData))
                   (peers peerData) (checks report)).
Proof.
  intros Hfind Hget Hfetch Hne run. subst run.
  rewrite (checkCompatibility_compares _ _ _ _ _ _ _ _ _ Hfind Hget Hfetch Hne).
  split.
  - intros Hex.
    destruct (comparePeers_aborts parse installedMap (meta peerData)
                (peers peerData) [] [] Hex) as [e ->]. eauto.
  - intros Hall.
    destruct (comparePeers_completes parse installedMap (meta peerData)
                (peers peerData) [] [] Hall) as (cs & parts & Hrun).
    rewrite Hrun. simpl. eexists. split; [reflexivity|]. cbn [checks].
    apply finalChecks_classifies.
    apply comparePeers_returns in Hrun as (cs' & parts' & Hvs & Hcs & _).
    simpl in Hcs. subst cs'. by eapply PeerVerdicts_classifies.
Qed.

(** ** The overlap decision *)

Module SemverFacts.
Import Semver.

Lemma compareIdentifiers_antisym a b :
  compareIdentifiers a b = CompOpp (compareIdentifiers b a).
Proof.
  destruct a as [x|x], b as [y|y]; simpl; try done.
  - apply N.compare_antisym.
  - apply String.compare_antisym.
Qed.

Lemma comparePreFrom_antisym a b :
  comparePreFrom a b = CompOpp (comparePreFrom b a).
Proof.
  revert b. induction a as [|x a IH]; intros [|y b]; simpl; try done.
  destruct (decide (x = y)) as [->|Hne].
  - rewrite decide_True by done. apply IH.
  - rewrite decide_False by congruence. apply compareIdentifiers_antisym.
Qed.

Lemma orElse_antisym c c' d d' :
  c = CompOpp c' -> d = CompOpp d' -> orElse c d = CompOpp (orElse c' d').
Proof. intros -> ->. by destruct c'. Qed.

Lemma compare_antisym a b : compare a b = CompOpp (compare b a).
Proof.
  unfold compare. destruct (decide (a = b)) as [->|Hne].
  - by rewrite decide_True.
  - rewrite decide_False by congruence.
    apply orElse_antisym.
    + unfold compareMain. repeat apply orElse_antisym; apply N.compare_antisym.
    + unfold comparePre.
      destruct (prerelease a) as [|x pa] eqn:Ha, (prerelease b) as [|y pb] eqn:Hb;
        try done.
      apply comparePreFrom_antisym.
Qed.

Lemma compare_refl a : compare a a = Eq.
Proof. unfold compare. by rewrite decide_True. Qed.

Lemma cmp_lt_gt a b : cmp a OpLt b = cmp b OpGt a.
Proof. unfold cmp. rewrite (compare_antisym b a). by destruct (compare a b). Qed.

Lemma cmp_eq_sym a b : cmp a OpEq b = cmp b OpEq a.
Proof. unfold cmp. rewrite (compare_antisym b a). by destruct (compare a b). Qed.

(** Two exact versions intersect when they compare equal. *)
Lemma exact_exact v1 v2 :
  Range_test (Range_of_value (Cmp OpEq v2)) v1 = cmp v1 OpEq v2.
Proof.
  unfold Range_of_value, Range_test, testSet. simpl.
  rewrite orb_false_r, andb_true_r.
  unfold cmp. unfold compare.
  destruct (decide (v1 = v2)) as [->|Hne].
  - destruct (prerelease v2) eqn:Hp; [done|]. by rewrite !N.eqb_refl.
  - destruct (orElse (compareMain v1 v2) (comparePre v1 v2)) eqn:Hc; try done.
    (* the versions compare equal without being the same: not the case *)
    exfalso. apply Hne.
    unfold orElse in Hc.
    destruct (compareMain v1 v2) eqn:Hm; try done.
    unfold compareMain, orElse in Hm.
    destruct (N.compare_spec (major v1) (major v2)) as [HM| |]; try done.
    destruct (N.compare_spec (minor v1) (minor v2)) as [Hmi| |]; try done.
    destruct (N.compare_spec (patch v1) (patch v2)) as [Hpa| |]; try done.
    assert (prerelease v1 = prerelease v2) as Hpre.
    { unfold comparePre in Hc.
      destruct (prerelease v1) as [|x p1], (prerelease v2) as [|y p2]; try done.
      remember (x :: p1) as l1. remember (y :: p2) as l2. clear -Hc.
      revert l2 Hc. induction l1 as [|a l1 IH]; intros [|b l2]; simpl; try done.
      destruct (decide (a = b)) as [->|Hab].
      - intros H. f_equal. by apply IH.
      - destruct a as [n|s], b as [m|t]; simpl; try done.
        + intros ?%N.compare_eq. congruence.
        + intros ?%String.compare_eq_iff. congruence. }
    destruct v1, v2; simpl in *; congruence.
Qed.

(** [Comparator.prototype.intersects] does not depend on the order of its
    arguments, except on the wildcard against an exact pre-release. *)
Lemma Comparator_intersects_sym c1 c2 :
  wildcardMeetsPrerelease c1 c2 = false ->
  Comparator_intersects c1 c2 = Comparator_intersects c2 c1.
Proof.
  unfold wildcardMeetsPrerelease.
  destruct c1 as [|op1 v1], c2 as [|op2 v2]; try done.
  - (* the wildcard first *)
    simpl. destruct op2; try done.
    intros Hq. unfold Range_of_value, Range_test, testSet. simpl.
    destruct (prerelease v2); [done | discriminate].
  - simpl. destruct op1; try done.
    rewrite orb_false_r, andb_true_r.
    intros Hq. unfold Range_of_value, Range_test, testSet. simpl.
    destruct (prerelease v1); [done | discriminate].
  - intros _.
    destruct op1, op2;
      try (unfold Comparator_intersects;
           rewrite (orb_comm (belowZero (Cmp _ v2)));
           rewrite ?(cmp_lt_gt v2 v1), ?(cmp_lt_gt v1 v2);
           cbn [startsWithGt startsWithLt includesEq andb];
           rewrite ?andb_false_r, ?andb_true_r;
           destruct (belowZero _ || belowZero _); try done;
           destruct (bool_decide (v1 = v2)) eqn:?, (bool_decide (v2 = v1)) eqn:?;
           try done;
           repeat match goal with
                  | H : bool_decide _ = true |- _ => apply bool_decide_eq_true in H
                  | H : bool_decide _ = false |- _ => apply bool_decide_eq_false in H
                  end; try congruence;
           by destruct (cmp v1 OpGt v2), (cmp v2 OpGt v1));
      try done.
    all: unfold Comparator_intersects; rewrite ?exact_exact; try apply cmp_eq_sym.
Qed.
End SemverFacts.

Module RangeFacts.
Import Semver SemverFacts.

Lemma no_wildcard_prerelease r1 r2 :
  meetsWildcardPrerelease r1 r2 = false ->
  forall set1 set2 c1 c2,
    In set1 r1 -> In set2 r2 -> In c1 set1 -> In c2 set2 ->
    wildcardMeetsPrerelease c1 c2 = false.
Proof.
  intros Hnone set1 set2 c1 c2 H1 H2 Hc1 Hc2.
  destruct (wildcardMeetsPrerelease c1 c2) eqn:Hq; [|done].
  assert (meetsWildcardPrerelease r1 r2 = true) as Hyes; [|congruence].
  unfold meetsWildcardPrerelease.
  apply existsb_exists. exists set1. split; [done|].
  apply existsb_exists. exists set2. split; [done|].
  apply existsb_exists. exists c1. split; [done|].
  apply existsb_exists. exists c2. done.
Qed.

Lemma wildcardMeetsPrerelease_comm c1 c2 :
  wildcardMeetsPrerelease c1 c2 = wildcardMeetsPrerelease c2 c1.
Proof.
  unfold wildcardMeetsPrerelease.
  by destruct (bool_decide (c1 = ANY)), (isExactPrerelease c1),
    (bool_decide (c2 = ANY)), (isExactPrerelease c2).
Qed.

(** One direction of the symmetry of [Range.prototype.intersects]. *)
Lemma Range_intersects_swap r1 r2 :
  (forall set1 set2 c1 c2,
     In set1 r1 -> In set2 r2 -> In c1 set1 -> In c2 set2 ->
     Comparator_intersects c1 c2 = Comparator_intersects c2 c1) ->
  Range_intersects r1 r2 = true -> Range_intersects r2 r1 = true.
Proof.
  intros Hsym. unfold Range_intersects.
  intros (set1 & H1 & [Hsat1 H]%andb_true_iff)%existsb_exists.
  apply existsb_exists in H as (set2 & H2 & [Hsat2 Hall]%andb_true_iff).
  apply existsb_exists. exists set2. split; [done|]. rewrite Hsat2. simpl.
  apply existsb_exists. exists set1. split; [done|]. rewrite Hsat1. simpl.
  apply forallb_forall. intros c2 Hc2. apply forallb_forall. intros c1 Hc1.
  rewrite forallb_forall in Hall. specialize (Hall c1 Hc1).
  rewrite forallb_forall in Hall. rewrite <- (Hsym set1 set2 c1 c2) by done.
  by apply Hall.
Qed.

Lemma Range_intersects_sym r1 r2 :
  meetsWildcardPrerelease r1 r2 = false ->
  Range_intersects r1 r2 = Range_intersects r2 r1.
Proof.
  intros Hnone. pose proof (no_wildcard_prerelease r1 r2 Hnone) as Hq.
  apply eq_true_iff_eq. split; apply Range_intersects_swap.
  - intros set1 set2 c1 c2 ? ? ? ?. apply Comparator_intersects_sym. eauto.
  - intros set2 set1 c2 c1 ? ? ? ?. apply Comparator_intersects_sym.
    rewrite wildcardMeetsPrerelease_comm. eauto.
Qed.
End RangeFacts.

(** C9, as the specification states it, fails: the installed version
    1.0.0-beta against the required range "*" does not overlap, while "*"
    against 1.0.0-beta does. *)
Lemma overlap_is_not_symmetric :
  Semver.intersects Semver.parseRange "1.0.0-beta" "*" = Returned false
  /\ Semver.intersects Semver.parseRange "*" "1.0.0-beta" = Returned true.
Proof. split; vm_compute; reflexivity. Qed.

(** C9, amended. The overlap decision is symmetric for every pair of range
    strings that parse, except where a wildcard comparator on one side meets
    an exact pre-release version on the other; it decides by intersection of
    ranges, not by containment of one version: ^17.0.0 against ^18.0.0 is
    false and >=17.0.0 <19.0.0 against ^18.0.0 is true, in either order. *)
Theorem overlap_symmetric_off_wildcard_prerelease :
  (forall (parse : string -> option Semver.Range) (a b : string)
          (r1 r2 : Semver.Range),
     parse a = Some r1 -> parse b = Some r2 ->
     Semver.meetsWildcardPrerelease r1 r2 = false ->
     Semver.intersects parse a b = Semver.intersects parse b a)
  /\ Semver.intersects Semver.parseRange "^17.0.0" "^18.0.0" = Returned false
  /\ Semver.intersects Semver.parseRange "^18.0.0" "^17.0.0" = Returned false
  /\ Semver.intersects Semver.parseRange ">=17.0.0 <19.0.0" "^18.0.0" = Returned true
  /\ Semver.intersects Semver.parseRange "^18.0.0" ">=17.0.0 <19.0.0" = Returned true.
Proof.
  split.
  - intros parse a b r1 r2 Ha Hb Hnone. unfold Semver.intersects.
    rewrite Ha, Hb. f_equal. by apply RangeFacts.Range_intersects_sym.
  - repeat split; vm_compute; reflexivity.
Qed.

Lemma overlap_symmetric_off_wildcard_prerelease_witness :
  Semver.intersects Semver.parseRange ">=17.0.0 <19.0.0" "^18.0.0 || 1.0.0-beta"
  = Semver.intersects Semver.parseRange "^18.0.0 || 1.0.0-beta" ">=17.0.0 <19.0.0".
Proof.
  eapply (proj1 overlap_symmetric_off_wildcard_prerelease Semver.parseRange);
    vm_compute; reflexivity.
Defined.

(** ** The security checker *)

Lemma existsb_critical vs :
  existsb (has_severity CRITICAL) vs = true <->
  Exists (fun v => severity v = CRITICAL) vs.
Proof.
  induction vs as [|v vs IH]; simpl.
  - split; [discriminate | by intros ?%Exists_nil].
  - unfold has_severity at 1.
    by rewrite orb_true_iff, Exists_cons, IH, bool_decide_eq_true.
Qed.

Lemma emptyReport_matches packageName :
  flagMatchesList {| sr_packageName := packageName; vulnerabilities := [];
                     hasCritical := false |}.
Proof. unfold flagMatchesList. simpl. split; [discriminate | by intros ?%Exists_nil]. Qed.

Lemma cache_get_matches (i : Io) store key answer store' :
  storeMatches store ->
  cache_get i store key = (answer, store') ->
  storeMatches store'
  /\ forall report, answer = Returned (Some report) -> flagMatchesList report.
Proof.
  intros Hstore. unfold cache_get.
  destruct (ensureDir i); [|by intros [= <- <-]].
  destruct (store !! key) as [entry|] eqn:Hentry; [|by intros [= <- <-]].
  destruct (ttl entry <? now i - timestamp entry)%Z; intros [= <- <-].
  - split; [|done]. destruct (unlinkOk i); [|done].
    intros k e [_ Hk]%lookup_delete_Some. by eapply Hstore.
  - split; [done|]. intros report [= <-]. by eapply Hstore.
Qed.

Lemma cache_set_matches (i : Io) store key report ttl answer store' :
  storeMatches store -> flagMatchesList report ->
  cache_set i store key report ttl = (answer, store') ->
  storeMatches store'.
Proof.
  intros Hstore Hreport. unfold cache_set.
  destruct (ensureDir i); [|by intros [= <- <-]].
  destruct (writeOk i); intros [= <- <-]; [|done].
  intros k e [[<- <-]|[_ Hk]]%lookup_insert_Some; [done|]. by eapply Hstore.
Qed.

Section SecurityFacts.
Variable parseFloat : string -> JsNumber.

Lemma querySecurity_matches w store cacheKey packageName version answer store' :
  storeMatches store ->
  querySecurity parseFloat w store cacheKey packageName version
    {| sr_packageName := packageName; vulnerabilities := [];
       hasCritical := false |} = (answer, store') ->
  storeMatches store'
  /\ forall report, answer = Returned report -> flagMatchesList report.
Proof.
  intros Hstore. unfold querySecurity.
  pose proof (emptyReport_matches packageName) as Hempty.
  destruct (osv w packageName version) as [res|e]; [|by intros [= <- <-]].
  destruct (ok res); simpl.
  2:{ intros [= <- <-]. split; [done|]. by intros report [= <-]. }
  destruct (json res) as [data|e]; [|by intros [= <- <-]].
  assert (forall report,
            flagMatchesList report ->
            match cache_set (sio w) store cacheKey report SECURITY_CACHE_TTL_MS with
            | (Thrown e, store0) => (Thrown e, store0)
            | (Returned _, store0) => (Returned report, store0)
            end = (answer, store') ->
            storeMatches store'
            /\ forall r, answer = Returned r -> flagMatchesList r) as Hset.
  { intros report Hreport.
    destruct (cache_set _ _ _ _ _) as [[[]|e] store0] eqn:Hcs; intros [= <- <-].
    - split; [by eapply cache_set_matches|]. by intros r [= <-].
    - split; [by eapply cache_set_matches|]. done. }
  destruct (vulns data) as [[|v vs]|]; [by apply Hset| |by apply Hset].
  apply Hset. unfold flagMatchesList. cbn [hasCritical vulnerabilities].
  apply existsb_critical.
Qed.

(** One call keeps the cache directory in order and answers in order. *)
Lemma checkSecurity_matches w store packageName version answer store' :
  storeMatches store ->
  checkSecurity parseFloat w store packageName version = (answer, store') ->
  storeMatches store'
  /\ forall report, answer = Returned report -> flagMatchesList report.
Proof.
  intros Hstore. unfold checkSecurity.
  destruct (cache_get _ _ _) as [[[cached|]|e] store0] eqn:Hget.
  - intros [= <- <-].
    destruct (cache_get_matches _ _ _ _ _ Hstore Hget) as [Hs Hr].
    split; [done|]. intros report [= <-]. by apply Hr.
  - destruct (cache_get_matches _ _ _ _ _ Hstore Hget) as [Hs _].
    destruct (querySecurity _ _ _ _ _ _ _) as [[report|e] store1] eqn:Hq;
      intros [= <- <-];
      destruct (querySecurity_matches _ _ _ _ _ _ _ Hs Hq) as [Hs1 Hr1].
    + split; [done|]. intros r [= <-]. by apply Hr1.
    + split; [done|]. intros r [= <-]. apply emptyReport_matches.
  - intros [= <- <-].
    destruct (cache_get_matches _ _ _ _ _ Hstore Hget) as [Hs _]. done.
Qed.

Lemma securitySession_matches calls store :
  storeMatches store ->
  Forall (fun answer => forall report,
            answer = Returned report -> flagMatchesList report)
         (securitySession parseFloat calls store).
Proof.
  revert store. induction calls as [|[[w packageName] version] calls IH];
    intros store Hstore; simpl; [constructor|].
  destruct (checkSecurity parseFloat w store packageName version)
    as [answer store'] eqn:Hcall.
  destruct (checkSecurity_matches _ _ _ _ _ _ Hstore Hcall) as [Hs Hr].
  constructor; [done | by apply IH].
Qed.

Lemma checkSecurity_error_path w store packageName version :
  cacheMiss (sio w) store ("security:" +:+ packageName +:+ "@" +:+ version) ->
  OsvFails w packageName version ->
  exists store',
    checkSecurity parseFloat w store packageName version =
      (Returned {| sr_packageName := packageName; vulnerabilities := [];
                   hasCritical := false |}, store').
Proof.
  intros Hmiss Hfail. unfold checkSecurity.
  destruct (cache_get_miss _ _ _ Hmiss) as (store' & ->).
  unfold querySecurity.
  destruct Hfail as [e He|res Hres Hok].
  - rewrite He. eauto.
  - rewrite Hres, Hok. simpl. eauto.
Qed.
End SecurityFacts.

(** C10. In every report a session of [checkSecurity] calls returns, from a
    cache directory that starts empty and whatever the OSV service and the
    file system answer at each call, [hasCritical] is true exactly when some
    vulnerability of the report is CRITICAL; and a call that finds nothing in
    the cache and whose request fails or is answered with an error status
    returns the report with no vulnerability and [hasCritical] false. *)
Theorem hasCritical_iff_some_critical
    (parseFloat : string -> JsNumber)
    (calls : list (SecurityWorld * string * string)) :
  Forall (fun answer => forall report,
            answer = Returned report ->
            (hasCritical report = true <->
             Exists (fun v => severity v = CRITICAL) (vulnerabilities report)))
         (securitySession parseFloat calls ∅)
  /\ forall w store packageName version,
       cacheMiss (sio w) store
                 ("security:" +:+ packageName +:+ "@" +:+ version) ->
       OsvFails w packageName version ->
       exists store',
         checkSecurity parseFloat w store packageName version =
           (Returned {| sr_packageName := packageName; vulnerabilities := [];
                        hasCritical := false |}, store').
Proof.
  split.
  - apply securitySession_matches. intros key entry. by rewrite lookup_empty.
  - apply checkSecurity_error_path.
Qed.

(** ** Scenarios of the specification, run *)

Lemma scenarioA_runs :
  checkCompatibility (Semver.intersects Semver.parseRange) scenarioA ∅
                     "some-pkg" projectDir
  = (Returned scenarioAReport,
     cacheAfterFetch "some-pkg" (publishes [("react", "^18.0.0")] ∅)).
Proof. vm_compute. reflexivity. Qed.

Lemma compatible_iff_no_failing_check_witness :
  compatible scenarioAReport = false <->
  Exists (fun c => status c = MISSING \/ status c = INCOMPATIBLE)
         (checks scenarioAReport).
Proof.
  refine (proj1 (proj2 (compatible_iff_no_failing_check
                          (Semver.intersects Semver.parseRange) scenarioA ∅
                          (cacheAfterFetch "some-pkg"
                             (publishes [("react", "^18.0.0")] ∅))
                          "some-pkg" projectDir scenarioAReport _))).
  vm_compute. reflexivity.
Defined.

Lemma manyPeers_runs :
  (checkCompatibility (Semver.intersects Semver.parseRange) manyPeers ∅
                      "some-pkg" projectDir).1
  = Returned manyPeersReport.
Proof. vm_compute. reflexivity. Qed.

Lemma fixCommand_iff_failing_one_combined_witness :
  Forall (fun c => is_Some (fixCommand c) <->
                   status c = MISSING \/ status c = INCOMPATIBLE)
         (checks manyPeersReport)
  /\ (Exists (fun c => status c = MISSING \/ status c = INCOMPATIBLE)
             (checks manyPeersReport) ->
      exists pre first post,
        checks manyPeersReport = pre ++ first :: post
        /\ Forall (fun c => status c = COMPATIBLE \/ status c = OPTIONAL_MISSING) pre
        /\ (status first = MISSING \/ status first = INCOMPATIBLE)
        /\ fixCommand first = Some (combinedFix (checks manyPeersReport))
        /\ Forall (fun c => fixCommand c <> Some (combinedFix (checks manyPeersReport)))
                  (pre ++ post)
        /\ Forall (fun c => status c = MISSING \/ status c = INCOMPATIBLE ->
                            fixCommand c = Some (individualFix c)) post).
Proof.
  refine (fixCommand_iff_failing_one_combined
            (Semver.intersects Semver.parseRange) manyPeers ∅
            (cacheAfterFetch "some-pkg"
               (publishes [("left-pad", "*"); ("react", "^18.0.0");
                           ("vue", "^3.0.0"); ("types", "1.x")]
                          {[ "types" := {| optional := Some true |} ]}))
            "some-pkg" projectDir manyPeersReport _).
  vm_compute. reflexivity.
Defined.


(** The other two reasons of C8, run: no manifest anywhere, and a registry
    that cannot be reached. *)
Example no_manifest_empty_report :
  (checkCompatibility (Semver.intersects Semver.parseRange) scenarioA ∅
                      "some-pkg" ["absent"; "path"]).1
  = Returned {| packageName := "some-pkg"; checks := []; compatible := true |}.
Proof. vm_compute. reflexivity. Qed.

Example registry_down_empty_report :
  (checkCompatibility (Semver.intersects Semver.parseRange)
     {| io := quietIo;
        fs_access := fs_access scenarioA;
        readManifest := readManifest scenarioA;
        registry := fun _ => Thrown (SystemError "ENOTFOUND") |}
     ∅ "some-pkg" projectDir).1
  = Returned {| packageName := "some-pkg"; checks := []; compatible := true |}.
Proof. vm_compute. reflexivity. Qed.

Lemma unparseable_range_raises_else_classified_witness :
  exists e,
    checkCompatibility (Semver.intersects Semver.parseRange)
      (sampleWorld latestManifest wantsReactAndVue) ∅ "some-pkg" projectDir
    = (Thrown e, cacheAfterFetch "some-pkg" wantsReactAndVue).
Proof.
  refine (proj1 (unparseable_range_raises_else_classified Semver.parseRange
                   (sampleWorld latestManifest wantsReactAndVue) ∅
                   (cacheAfterFetch "some-pkg" wantsReactAndVue)
                   "some-pkg" projectDir manifestPath
                   {[ "react" := "latest" ]} (peersOf wantsReactAndVue)
                   _ _ _ _) _).
  - reflexivity.
  - vm_compute. reflexivity.
  - vm_compute. reflexivity.
  - discriminate.
  - apply Exists_cons_hd. unfold readsUnparseable. vm_compute. left. reflexivity.
Defined.

(** A session of two calls for the same package and version: the first
    finds a critical and a moderate vulnerability, the second is answered
    from the cache although the service is down by then. *)
Example session_with_critical :
  securitySession sampleParseFloat
    [ (osvAnswers [scoredVuln "GHSA-1" "9.8"; scoredVuln "GHSA-2" "5.3"],
       "request", "2.88.2");
      (osvDown, "request", "2.88.2");
      (osvDown, "left-pad", "1.3.0") ] ∅
  = let found :=
      {| sr_packageName := "request";
         vulnerabilities :=
           [ {| id := "GHSA-1"; summary := "No description available";
                severity := CRITICAL; affectedVersions := "unknown"; url := "" |};
             {| id := "GHSA-2"; summary := "No description available";
                severity := MODERATE; affectedVersions := "unknown"; url := "" |} ];
         hasCritical := true |} in
    [ Returned found; Returned found;
      Returned {| sr_packageName := "left-pad"; vulnerabilities := [];
                  hasCritical := false |} ].
Proof. vm_compute. reflexivity. Qed.


(** * Further properties *)

(** ** The scoring engine, factor by factor *)

Lemma count_failing cs :
  (count_where (has_status MISSING) cs + count_where (has_status INCOMPATIBLE) cs)%nat
  = count_where isFailing cs.
Proof.
  unfold count_where, isFailing, has_status.
  induction cs as [|c cs IH]; simpl; [done|].
  destruct (status c); simpl; lia.
Qed.

Lemma scoreCompatibility_value report :
  checks report <> [] ->
  rf_score (scoreCompatibility report) =
    Math_round
      (double_mul 40
         (double_sub 1
            (Qmin (binary64 (inject_nat (failingCount report)
                             / inject_nat (length (checks report)))) 1))).
Proof.
  intros Hne. unfold scoreCompatibility.
  destruct (Nat.eqb_spec (length (checks report)) 0) as [Hz|Hnz].
  { destruct (checks report); [done | discriminate]. }
  cbn [rf_score]. rewrite count_failing. reflexivity.
Qed.

Lemma inject_nat_le n m : (n <= m)%nat -> (inject_nat n <= inject_nat m)%Q.
Proof. intros H. unfold inject_nat. rewrite <- Zle_Qle. lia. Qed.


(** X1. Among reports with the same number of checks, one with at least as
    many failing checks never has the higher compatibility factor. *)
Theorem scoreCompatibility_antitone (r1 r2 : CompatibilityReport) :
  length (checks r1) = length (checks r2) ->
  (failingCount r1 <= failingCount r2)%nat ->
  rf_score (scoreCompatibility r2) <= rf_score (scoreCompatibility r1).
Proof.
  intros Hlen Hfail.
  destruct (decide (checks r1 = [])) as [He|Hne].
  { assert (checks r2 = []) as He2.
    { rewrite He in Hlen. by destruct (checks r2). }
    unfold scoreCompatibility. by rewrite He, He2. }
  assert (checks r2 <> []) as Hne2.
  { intros He2. rewrite He2 in Hlen. by destruct (checks r1). }
  rewrite !scoreCompatibility_value by done. rewrite <- Hlen.
  assert (0 < length (checks r1))%nat as Hpos.
  { destruct (checks r1); [done | simpl; lia]. }
  pose proof (inject_nat_pos _ Hpos) as Ht.
  pose proof (inject_nat_le _ _ Hfail) as Hq.
  apply (weighted_round_antitone 40); [done|]. unfold Qdiv.
  apply Qmult_le_compat_r; [done|]. apply Qinv_le_0_compat. lra.
Qed.

Lemma scoreCompatibility_antitone_witness :
  rf_score (scoreCompatibility allFourFail)
  <= rf_score (scoreCompatibility oneOfFourFails).
Proof.
  apply scoreCompatibility_antitone.
  - reflexivity.
  - vm_compute. lia.
Defined.


Lemma failingCount_none report :
  Forall (fun c => status c = COMPATIBLE \/ status c = OPTIONAL_MISSING)
         (checks report) ->
  failingCount report = 0%nat.
Proof.
  unfold failingCount, count_where.
  induction 1 as [|c cs Hc _ IH]; simpl; [done|].
  apply not_failing_passing in Hc. by rewrite Hc.
Qed.

Lemma failingCount_all report :
  Forall (fun c => status c = MISSING \/ status c = INCOMPATIBLE)
         (checks report) ->
  failingCount report = length (checks report).
Proof.
  unfold failingCount, count_where.
  induction 1 as [|c cs Hc _ IH]; simpl; [done|].
  apply isFailing_status in Hc. rewrite Hc. simpl. by rewrite IH.
Qed.

Lemma scoreCompatibility_no_failure report :
  failingCount report = 0%nat ->
  rf_score (scoreCompatibility report) = 40.
Proof.
  intros Hzero.
  destruct (decide (checks report = [])) as [He|Hne].
  { unfold scoreCompatibility. by rewrite He. }
  rewrite scoreCompatibility_value, Hzero by done.
  assert (0 < length (checks report))%nat as Hpos.
  { destruct (checks report); [done | simpl; lia]. }
  pose proof (inject_nat_pos _ Hpos) as Ht.
  apply (weighted_round_no_penalty 40); [exact binary64_40|].
  change (inject_nat 0) with 0%Q. field. lra.
Qed.

(** X2. The compatibility factor is the full 40 when every check is
    COMPATIBLE or OPTIONAL_MISSING (absent optional peers cost nothing), and
    0 when there are checks and every one is MISSING or INCOMPATIBLE. *)
Theorem scoreCompatibility_extremes (report : CompatibilityReport) :
  (Forall (fun c => status c = COMPATIBLE \/ status c = OPTIONAL_MISSING)
          (checks report) ->
   rf_score (scoreCompatibility report) = 40)
  /\ (checks report <> [] ->
      Forall (fun c => status c = MISSING \/ status c = INCOMPATIBLE)
             (checks report) ->
      rf_score (scoreCompatibility report) = 0).
Proof.
  split.
  - intros H. by apply scoreCompatibility_no_failure, failingCount_none.
  - intros Hne H.
    rewrite scoreCompatibility_value, (failingCount_all _ H) by done.
    assert (0 < length (checks report))%nat as Hpos.
    { destruct (checks report); [done | simpl; lia]. }
    pose proof (inject_nat_pos _ Hpos) as Ht.
    apply (weighted_round_full_penalty 40).
    apply Qle_shift_div_l; [done|]. lra.
Qed.

Lemma scoreCompatibility_extremes_witness :
  rf_score (scoreCompatibility allFourFail) = 0.
Proof.
  apply (proj2 (scoreCompatibility_extremes allFourFail)).
  - discriminate.
  - repeat (apply Forall_cons; split; [simpl; auto|]). apply Forall_nil. exact I.
Defined.

Lemma severityCount_app s vs more :
  severityCount s (vs ++ more) = (severityCount s vs + severityCount s more)%nat.
Proof. induction vs as [|v vs IH]; simpl; [done|]. rewrite IH. lia. Qed.

Lemma scoreSecurity_points report :
  rf_score (scoreSecurity report) =
    Z.max 0 (30 - (15 * Z.of_nat (severityCount CRITICAL (vulnerabilities report))
                   + 8 * Z.of_nat (severityCount HIGH (vulnerabilities report))
                   + 3 * Z.of_nat (severityCount MODERATE (vulnerabilities report)))).
Proof.
  destruct (decide (vulnerabilities report = [])) as [He|Hne].
  - rewrite scoreSecurity_empty by done. rewrite He. reflexivity.
  - rewrite scoreSecurity_closed_form by done.
    rewrite !count_where_severityCount. f_equal. lia.
Qed.

(** X3. Finding more vulnerabilities never raises the security factor: the
    factor of a report extended by any vulnerabilities is at most the factor
    of the report. *)
Theorem scoreSecurity_antitone (report : SecurityReport)
    (more : list SecurityVulnerability) :
  rf_score (scoreSecurity (withMore report more))
  <= rf_score (scoreSecurity report).
Proof.
  rewrite !scoreSecurity_points. unfold withMore. cbn [vulnerabilities].
  rewrite !severityCount_app. lia.
Qed.


Lemma scoreMaintenance_points now info :
  rf_score (scoreMaintenance now (Some info)) =
    Z.max (15 - stalenessPoints now info - maintainerPoints info
           - downloadPoints info) 0.
Proof.
  unfold scoreMaintenance, stalenessPoints, maintainerPoints, downloadPoints,
    WEIGHT_MAINTENANCE.
  destruct (lastPublish info) as [published|];
    repeat match goal with
           | |- context [if ?b then _ else _] => destruct b
           end; reflexivity.
Qed.

Lemma stalenessPoints_mono now1 now2 info :
  now1 <= now2 -> stalenessPoints now1 info <= stalenessPoints now2 info.
Proof.
  intros Hle. unfold stalenessPoints.
  destruct (lastPublish info) as [published|]; [|lia].
  assert ((now1 - published) / (1000 * 60 * 60 * 24)
          <= (now2 - published) / (1000 * 60 * 60 * 24)) as Hdays
    by (apply Z.div_le_mono; lia).
  cbv zeta.
  repeat match goal with
         | |- context [(?a <? ?b)%Z] => destruct (Z.ltb_spec a b)
         end; lia.
Qed.

(** X4. As time passes the maintenance factor of a package never rises:
    computed at a later instant, it is at most what it was. *)
Theorem scoreMaintenance_antitone_in_time
    (now1 now2 : Z) (info : option PackageInfo) :
  now1 <= now2 ->
  rf_score (scoreMaintenance now2 info) <= rf_score (scoreMaintenance now1 info).
Proof.
  intros Hle. destruct info as [i|]; [|simpl; lia].
  rewrite !scoreMaintenance_points.
  pose proof (stalenessPoints_mono now1 now2 i Hle). lia.
Qed.

Lemma scoreMaintenance_antitone_in_time_witness :
  rf_score (scoreMaintenance (800 * 86400000) (Some (sampleInfo None 0 5 1000)))
  <= rf_score (scoreMaintenance 0 (Some (sampleInfo None 0 5 1000))).
Proof. apply scoreMaintenance_antitone_in_time. lia. Defined.

Lemma actionOf_antitone a b :
  a <= b -> (actionRank (actionOf b) <= actionRank (actionOf a))%nat.
Proof.
  intros Hle. unfold actionOf.
  repeat match goal with
         | |- context [(?x <? ?y)%Z] => destruct (Z.ltb_spec x y)
         end; simpl; lia.
Qed.

(** X5. Metadata that is unavailable is scored like the best metadata:
    with the same compatibility and security reports, the score without
    package info is at least the score with any package info, and the action
    is at least as permissive. *)
Theorem unavailable_metadata_scores_best
    (now : Z) (compatibility : CompatibilityReport) (security : SecurityReport)
    (info : PackageInfo) :
  score (calculateRiskScore now compatibility security (Some info))
  <= score (calculateRiskScore now compatibility security None)
  /\ (actionRank (action (calculateRiskScore now compatibility security None))
      <= actionRank (action (calculateRiskScore now compatibility security
                                                 (Some info))))%nat.
Proof.
  assert (score (calculateRiskScore now compatibility security (Some info))
          <= score (calculateRiskScore now compatibility security None)) as Hle.
  { rewrite !calculateRiskScore_score.
    pose proof (scoreDeprecation_bounds (Some info)).
    pose proof (scoreMaintenance_bounds now (Some info)).
    unfold WEIGHT_DEPRECATION, WEIGHT_MAINTENANCE in *.
    change (rf_score (scoreDeprecation None)) with 15.
    change (rf_score (scoreMaintenance now None)) with 15. lia. }
  split; [done|]. rewrite !calculateRiskScore_action. by apply actionOf_antitone.
Qed.

(** X6. A package whose peer checks all pass and that has no known
    vulnerability is never blocked, whatever its metadata: its score is at
    least 70. *)
Theorem satisfied_and_clean_never_BLOCK
    (now : Z) (compatibility : CompatibilityReport) (security : SecurityReport)
    (packageInfo : option PackageInfo) :
  Forall (fun c => status c = COMPATIBLE \/ status c = OPTIONAL_MISSING)
         (checks compatibility) ->
  vulnerabilities security = [] ->
  70 <= score (calculateRiskScore now compatibility security packageInfo)
  /\ action (calculateRiskScore now compatibility security packageInfo) <> BLOCK.
Proof.
  intros Hpass Hclean.
  assert (70 <= score (calculateRiskScore now compatibility security packageInfo))
    as Hle.
  { rewrite calculateRiskScore_score.
    rewrite scoreCompatibility_no_failure by by apply failingCount_none.
    rewrite scoreSecurity_empty by done.
    pose proof (scoreDeprecation_bounds packageInfo).
    pose proof (scoreMaintenance_bounds now packageInfo).
    unfold WEIGHT_SECURITY in *. lia. }
  split; [done|]. rewrite calculateRiskScore_action.
  destruct (actionOf_spec
              (score (calculateRiskScore now compatibility security packageInfo)))
    as (_ & _ & Hb).
  intros Hblock%Hb. lia.
Qed.

Lemma satisfied_and_clean_never_BLOCK_witness :
  70 <= score (calculateRiskScore 0 noPeersReport cleanSecurity
                 (Some (sampleInfo (Some "use X instead") 800 0 12)))
  /\ action (calculateRiskScore 0 noPeersReport cleanSecurity
               (Some (sampleInfo (Some "use X instead") 800 0 12))) <> BLOCK.
Proof.
  apply satisfied_and_clean_never_BLOCK; [apply Forall_nil; exact I | reflexivity].
Defined.

(** X7. A report with a single vulnerability loses 15, 8, 3 or 0 points of
    the security factor as the vulnerability is critical, high, moderate or
    low; so with all peer checks passing and no metadata, one vulnerability,
    even a critical one, still gives ALLOW. *)
Theorem one_vulnerability_still_ALLOW
    (security : SecurityReport) (v : SecurityVulnerability) :
  vulnerabilities security = [v] ->
  rf_score (scoreSecurity security) = 30 - severityPoints (severity v)
  /\ forall now compatibility,
       Forall (fun c => status c = COMPATIBLE \/ status c = OPTIONAL_MISSING)
              (checks compatibility) ->
       action (calculateRiskScore now compatibility security None) = ALLOW.
Proof.
  intros Hone.
  assert (rf_score (scoreSecurity security) = 30 - severityPoints (severity v))
    as Hscore.
  { rewrite scoreSecurity_points, Hone. simpl.
    destruct (severity v); simpl; lia. }
  split; [done|]. intros now compatibility Hpass.
  rewrite calculateRiskScore_action.
  apply (proj1 (actionOf_spec _)).
  rewrite calculateRiskScore_score, Hscore.
  rewrite scoreCompatibility_no_failure by by apply failingCount_none.
  change (rf_score (scoreDeprecation None)) with 15.
  change (rf_score (scoreMaintenance now None)) with 15.
  destruct (severity v); simpl; lia.
Qed.

Lemma one_vulnerability_still_ALLOW_witness :
  rf_score (scoreSecurity
              {| sr_packageName := "request";
                 vulnerabilities := [criticalVulnerability];
                 hasCritical := true |}) = 30 - 15.
Proof.
  apply (proj1 (one_vulnerability_still_ALLOW
                  {| sr_packageName := "request";
                     vulnerabilities := [criticalVulnerability];
                     hasCritical := true |} criticalVulnerability eq_refl)).
Defined.


(** ** The security checker, further *)

Lemma find_isCvss3_singleton e :
  default e (List.find isCvss3 [e]) = e.
Proof. simpl. by destruct (isCvss3 e). Qed.

(** X8. The severity of a vulnerability is decided by one entry of its
    severity list alone: the first entry of type CVSS_V3 when there is one,
    whatever stands before or after it, and the first entry otherwise. *)
Theorem normalizeSeverity_one_entry_decides
    (parseFloat : string -> JsNumber) (first : OsvSeverityEntry)
    (rest : list OsvSeverityEntry) :
  (forall e, List.find isCvss3 (first :: rest) = Some e ->
             normalizeSeverity parseFloat (Some (first :: rest))
             = normalizeSeverity parseFloat (Some [e]))
  /\ (List.find isCvss3 (first :: rest) = None ->
      normalizeSeverity parseFloat (Some (first :: rest))
      = normalizeSeverity parseFloat (Some [first])).
Proof.
  split.
  - intros e He. unfold normalizeSeverity. fold isCvss3.
    rewrite He. by rewrite find_isCvss3_singleton.
  - intros Hnone. unfold normalizeSeverity. fold isCvss3.
    rewrite Hnone. by rewrite find_isCvss3_singleton.
Qed.

Lemma normalizeSeverity_one_entry_decides_witness :
  normalizeSeverity sampleParseFloat
    (Some [severityEntry "CVSS_V2" "5.3"; severityEntry "CVSS_V3" "9.8";
           severityEntry "CVSS_V3" "5.3"])
  = normalizeSeverity sampleParseFloat (Some [severityEntry "CVSS_V3" "9.8"]).
Proof.
  apply (proj1 (normalizeSeverity_one_entry_decides sampleParseFloat
                  (severityEntry "CVSS_V2" "5.3")
                  [severityEntry "CVSS_V3" "9.8"; severityEntry "CVSS_V3" "5.3"])).
  reflexivity.
Defined.

(** X9. The severity falls back to MODERATE whenever no entry of the
    severity list has a score that parses: so a vulnerability whose scores
    are all absent, empty or not numbers is MODERATE, never CRITICAL. *)
Theorem normalizeSeverity_falls_back_to_MODERATE
    (parseFloat : string -> JsNumber)
    (sevEntries : option (list OsvSeverityEntry)) :
  Forall (undecidable parseFloat) (default [] sevEntries) ->
  normalizeSeverity parseFloat sevEntries = MODERATE.
Proof.
  intros Hall. unfold normalizeSeverity.
  destruct sevEntries as [[|first rest]|]; try done.
  fold isCvss3. simpl in Hall.
  assert (undecidable parseFloat
            (default first (List.find isCvss3 (first :: rest)))) as Hchosen.
  { destruct (List.find isCvss3 (first :: rest)) as [e|] eqn:He; simpl.
    - apply List.find_some in He as [Hin _].
      rewrite Forall_forall in Hall. apply Hall. by apply list_elem_of_In.
    - by apply Forall_cons in Hall as [? _]. }
  unfold undecidable in Hchosen.
  destruct (truthy _) as [scoreStr|]; [|done]. by rewrite Hchosen.
Qed.

Lemma normalizeSeverity_falls_back_to_MODERATE_witness :
  normalizeSeverity sampleParseFloat
    (Some [severityEntry "CVSS_V3" "CVSS:3.1/AV:N/AC:L/PR:N/UI:N/S:U/C:H/I:H/A:H"])
  = MODERATE.
Proof.
  apply normalizeSeverity_falls_back_to_MODERATE.
  apply Forall_cons. split; [reflexivity | apply Forall_nil; exact I].
Defined.

Lemma join_nonempty sep p parts : p <> "" -> join sep (p :: parts) <> "".
Proof.
  intros Hp. destruct p as [|ch p]; [done|]. simpl. by destruct parts.
Qed.

Lemma eventParts_nonempty event :
  Forall (fun part => part <> "") (eventParts event).
Proof.
  unfold eventParts. apply Forall_app. split.
  - destruct (truthy (introduced event)); constructor; done.
  - destruct (truthy (fixed event)); constructor; done.
Qed.

(** X10. The affected-versions text of a vulnerability is never empty: it
    is "unknown" when no event of any range names a version, and otherwise
    the bounds of the events, each starting with its comparison sign. *)
Theorem extractAffectedVersions_never_empty
    (affected : option (list OsvAffected)) :
  extractAffectedVersions affected <> ""
  /\ ((entry ← default [] affected;
       range ← default [] (ranges entry);
       event ← default [] (events range);
       eventParts event) = [] ->
      extractAffectedVersions affected = "unknown").
Proof.
  unfold extractAffectedVersions.
  destruct affected as [[|entry entries]|]; try done.
  set (parts := _ : list string).
  assert (Forall (fun part => part <> "") parts) as Hparts.
  { subst parts. apply Forall_bind. apply Forall_true. intros e.
    apply Forall_bind. apply Forall_true. intros r.
    apply Forall_bind. apply Forall_true. intros ev.
    apply eventParts_nonempty. }
  split.
  - destruct parts as [|p ps]; [done|]. simpl (0 <? _)%nat. cbv iota.
    apply Forall_cons in Hparts as [Hp _]. by apply join_nonempty.
  - simpl default. fold parts. by intros ->.
Qed.


(** X11. The link of a vulnerability is empty or the URL of one of its
    references: [pickUrl] never makes up a link. *)
Theorem pickUrl_from_references (refs : option (list OsvReference)) :
  pickUrl refs = ""
  \/ exists r, r ∈ default [] refs /\ ref_url r = Some (pickUrl refs).
Proof.
  unfold pickUrl. destruct refs as [[|first rest]|]; [by left..| |by left].
  destruct (List.find _ (first :: rest)) as [advisory|] eqn:Hfind; simpl.
  - apply List.find_some in Hfind as [Hin _].
    destruct (ref_url advisory) as [u|] eqn:Hu.
    + right. exists advisory. split; [by apply list_elem_of_In | done].
    + destruct (ref_url first) as [u|] eqn:Hf; simpl; [|by left].
      right. exists first. split; [apply list_elem_of_here | done].
  - destruct (ref_url first) as [u|] eqn:Hf; simpl; [|by left].
    right. exists first. split; [apply list_elem_of_here | done].
Qed.

Section SecurityCacheFacts.
Variable parseFloat : string -> JsNumber.

Lemma querySecurity_lists w store cacheKey packageName version found :
  mkdirOk (sio w) = true ->
  osvLists w packageName version found ->
  querySecurity parseFloat w store cacheKey packageName version
                (emptyReportOf packageName)
  = if writeOk (sio w)
    then (Returned (reportOf parseFloat packageName found),
          <[cacheKey := {| data := reportOf parseFloat packageName found;
                           timestamp := now (sio w);
                           ttl := SECURITY_CACHE_TTL_MS |}]> store)
    else (Thrown (SystemError "EIO"), store).
Proof.
  intros Hdir (res & Hres & Hok & Hjson). unfold querySecurity.
  rewrite Hres, Hok, Hjson. cbn [negb vulns].
  unfold cache_set, ensureDir. rewrite Hdir.
  destruct found as [|v vs]; by destruct (writeOk (sio w)).
Qed.

Lemma checkSecurity_fresh w store packageName version found :
  cacheMiss (sio w) store (securityKey packageName version) ->
  osvLists w packageName version found ->
  exists store0,
    (store0 = store \/ store0 = delete (securityKey packageName version) store)
    /\ checkSecurity parseFloat w store packageName version
       = if writeOk (sio w)
         then (Returned (reportOf parseFloat packageName found),
               <[securityKey packageName version :=
                   {| data := reportOf parseFloat packageName found;
                      timestamp := now (sio w);
                      ttl := SECURITY_CACHE_TTL_MS |}]> store0)
         else (Returned (emptyReportOf packageName), store0).
Proof.
  intros Hmiss Hlists. pose proof Hmiss as [Hdir Hentry].
  unfold checkSecurity. fold (securityKey packageName version).
  fold (emptyReportOf packageName).
  unfold cache_get, ensureDir. rewrite Hdir.
  destruct (store !! securityKey packageName version) as [entry|] eqn:He.
  - apply Z.ltb_lt in Hentry. rewrite Hentry.
    exists (if unlinkOk (sio w)
            then delete (securityKey packageName version) store else store).
    split; [destruct (unlinkOk (sio w)); [by right | by left]|].
    rewrite (querySecurity_lists _ _ _ _ _ found) by done.
    by destruct (writeOk (sio w)).
  - exists store. split; [by left|].
    rewrite (querySecurity_lists _ _ _ _ _ found) by done.
    by destruct (writeOk (sio w)).
Qed.
End SecurityCacheFacts.

(** X12. A report obtained from OSV and written to the cache is what every
    later call for the same package and version returns for seven days,
    whatever OSV answers by then, even nothing; the cache is left as it
    is. *)
Theorem checkSecurity_served_from_cache
    (parseFloat : string -> JsNumber) (w1 w2 : SecurityWorld)
    (store : gmap string (CacheEntry SecurityReport))
    (packageName version : string) (found : list OsvVuln) :
  cacheMiss (sio w1) store (securityKey packageName version) ->
  writeOk (sio w1) = true ->
  osvLists w1 packageName version found ->
  mkdirOk (sio w2) = true ->
  now (sio w2) - now (sio w1) <= SECURITY_CACHE_TTL_MS ->
  exists store1,
    checkSecurity parseFloat w1 store packageName version
      = (Returned (reportOf parseFloat packageName found), store1)
    /\ checkSecurity parseFloat w2 store1 packageName version
       = (Returned (reportOf parseFloat packageName found), store1).
Proof.
  intros Hmiss Hwrite Hlists Hdir2 Hfresh.
  destruct (checkSecurity_fresh parseFloat w1 store packageName version found
              Hmiss Hlists) as (store0 & _ & Hrun).
  rewrite Hwrite in Hrun. eexists. split; [exact Hrun|].
  unfold checkSecurity. fold (securityKey packageName version).
  unfold cache_get, ensureDir. rewrite Hdir2, lookup_insert_eq. cbn [ttl timestamp data].
  destruct (Z.ltb_spec SECURITY_CACHE_TTL_MS (now (sio w2) - now (sio w1)));
    [lia | done].
Qed.

Lemma checkSecurity_served_from_cache_witness :
  exists store1,
    checkSecurity sampleParseFloat
      (osvAnswersAt 0 true [scoredVuln "GHSA-1" "9.8"]) ∅ "request" "2.88.2"
      = (Returned (reportOf sampleParseFloat "request" [scoredVuln "GHSA-1" "9.8"]),
         store1)
    /\ checkSecurity sampleParseFloat (osvDownAt 1000 true) store1 "request" "2.88.2"
       = (Returned (reportOf sampleParseFloat "request" [scoredVuln "GHSA-1" "9.8"]),
          store1).
Proof.
  apply checkSecurity_served_from_cache.
  - split; [reflexivity | exact I].
  - reflexivity.
  - eexists. repeat split; reflexivity.
  - reflexivity.
  - vm_compute. discriminate.
Defined.

(** X13. A query that fails is not remembered: when the cache has nothing
    to offer and the request fails or is answered with an error status, the
    empty report is returned and nothing is written.  The cache is left as
    it was, or without the expired entry where that could be removed; it
    still has nothing to offer for the package and version, then and at any
    later instant, so the next call asks again. *)
Theorem checkSecurity_failure_not_cached
    (parseFloat : string -> JsNumber) (w : SecurityWorld)
    (store : gmap string (CacheEntry SecurityReport))
    (packageName version : string) :
  cacheMiss (sio w) store (securityKey packageName version) ->
  OsvFails w packageName version ->
  exists store',
    checkSecurity parseFloat w store packageName version
      = (Returned (emptyReportOf packageName), store')
    /\ (store' = store
        \/ store' = delete (securityKey packageName version) store)
    /\ forall later : Io,
         mkdirOk later = true -> now (sio w) <= now later ->
         cacheMiss later store' (securityKey packageName version).
Proof.
  intros [Hdir Hentry] Hfail.
  unfold checkSecurity. fold (securityKey packageName version).
  fold (emptyReportOf packageName).
  unfold cache_get, ensureDir. rewrite Hdir.
  assert (forall s,
            match querySecurity parseFloat w s (securityKey packageName version)
                    packageName version (emptyReportOf packageName) with
            | (Thrown _, store0) => (Returned (emptyReportOf packageName), store0)
            | (Returned report, store0) => (Returned report, store0)
            end = (Returned (emptyReportOf packageName), s)) as Hq.
  { intros s. unfold querySecurity.
    destruct Hfail as [e He|res Hres Hok].
    - by rewrite He.
    - by rewrite Hres, Hok. }
  destruct (store !! securityKey packageName version) as [entry|] eqn:He.
  - pose proof Hentry as Hexpired. apply Z.ltb_lt in Hentry.
    rewrite Hentry, Hq. eexists. split; [done|].
    destruct (unlinkOk (sio w)).
    + split; [by right|]. intros later Hlater _. split; [done|].
      by rewrite lookup_delete_eq.
    + split; [by left|]. intros later Hlater Hnow. split; [done|].
      rewrite He. lia.
  - rewrite Hq. eexists. split; [done|]. split; [by left|].
    intros later Hlater _. split; [done|]. by rewrite He.
Qed.

Lemma checkSecurity_failure_not_cached_witness :
  exists store',
    checkSecurity sampleParseFloat (osvDownAt 1000 false)
      {[ securityKey "request" "2.88.2" :=
           {| data := emptyReportOf "request"; timestamp := 0; ttl := 10 |} ]}
      "request" "2.88.2"
      = (Returned (emptyReportOf "request"), store')
    /\ (store' = {[ securityKey "request" "2.88.2" :=
                      {| data := emptyReportOf "request"; timestamp := 0;
                         ttl := 10 |} ]}
        \/ store' = delete (securityKey "request" "2.88.2")
                      {[ securityKey "request" "2.88.2" :=
                           {| data := emptyReportOf "request"; timestamp := 0;
                              ttl := 10 |} ]})
    /\ forall later : Io,
         mkdirOk later = true -> now (sio (osvDownAt 1000 false)) <= now later ->
         cacheMiss later store' (securityKey "request" "2.88.2").
Proof.
  apply checkSecurity_failure_not_cached.
  - split; [reflexivity|]. rewrite lookup_singleton_eq. vm_compute. reflexivity.
  - by eapply OsvNetworkFailure.
Defined.

(** X14. When the report cannot be written to the cache, it is lost: with
    a usable cache directory but a failing write, [checkSecurity] returns
    the report without vulnerabilities whatever OSV listed, critical ones
    included. *)
Theorem checkSecurity_write_failure_hides_vulnerabilities
    (parseFloat : string -> JsNumber) (w : SecurityWorld)
    (store : gmap string (CacheEntry SecurityReport))
    (packageName version : string) (found : list OsvVuln) :
  cacheMiss (sio w) store (securityKey packageName version) ->
  writeOk (sio w) = false ->
  osvLists w packageName version found ->
  (checkSecurity parseFloat w store packageName version).1
  = Returned (emptyReportOf packageName).
Proof.
  intros Hmiss Hwrite Hlists.
  destruct (checkSecurity_fresh parseFloat w store packageName version found
              Hmiss Hlists) as (store0 & _ & ->).
  by rewrite Hwrite.
Qed.

Lemma checkSecurity_write_failure_hides_vulnerabilities_witness :
  (checkSecurity sampleParseFloat
     (osvAnswersAt 0 false [scoredVuln "GHSA-1" "9.8"]) ∅ "request" "2.88.2").1
  = Returned (emptyReportOf "request").
Proof.
  apply (checkSecurity_write_failure_hides_vulnerabilities sampleParseFloat
           (osvAnswersAt 0 false [scoredVuln "GHSA-1" "9.8"]) ∅ "request"
           "2.88.2" [scoredVuln "GHSA-1" "9.8"]).
  - split; [reflexivity | exact I].
  - reflexivity.
  - eexists. repeat split; reflexivity.
Defined.


(** ** The compatibility checker, further *)

(** X15. [findPackageJson] looks into the start directory, its parent and
    its grandparent, in this order, and answers the first manifest it can
    access; a manifest further up is never found. *)
Theorem findPackageJson_three_levels (w : World) (startPath : Path) :
  findPackageJson w startPath 3 =
    if fs_access w (manifestIn startPath)
    then Some (manifestIn startPath)
    else if fs_access w (manifestIn (dirname startPath))
    then Some (manifestIn (dirname startPath))
    else if fs_access w (manifestIn (dirname (dirname startPath)))
    then Some (manifestIn (dirname (dirname startPath)))
    else None.
Proof.
  unfold findPackageJson, manifestIn. simpl.
  destruct (fs_access w (startPath ++ ["package.json"])) eqn:H0; [done|].
  destruct (decide (dirname startPath = startPath)) as [Heq|Hne].
  { by rewrite !Heq, H0. }
  destruct (fs_access w (dirname startPath ++ ["package.json"])) eqn:H1; [done|].
  destruct (decide (dirname (dirname startPath) = dirname startPath)) as [Heq|Hne'].
  { by rewrite Heq, H1. }
  destruct (fs_access w (dirname (dirname startPath) ++ ["package.json"])); [done|].
  by case_decide.
Qed.

(** A manifest three levels above the start directory is out of reach. *)
Example manifest_too_far_up :
  findPackageJson scenarioA (projectDir ++ ["packages"; "ui"; "src"]) 3 = None
  /\ findPackageJson scenarioA (projectDir ++ ["packages"; "ui"]) 3
     = Some manifestPath.
Proof. split; vm_compute; reflexivity. Qed.

Lemma PeerVerdicts_entries si installedMap meta entries cs parts :
  PeerVerdicts si installedMap meta entries cs parts ->
  (fun c => (name c, required c)) <$> cs = entries.
Proof.
  induction 1 as [|peerName requiredRange entries c pushed cs parts Hv _ IH];
    [done|].
  rewrite fmap_cons, IH. by destruct Hv.
Qed.

Lemma attachCombinedFix_entries f cs :
  (fun c => (name c, required c)) <$> attachCombinedFix f cs
  = (fun c => (name c, required c)) <$> cs.
Proof.
  induction cs as [|c cs IH]; [done|]. cbn [attachCombinedFix].
  destruct (isFailing c); rewrite !fmap_cons; [done|]. by rewrite IH.
Qed.

Lemma finalChecks_entries cs :
  (fun c => (name c, required c)) <$> finalChecks cs
  = (fun c => (name c, required c)) <$> cs.
Proof.
  unfold finalChecks. destruct (existsb isFailing cs); [|done].
  apply attachCombinedFix_entries.
Qed.

(** X16. A report that [checkCompatibility] returns is for the package
    asked about, and either has no check or has exactly one check per peer
    requirement of the target, in the order of the requirements, each with
    the name and the required range of its requirement. *)
Theorem checks_follow_peer_requirements
    (semver_intersects : string -> string -> result bool)
    (w : World) (store store' : gmap string (CacheEntry CachedPeers))
    (target : string) (projectPath : Path) (report : CompatibilityReport) :
  checkCompatibility semver_intersects w store target projectPath
    = (Returned report, store') ->
  packageName report = target
  /\ (checks report = []
      \/ exists peerData,
           fetchPeerDependencies w store target
             = (Returned (Some peerData), store')
           /\ (fun c => (name c, required c)) <$> checks report = peers peerData).
Proof.
  intros Hrun.
  apply checkCompatibility_returns in Hrun
    as [->|(pkgJsonPath & installedMap & peerData & cs & Hfind & Hget & Hfetch
            & Hne & Hvs & ->)]; cbn [packageName checks].
  - split; [done | by left].
  - split; [done|]. right. exists peerData. split; [done|].
    rewrite finalChecks_entries. by eapply PeerVerdicts_entries.
Qed.

Lemma checks_follow_peer_requirements_witness :
  packageName manyPeersReport = "some-pkg"
  /\ (checks manyPeersReport = []
      \/ exists peerData,
           fetchPeerDependencies manyPeers ∅ "some-pkg"
             = (Returned (Some peerData),
                cacheAfterFetch "some-pkg"
                  (publishes [("left-pad", "*"); ("react", "^18.0.0");
                              ("vue", "^3.0.0"); ("types", "1.x")]
                             {[ "types" := {| optional := Some true |} ]}))
           /\ (fun c => (name c, required c)) <$> checks manyPeersReport
              = peers peerData).
Proof.
  refine (checks_follow_peer_requirements
            (Semver.intersects Semver.parseRange) manyPeers ∅ _
            "some-pkg" projectDir manyPeersReport _).
  vm_compute. reflexivity.
Defined.


Lemma fetchPeersUncached_publishes w store cacheKey target latestTag versionData :
  mkdirOk (io w) = true ->
  registryPublishes w target latestTag versionData ->
  fetchPeersUncached w store cacheKey target
  = if writeOk (io w)
    then (Returned (Some (cachedPeersOf latestTag versionData)),
          <[cacheKey := {| data := cachedPeersOf latestTag versionData;
                           timestamp := now (io w);
                           ttl := DEFAULT_TTL_MS |}]> store)
    else (Thrown (SystemError "EIO"), store).
Proof.
  intros Hdir (res & data & published & Hres & Hok & Hjson & Htag & Hne & Hvs & Hvd).
  unfold fetchPeersUncached. rewrite Hres, Hok, Hjson, Htag, Hvs. cbn [negb].
  apply String.eqb_neq in Hne. rewrite Hne. unfold readVersion. rewrite Hvd.
  unfold cache_set, ensureDir. rewrite Hdir.
  by destruct (writeOk (io w)).
Qed.

Lemma fetchPeerDependencies_fresh w store target latestTag versionData :
  cacheMiss (io w) store (peersKey target) ->
  registryPublishes w target latestTag versionData ->
  exists store0,
    fetchPeerDependencies w store target
    = if writeOk (io w)
      then (Returned (Some (cachedPeersOf latestTag versionData)),
            <[peersKey target := {| data := cachedPeersOf latestTag versionData;
                                    timestamp := now (io w);
                                    ttl := DEFAULT_TTL_MS |}]> store0)
      else (Returned None, store0).
Proof.
  intros Hmiss Hpub. pose proof Hmiss as [Hdir _].
  unfold fetchPeerDependencies. fold (peersKey target).
  destruct (cache_get_miss _ _ _ Hmiss) as (store0 & ->).
  exists store0.
  rewrite (fetchPeersUncached_publishes _ _ _ _ latestTag versionData) by done.
  by destruct (writeOk (io w)).
Qed.

Lemma fetchPeerDependencies_hit w store target entry :
  mkdirOk (io w) = true ->
  store !! peersKey target = Some entry ->
  now (io w) - timestamp entry <= ttl entry ->
  fetchPeerDependencies w store target = (Returned (Some (data entry)), store).
Proof. apply fetchPeerDependencies_cached. Qed.

Lemma findPackageJsonFrom_ext w1 w2 current remaining :
  (forall p, fs_access w2 p = fs_access w1 p) ->
  findPackageJsonFrom w2 current remaining
  = findPackageJsonFrom w1 current remaining.
Proof.
  intros Hext. revert current.
  induction remaining as [|n IH]; intros current; [done|]. simpl.
  rewrite Hext. destruct (fs_access w1 _); [done|].
  case_decide; [done | apply IH].
Qed.

(** With the same manifest and the same peer requirements fetched, two
    runs return the same outcome; each leaves the cache its fetch left. *)
Lemma checkCompatibility_from_fetch si w1 w2 store1 store2 target projectPath
      pkgJsonPath pkg answer s1 s2 :
  findPackageJson w1 projectPath 3 = Some pkgJsonPath ->
  findPackageJson w2 projectPath 3 = Some pkgJsonPath ->
  readManifest w1 pkgJsonPath = Returned pkg ->
  readManifest w2 pkgJsonPath = Returned pkg ->
  fetchPeerDependencies w1 store1 target = (Returned answer, s1) ->
  fetchPeerDependencies w2 store2 target = (Returned answer, s2) ->
  (checkCompatibility si w1 store1 target projectPath).2 = s1
  /\ checkCompatibility si w2 store2 target projectPath
     = ((checkCompatibility si w1 store1 target projectPath).1, s2).
Proof.
  intros Hfind1 Hfind2 Hpkg1 Hpkg2 Hf1 Hf2. unfold checkCompatibility.
  rewrite Hfind1, Hfind2. unfold getInstalledPackages. rewrite Hpkg1, Hpkg2.
  cbn [bind]. rewrite Hf1, Hf2. destruct answer as [peerData|]; [|done].
  by destruct (length (peers peerData) =? 0)%nat.
Qed.

(** X17. Peer requirements fetched from the registry and written to the
    cache are what later checks use for 24 hours: a second check in a
    project whose files have not changed returns the same outcome as the
    first, whatever the registry answers by then, and leaves the cache as
    the first check left it. *)
Theorem checkCompatibility_rerun_from_cache
    (semver_intersects : string -> string -> result bool)
    (w1 w2 : World) (store : gmap string (CacheEntry CachedPeers))
    (target latestTag : string) (versionData : NpmVersionData)
    (projectPath : Path) :
  cacheMiss (io w1) store (peersKey target) ->
  writeOk (io w1) = true ->
  registryPublishes w1 target latestTag versionData ->
  (forall p, fs_access w2 p = fs_access w1 p) ->
  (forall p, readManifest w2 p = readManifest w1 p) ->
  mkdirOk (io w2) = true ->
  now (io w2) - now (io w1) <= DEFAULT_TTL_MS ->
  checkCompatibility semver_intersects w2
    (checkCompatibility semver_intersects w1 store target projectPath).2
    target projectPath
  = checkCompatibility semver_intersects w1 store target projectPath.
Proof.
  intros Hmiss Hwrite Hpub Hfs Hread Hdir2 Hfresh.
  destruct (fetchPeerDependencies_fresh w1 store target latestTag versionData
              Hmiss Hpub) as (store0 & Hfetch).
  rewrite Hwrite in Hfetch.
  assert (findPackageJson w2 projectPath 3 = findPackageJson w1 projectPath 3)
    as Hfind2 by (by apply findPackageJsonFrom_ext).
  destruct (findPackageJson w1 projectPath 3) as [pkgJsonPath|] eqn:Hfind.
  2:{ unfold checkCompatibility. by rewrite Hfind, Hfind2. }
  destruct (readManifest w1 pkgJsonPath) as [pkg|e] eqn:Hpkg.
  2:{ unfold checkCompatibility. rewrite Hfind, Hfind2.
      unfold getInstalledPackages. by rewrite Hread, Hpkg. }
  set (s1 := <[peersKey target := _]> store0) in Hfetch.
  assert (fetchPeerDependencies w2 s1 target
          = (Returned (Some (cachedPeersOf latestTag versionData)), s1))
    as Hhit.
  { apply (fetchPeerDependencies_hit w2 s1 target
             {| data := cachedPeersOf latestTag versionData;
                timestamp := now (io w1); ttl := DEFAULT_TTL_MS |});
      [done | apply lookup_insert_eq | done]. }
  pose proof (Hread pkgJsonPath) as Hpkg2. rewrite Hpkg in Hpkg2.
  destruct (checkCompatibility_from_fetch semver_intersects w1 w2 store s1
              target projectPath pkgJsonPath pkg _ s1 s1
              Hfind Hfind2 Hpkg Hpkg2 Hfetch Hhit) as [Hstore Hrun].
  rewrite Hstore, Hrun, <- Hstore. by destruct (checkCompatibility _ _ _ _ _).
Qed.

Lemma checkCompatibility_rerun_from_cache_witness :
  checkCompatibility (Semver.intersects Semver.parseRange)
    (sampleWorldAt 1000 true false (dependsOn {[ "react" := "^17.0.2" ]})
                   (publishes [("react", "^18.0.0")] ∅))
    (checkCompatibility (Semver.intersects Semver.parseRange) scenarioA ∅
                        "some-pkg" projectDir).2 "some-pkg" projectDir
  = checkCompatibility (Semver.intersects Semver.parseRange) scenarioA ∅
                       "some-pkg" projectDir.
Proof.
  apply (checkCompatibility_rerun_from_cache _ scenarioA _ ∅ "some-pkg" "1.0.0"
           (publishes [("react", "^18.0.0")] ∅)).
  - split; [reflexivity | exact I].
  - reflexivity.
  - eexists _, _, _. repeat split; try reflexivity. discriminate.
  - reflexivity.
  - reflexivity.
  - reflexivity.
  - vm_compute. discriminate.
Defined.

Lemma fetchPeersUncached_unwritable w store cacheKey target :
  writeOk (io w) = false ->
  exists r, fetchPeersUncached w store cacheKey target = (r, store)
            /\ (r = Returned None \/ exists e, r = Thrown e).
Proof.
  intros Hwrite. unfold fetchPeersUncached.
  destruct (registry w target) as [res|e]; [|by eauto].
  destruct (ok res); simpl; [|by eauto].
  destruct (json res) as [data|e]; [|by eauto].
  destruct (dist_tags_latest data) as [latestTag|]; [|by eauto].
  destruct (versions data) as [published|]; [|by eauto].
  destruct (String.eqb latestTag ""); [by eauto|].
  destruct (readVersion published latestTag) as [versionData|]; [|by eauto].
  unfold cache_set. rewrite Hwrite. destruct (ensureDir (io w)); eauto.
Qed.

(** X18. When the peer requirements cannot be written to the cache, they
    are lost: with a manifest that is read, nothing to offer in the cache
    and a failing cache write, [checkCompatibility] reports nothing to check
    and [compatible] true, whatever the registry publishes as peer
    requirements. *)
Theorem checkCompatibility_write_failure_hides_peers
    (semver_intersects : string -> string -> result bool)
    (w : World) (store : gmap string (CacheEntry CachedPeers))
    (target : string) (projectPath pkgJsonPath : Path)
    (manifest : UserPackageJson) :
  findPackageJson w projectPath 3 = Some pkgJsonPath ->
  readManifest w pkgJsonPath = Returned manifest ->
  cacheMiss (io w) store (peersKey target) ->
  writeOk (io w) = false ->
  (checkCompatibility semver_intersects w store target projectPath).1
  = Returned (nothingChecked target).
Proof.
  intros Hfind Hread Hmiss Hwrite. unfold checkCompatibility.
  rewrite Hfind.
  destruct (getInstalledPackages_lookup w pkgJsonPath manifest Hread)
    as (installedMap & -> & _).
  unfold fetchPeerDependencies. fold (peersKey target).
  destruct (cache_get_miss _ _ _ Hmiss) as (store0 & ->).
  destruct (fetchPeersUncached_unwritable w store0 (peersKey target) target Hwrite)
    as (r & -> & [->|[e ->]]); done.
Qed.

Lemma checkCompatibility_write_failure_hides_peers_witness :
  (checkCompatibility (Semver.intersects Semver.parseRange)
     (sampleWorldAt 0 false true (dependsOn {[ "react" := "^17.0.2" ]})
                    (publishes [("react", "^18.0.0")] ∅))
     ∅ "some-pkg" projectDir).1
  = Returned (nothingChecked "some-pkg").
Proof.
  apply (checkCompatibility_write_failure_hides_peers _ _ _ _ _ manifestPath
           (dependsOn {[ "react" := "^17.0.2" ]})).
  - reflexivity.
  - reflexivity.
  - split; [reflexivity | exact I].
  - reflexivity.
Defined.


Lemma comparePeers_none_installed si installedMap meta entries checks0 fixParts0 :
  Forall (notInstalled installedMap) entries ->
  exists parts,
    comparePeers si installedMap meta entries checks0 fixParts0
    = Returned (checks0 ++ (absentCheck meta <$> entries), fixParts0 ++ parts).
Proof.
  revert checks0 fixParts0.
  induction entries as [|[peerName requiredRange] entries IH];
    intros checks0 fixParts0 Hall.
  - exists []. simpl. by rewrite !app_nil_r.
  - apply Forall_cons in Hall as [[Hhead Hinh] Htail]. simpl in Hhead, Hinh.
    cbn [comparePeers]. unfold checkPeer at 1. fold (isOptionalPeer meta peerName).
    rewrite Hhead, Hinh, fmap_cons.
    assert (absentCheck meta (peerName, requiredRange)
            = if isOptionalPeer meta peerName
              then mkPeerCheck peerName requiredRange None OPTIONAL_MISSING None
              else mkPeerCheck peerName requiredRange None MISSING
                     (Some ("npm install " +:+ fixPart peerName requiredRange)))
      as -> by done.
    destruct (isOptionalPeer meta peerName); simpl.
    + destruct (IH (checks0 ++ [mkPeerCheck peerName requiredRange None
                                   OPTIONAL_MISSING None]) (fixParts0 ++ []) Htail)
        as (parts & ->).
      exists parts. by rewrite <- !app_assoc.
    + destruct (IH (checks0 ++ [mkPeerCheck peerName requiredRange None MISSING
                                   (Some ("npm install " +:+ fixPart peerName requiredRange))])
                  (fixParts0 ++ [fixPart peerName requiredRange]) Htail)
        as (parts & ->).
      exists (fixPart peerName requiredRange :: parts). by rewrite <- !app_assoc.
Qed.

Lemma forallb_isPassing_absent meta entries :
  forallb isPassing (absentCheck meta <$> entries)
  = forallb (fun entry => isOptionalPeer meta entry.1) entries.
Proof.
  induction entries as [|entry entries IH]; [done|].
  rewrite fmap_cons. simpl. rewrite IH. f_equal.
  unfold absentCheck. by destruct (isOptionalPeer meta entry.1).
Qed.

Lemma attachCombinedFix_installed f cs :
  installed <$> attachCombinedFix f cs = installed <$> cs.
Proof.
  induction cs as [|c cs IH]; [done|]. cbn [attachCombinedFix].
  destruct (isFailing c); rewrite !fmap_cons; [done|]. by rewrite IH.
Qed.

Lemma finalChecks_installed cs : installed <$> finalChecks cs = installed <$> cs.
Proof.
  unfold finalChecks. destruct (existsb isFailing cs); [|done].
  apply attachCombinedFix_installed.
Qed.

(** X19. When reading the installed range finds nothing for any of the
    required peers (none is declared by the manifest, and none bears the
    name of a member of [Object.prototype]), no range is ever compared:
    whatever [semver.intersects] would do, [checkCompatibility] returns a
    report in which no check has an installed range, and [compatible] is
    true exactly when every requirement is optional. *)
Theorem nothing_installed_nothing_compared
    (semver_intersects : string -> string -> result bool)
    (w : World) (store store' : gmap string (CacheEntry CachedPeers))
    (target : string) (projectPath pkgJsonPath : Path)
    (installedMap : gmap string string) (peerData : CachedPeers) :
  findPackageJson w projectPath 3 = Some pkgJsonPath ->
  getInstalledPackages w pkgJsonPath = Returned installedMap ->
  fetchPeerDependencies w store target = (Returned (Some peerData), store') ->
  Forall (notInstalled installedMap) (peers peerData) ->
  exists report,
    checkCompatibility semver_intersects w store target projectPath
      = (Returned report, store')
    /\ Forall (fun c => installed c = None) (checks report)
    /\ compatible report
       = forallb (fun entry => isOptionalPeer (meta peerData) entry.1)
                 (peers peerData).
Proof.
  intros Hfind Hget Hfetch Hnone.
  destruct (decide (peers peerData = [])) as [Hnil|Hne].
  { unfold checkCompatibility. rewrite Hfind, Hget, Hfetch, Hnil. simpl.
    eexists. split; [done|]. split; [constructor | done]. }
  rewrite (checkCompatibility_compares _ _ _ _ _ _ _ _ _ Hfind Hget Hfetch Hne).
  destruct (comparePeers_none_installed semver_intersects installedMap
              (meta peerData) (peers peerData) [] [] Hnone) as (parts & ->).
  simpl. eexists. split; [reflexivity|]. cbn [checks compatible]. split.
  - apply (Forall_fmap installed (fun i => i = None)).
    rewrite finalChecks_installed.
    apply Forall_fmap, Forall_fmap. apply Forall_true. intros entry.
    unfold absentCheck. simpl. by destruct (isOptionalPeer _ _).
  - rewrite (forallb_isPassing_status _ _ (finalChecks_status _)).
    apply forallb_isPassing_absent.
Qed.

Lemma nothing_installed_nothing_compared_witness :
  exists report,
    checkCompatibility alwaysThrows
      (sampleWorld (dependsOn ∅)
                   (publishes [("types", "not a range")]
                              {[ "types" := {| optional := Some true |} ]}))
      ∅ "some-pkg" projectDir
      = (Returned report,
         cacheAfterFetch "some-pkg"
           (publishes [("types", "not a range")]
                      {[ "types" := {| optional := Some true |} ]}))
    /\ Forall (fun c => installed c = None) (checks report)
    /\ compatible report
       = forallb (fun entry => isOptionalPeer {[ "types" := {| optional := Some true |} ]} entry.1)
                 [("types", "not a range")].
Proof.
  refine (nothing_installed_nothing_compared alwaysThrows
            (sampleWorld (dependsOn ∅)
               (publishes [("types", "not a range")]
                          {[ "types" := {| optional := Some true |} ]}))
            ∅
            (cacheAfterFetch "some-pkg"
               (publishes [("types", "not a range")]
                          {[ "types" := {| optional := Some true |} ]}))
            "some-pkg" projectDir manifestPath ∅
            (peersOf (publishes [("types", "not a range")]
                                {[ "types" := {| optional := Some true |} ]}))
            _ _ _ _).
  - reflexivity.
  - vm_compute. reflexivity.
  - vm_compute. reflexivity.
  - apply Forall_cons. split; [split; reflexivity | apply Forall_nil; exact I].
Defined.

(** X20. An error of reading or parsing the manifest is passed on
    unchanged.  Otherwise the installed map holds exactly the names declared
    in dependencies or in devDependencies, except [__proto__], which
    [Object.assign] cannot write; and a name other than that, declared in
    one of the two only, keeps the range declared there. *)
Theorem getInstalledPackages_names (w : World) (path : Path) :
  match readManifest w path with
  | Thrown e => getInstalledPackages w path = Thrown e
  | Returned pkg =>
      exists installedMap,
        getInstalledPackages w path = Returned installedMap
        /\ dom installedMap
           = (dom (default ∅ (dependencies pkg))
              ∪ dom (default ∅ (devDependencies pkg))) ∖ {[ "__proto__" ]}
        /\ (forall k r, k <> "__proto__" ->
                        default ∅ (devDependencies pkg) !! k = None ->
                        default ∅ (dependencies pkg) !! k = Some r ->
                        installedMap !! k = Some r)
        /\ (forall k r, k <> "__proto__" ->
                        default ∅ (dependencies pkg) !! k = None ->
                        default ∅ (devDependencies pkg) !! k = Some r ->
                        installedMap !! k = Some r)
  end.
Proof.
  destruct (readManifest w path) as [pkg|e] eqn:Hread.
  2:{ unfold getInstalledPackages. by rewrite Hread. }
  destruct (getInstalledPackages_lookup w path pkg Hread)
    as (installedMap & Hget & Hlook).
  exists installedMap. split; [done|]. split; [|split].
  - apply set_eq. intros k.
    rewrite elem_of_difference, elem_of_union, !elem_of_dom, Hlook,
      not_elem_of_singleton.
    destruct (decide (k = "__proto__")) as [->|Hk].
    + split; [by intros [? [=]] | by intros [_ ?]].
    + destruct (default ∅ (devDependencies pkg) !! k) eqn:Hdev.
      * split; [by intros _; split; [right|] | by eauto].
      * split; [by intros ?; split; [left|] | by intros [[?|[? [=]]] _]].
  - intros k r Hk Hdev Hdeps. rewrite Hlook, Hdev. by case_decide.
  - intros k r Hk Hdeps Hdev. rewrite Hlook, Hdev. by case_decide.
Qed.

Example proto_key_is_not_installed :
  getInstalledPackages
    (sampleWorld {| dependencies := Some {[ "__proto__" := "1.0.0" ]};
                    devDependencies := Some {[ "react" := "^18.0.0" ]} |}
                 (publishes [] ∅)) manifestPath
  = Returned {[ "react" := "^18.0.0" ]}.
Proof. vm_compute. reflexivity. Qed.

Section NpmFacts.
Variable parseDate : string -> option Z.

Lemma getPackageInfo_fresh w store packageName :
  cacheMiss (nio w) store (infoKey packageName) ->
  exists store0,
    (store0 = store \/ store0 = delete (infoKey packageName) store)
    /\ getPackageInfo parseDate w store packageName
       = match fetchInfoUncached parseDate w store0 (infoKey packageName)
                 packageName with
         | (Thrown _, store1) => (Returned None, store1)
         | (Returned r, store1) => (Returned r, store1)
         end.
Proof.
  intros [Hdir Hentry]. unfold getPackageInfo. fold (infoKey packageName).
  unfold cache_get, ensureDir. rewrite Hdir.
  destruct (store !! infoKey packageName) as [entry|].
  - apply Z.ltb_lt in Hentry. rewrite Hentry.
    exists (if unlinkOk (nio w) then delete (infoKey packageName) store
            else store).
    split; [destruct (unlinkOk (nio w)); [by right | by left] | done].
  - eexists. split; [by left|done].
Qed.

Lemma fetchInfoUncached_gives w store cacheKey packageName reg :
  mkdirOk (nio w) = true ->
  packumentGives w packageName reg ->
  fetchInfoUncached parseDate w store cacheKey packageName
  = if writeOk (nio w)
    then (Returned (Some (infoOf parseDate w packageName reg)),
          <[cacheKey := {| data := infoOf parseDate w packageName reg;
                           timestamp := now (nio w);
                           ttl := DEFAULT_TTL_MS |}]> store)
    else (Thrown (SystemError "EIO"), store).
Proof.
  intros Hdir (regRes & Hres & Hok & Hjson). unfold fetchInfoUncached.
  rewrite Hres, Hok, Hjson. cbn [negb]. unfold cache_set, ensureDir.
  rewrite Hdir. by destruct (writeOk (nio w)).
Qed.

Lemma fetchInfoUncached_nothing w store cacheKey packageName :
  (forall reg, ~ packumentGives w packageName reg) ->
  match fetchInfoUncached parseDate w store cacheKey packageName with
  | (Thrown _, store1) => (Returned (@None PackageInfo), store1)
  | (Returned r, store1) => (Returned r, store1)
  end = (Returned None, store).
Proof.
  intros Hno. unfold fetchInfoUncached.
  destruct (packument w packageName) as [regRes|e] eqn:Hres; [|done].
  destruct (ok regRes) eqn:Hok; [|done]. cbn [negb].
  destruct (json regRes) as [reg|e] eqn:Hjson; [|done].
  destruct (Hno reg). by exists regRes.
Qed.

Lemma packumentGives_dec w packageName :
  (exists reg, packumentGives w packageName reg)
  \/ (forall reg, ~ packumentGives w packageName reg).
Proof.
  unfold packumentGives.
  destruct (packument w packageName) as [regRes|e] eqn:Hres.
  - destruct (ok regRes) eqn:Hok.
    + destruct (json regRes) as [reg|e] eqn:Hjson.
      * left. exists reg, regRes. done.
      * right. intros reg (r & [= <-] & _ & Hj). congruence.
    + right. intros reg (r & [= <-] & Ho & _). congruence.
  - right. intros reg (r & Hr & _). discriminate.
Qed.

Lemma getPackageInfo_fresh_info w store packageName info :
  cacheMiss (nio w) store (infoKey packageName) ->
  (getPackageInfo parseDate w store packageName).1 = Returned (Some info) ->
  exists reg, info = infoOf parseDate w packageName reg.
Proof.
  intros Hmiss.
  destruct (getPackageInfo_fresh w store packageName Hmiss)
    as (store0 & _ & ->).
  destruct Hmiss as [Hdir _].
  destruct (packumentGives_dec w packageName) as [[reg Hreg]|Hno].
  - rewrite (fetchInfoUncached_gives _ _ _ _ reg Hdir Hreg).
    destruct (writeOk (nio w)); [|done]. intros [= <-]. by exists reg.
  - by rewrite (fetchInfoUncached_nothing _ _ _ _ Hno).
Qed.

Lemma getPackageInfo_rejects w store packageName :
  (exists e, (getPackageInfo parseDate w store packageName).1 = Thrown e)
  <-> mkdirOk (nio w) = false.
Proof.
  unfold getPackageInfo, cache_get, ensureDir.
  destruct (mkdirOk (nio w)).
  - split; [|done]. intros [e He]. exfalso.
    destruct (store !! _) as [entry|].
    + destruct (ttl entry <? now (nio w) - timestamp entry)%Z; [|done].
      by destruct (fetchInfoUncached _ _ _ _ _) as [[?|?] ?].
    + by destruct (fetchInfoUncached _ _ _ _ _) as [[?|?] ?].
  - split; [done|]. intros _. by eexists.
Qed.
End NpmFacts.

Lemma weeklyDownloadsOf_outage w packageName :
  downloadsFail w packageName -> weeklyDownloadsOf w packageName = 0.
Proof.
  intros Hfail. unfold weeklyDownloadsOf.
  destruct (downloadsApi w packageName) as [res|e] eqn:Hres; [|done].
  simpl. by rewrite (Hfail res Hres).
Qed.

(** X21. With nothing usable in the cache, [getPackageInfo] never rejects
    once the cache directory exists, and it returns metadata in one case
    only: the registry answers with a document and the metadata made of it
    can be written to the cache.  In every other case, a failing cache write
    included, it returns null. *)
Theorem getPackageInfo_null_unless_published_and_cached
    (parseDate : string -> option Z) (w : NpmWorld)
    (store : gmap string (CacheEntry PackageInfo)) (packageName : string) :
  cacheMiss (nio w) store (infoKey packageName) ->
  (exists reg,
     packumentGives w packageName reg /\ writeOk (nio w) = true
     /\ (getPackageInfo parseDate w store packageName).1
        = Returned (Some (infoOf parseDate w packageName reg)))
  \/ ((forall reg, packumentGives w packageName reg -> writeOk (nio w) = false)
      /\ (getPackageInfo parseDate w store packageName).1 = Returned None).
Proof.
  intros Hmiss.
  destruct (getPackageInfo_fresh parseDate w store packageName Hmiss)
    as (store0 & _ & ->).
  destruct Hmiss as [Hdir _].
  destruct (packumentGives_dec w packageName) as [[reg Hreg]|Hno].
  - rewrite (fetchInfoUncached_gives parseDate _ _ _ _ reg Hdir Hreg).
    destruct (writeOk (nio w)) eqn:Hw.
    + left. by exists reg.
    + right. done.
  - right. rewrite (fetchInfoUncached_nothing parseDate _ _ _ _ Hno).
    split; [|done]. intros reg Hreg. by destruct (Hno reg).
Qed.

Lemma getPackageInfo_null_unless_published_and_cached_witness :
  (exists reg,
     packumentGives (npmAnswers false (samplePackument plainPayload None)
                                (Thrown (SystemError "ENOTFOUND")))
                    "some-pkg" reg
     /\ writeOk (nio (npmAnswers false (samplePackument plainPayload None)
                                 (Thrown (SystemError "ENOTFOUND")))) = true
     /\ (getPackageInfo sampleParseDate
           (npmAnswers false (samplePackument plainPayload None)
                       (Thrown (SystemError "ENOTFOUND")))
           ∅ "some-pkg").1
        = Returned (Some (infoOf sampleParseDate
                            (npmAnswers false (samplePackument plainPayload None)
                                        (Thrown (SystemError "ENOTFOUND")))
                            "some-pkg" reg)))
  \/ ((forall reg,
         packumentGives (npmAnswers false (samplePackument plainPayload None)
                                    (Thrown (SystemError "ENOTFOUND")))
                        "some-pkg" reg ->
         writeOk (nio (npmAnswers false (samplePackument plainPayload None)
                                  (Thrown (SystemError "ENOTFOUND")))) = false)
      /\ (getPackageInfo sampleParseDate
            (npmAnswers false (samplePackument plainPayload None)
                        (Thrown (SystemError "ENOTFOUND")))
            ∅ "some-pkg").1 = Returned None).
Proof.
  apply (getPackageInfo_null_unless_published_and_cached sampleParseDate
           (npmAnswers false (samplePackument plainPayload None)
                       (Thrown (SystemError "ENOTFOUND")))
           ∅ "some-pkg").
  split; [reflexivity | exact I].
Defined.

Lemma stalenessPoints_nonneg now info : 0 <= stalenessPoints now info.
Proof.
  unfold stalenessPoints. destruct (lastPublish info); [|lia].
  repeat match goal with
         | |- context [if ?b then _ else _] => destruct b
         end; lia.
Qed.

Lemma maintainerPoints_nonneg info : 0 <= maintainerPoints info.
Proof.
  unfold maintainerPoints.
  repeat match goal with
         | |- context [if ?b then _ else _] => destruct b
         end; lia.
Qed.

(** X22. An outage of the downloads service is held against the package:
    metadata fetched while the service fails or answers with an error status
    records 0 weekly downloads, and the maintenance factor computed from it
    is at most 12 of 15, whenever it is computed. *)
Theorem downloads_outage_costs_maintenance_points
    (parseDate : string -> option Z) (w : NpmWorld)
    (store : gmap string (CacheEntry PackageInfo)) (packageName : string)
    (info : PackageInfo) (now : Z) :
  cacheMiss (nio w) store (infoKey packageName) ->
  downloadsFail w packageName ->
  (getPackageInfo parseDate w store packageName).1 = Returned (Some info) ->
  weeklyDownloads info = 0
  /\ rf_score (scoreMaintenance now (Some info)) <= 12.
Proof.
  intros Hmiss Hfail Hget.
  assert (weeklyDownloads info = 0) as Hzero.
  { destruct (getPackageInfo_fresh_info parseDate w store packageName info
                Hmiss Hget) as [reg ->].
    cbn [infoOf weeklyDownloads]. by apply weeklyDownloadsOf_outage. }
  split; [done|]. rewrite scoreMaintenance_points.
  pose proof (stalenessPoints_nonneg now info).
  pose proof (maintainerPoints_nonneg info).
  unfold downloadPoints. rewrite Hzero. simpl. lia.
Qed.

Lemma downloads_outage_costs_maintenance_points_witness :
  weeklyDownloads
    (infoOf sampleParseDate
       (npmAnswers true (samplePackument plainPayload None)
                   (Thrown (SystemError "ENOTFOUND")))
       "some-pkg" (samplePackument plainPayload None)) = 0
  /\ rf_score
       (scoreMaintenance 1704067200000
          (Some (infoOf sampleParseDate
                   (npmAnswers true (samplePackument plainPayload None)
                               (Thrown (SystemError "ENOTFOUND")))
                   "some-pkg" (samplePackument plainPayload None)))) <= 12.
Proof.
  apply (downloads_outage_costs_maintenance_points sampleParseDate
           (npmAnswers true (samplePackument plainPayload None)
                       (Thrown (SystemError "ENOTFOUND")))
           ∅ "some-pkg").
  - split; [reflexivity | exact I].
  - intros res Hres. discriminate Hres.
  - reflexivity.
Defined.

Lemma removeSuffix_cons suffix c s :
  removeSuffix suffix (String c s)
  = if String.eqb (String c s) suffix then ""
    else String c (removeSuffix suffix s).
Proof. reflexivity. Qed.

Lemma removeSuffix_append suffix x :
  suffix <> "" -> removeSuffix suffix (x +:+ suffix) = x.
Proof.
  intros Hne. induction x as [|c x IH].
  - change ("" +:+ suffix) with suffix.
    assert (forall s, removeSuffix s s = "") as Hself.
    { intros [|a s]; cbn [removeSuffix]; [done|].
      by destruct (String.eqb_spec (String a s) (String a s)). }
    apply Hself.
  - change (String c x +:+ suffix) with (String c (x +:+ suffix)).
    rewrite removeSuffix_cons.
    destruct (String.eqb_spec (String c (x +:+ suffix)) suffix) as [Heq|_].
    + exfalso. apply (f_equal String.length) in Heq.
      cbn [String.length] in Heq. rewrite string_length_app in Heq. lia.
    + by rewrite IH.
Qed.

(** X23. The repository link of the metadata: a URL given in the object
    form loses the decoration npm adds, for every link [x] the object form
    [git+x.git] gives [x]; a repository given as a plain string is kept as
    it is, decoration included. *)
Theorem repositoryOf_undecorates_object_form_only (x : string) :
  repositoryOf (Some (RepositoryObject (Some ("git+" +:+ x +:+ ".git")))) = x
  /\ repositoryOf (Some (RepositoryString ("git+" +:+ x +:+ ".git")))
     = "git+" +:+ x +:+ ".git".
Proof.
  split; [|done]. unfold repositoryOf.
  change (removePrefix "git+" ("git+" +:+ x +:+ ".git")) with (x +:+ ".git").
  by apply removeSuffix_append.
Qed.

(** X24. [isDeprecated] and the deprecation factor read the metadata the
    same way: the flag is set exactly when the factor computed from the
    metadata of the same call is 0, a deprecation with an empty message
    included, and a message comes only with the flag. *)
Theorem isDeprecated_agrees_with_scoreDeprecation
    (parseDate : string -> option Z) (w : NpmWorld)
    (store : gmap string (CacheEntry PackageInfo)) (packageName : string)
    (flag : bool) (message : string) :
  (isDeprecated parseDate w store packageName).1 = Returned (flag, message) ->
  exists info,
    (getPackageInfo parseDate w store packageName).1 = Returned info
    /\ (flag = true <-> rf_score (scoreDeprecation info) = 0)
    /\ (flag = false -> message = "").
Proof.
  unfold isDeprecated.
  destruct (getPackageInfo parseDate w store packageName)
    as [[[info|]|e] store1]; cbn [fst]; [| |done].
  - intros [= <- <-]. exists (Some info). split; [done|].
    unfold scoreDeprecation. destruct (deprecated info) as [m|]; simpl.
    + by repeat split.
    + repeat split; intros H; done.
  - intros [= <- <-]. exists None. split; [done|]. split; [|done].
    split; done.
Qed.

Lemma isDeprecated_agrees_with_scoreDeprecation_witness :
  exists info,
    (getPackageInfo sampleParseDate
       (npmAnswers true
          (samplePackument {| vp_deprecated := Some "";
                              vp_peerDependencies := None;
                              vp_peerDependenciesMeta := None |} None)
          (Thrown (SystemError "ENOTFOUND")))
       ∅ "some-pkg").1 = Returned info
    /\ (true = true <-> rf_score (scoreDeprecation info) = 0)
    /\ (true = false -> "" = "").
Proof.
  apply (isDeprecated_agrees_with_scoreDeprecation sampleParseDate
           (npmAnswers true
              (samplePackument {| vp_deprecated := Some "";
                                  vp_peerDependencies := None;
                                  vp_peerDependenciesMeta := None |} None)
              (Thrown (SystemError "ENOTFOUND")))
           ∅ "some-pkg" true "").
  vm_compute. reflexivity.
Defined.

Section ValidatorFacts.
Variable semver_intersects : string -> string -> result bool.
Variable parseFloat : string -> JsNumber.
Variable parseDate : string -> option Z.

Lemma checkSecurity_rejects w store packageName version :
  (exists e, (checkSecurity parseFloat w store packageName version).1 = Thrown e)
  <-> mkdirOk (sio w) = false.
Proof.
  unfold checkSecurity, cache_get, ensureDir.
  destruct (mkdirOk (sio w)).
  - split; [|done]. intros [e He]. exfalso.
    destruct (store !! _) as [entry|].
    + destruct (ttl entry <? now (sio w) - timestamp entry)%Z; [|done].
      by destruct (querySecurity _ _ _ _ _ _ _) as [[?|?] ?].
    + by destruct (querySecurity _ _ _ _ _ _ _) as [[?|?] ?].
  - split; [done|]. intros _. by eexists.
Qed.

(** When [validatePackage] rejects. *)
Lemma validatePackage_rejects s c packageName projectPath :
  (exists e,
     validatePackage semver_intersects parseFloat parseDate s c
                     packageName projectPath = Thrown e)
  <-> (exists e,
         (checkCompatibility semver_intersects (project s) (peersCache c)
                             packageName projectPath).1 = Thrown e)
      \/ mkdirOk (nio (npm s)) = false
      \/ mkdirOk (sio (advisories s)) = false.
Proof.
  unfold validatePackage.
  pose proof (getPackageInfo_rejects parseDate (npm s) (infoCache c)
                packageName) as Hinfo.
  destruct (checkCompatibility _ _ _ _ _) as [compatibility peersCache1].
  destruct (getPackageInfo _ _ _ _) as [packageInfo infoCache1].
  cbn [fst] in *.
  destruct compatibility as [compatibility|e1].
  - destruct packageInfo as [packageInfo|e2].
    + cbn [Promise_all bind].
      pose proof (checkSecurity_rejects (advisories s) (securityCache c)
                    packageName (default "latest" (version <$> packageInfo)))
        as Hsec.
      destruct (checkSecurity _ _ _ _ _) as [security securityCache1].
      cbn [fst] in Hsec.
      assert (mkdirOk (nio (npm s)) = true) as Hdir.
      { destruct (mkdirOk (nio (npm s))); [done|].
        destruct (proj2 Hinfo eq_refl) as [e He]. discriminate. }
      destruct security as [security|e3]; cbn [bind].
      * split.
        -- intros [e He]. discriminate.
        -- intros [[e He]|[Hn|Hs]]; [discriminate|congruence|].
           destruct (proj2 Hsec Hs) as [e He]. discriminate.
      * split.
        -- intros _. right. right. apply Hsec. by eexists.
        -- intros _. by eexists.
    + cbn [Promise_all bind]. split.
      * intros _. right. left. apply Hinfo. by eexists.
      * intros _. by eexists.
  - split.
    + intros _. left. by eexists.
    + intros _. destruct packageInfo; cbn [Promise_all bind]; by eexists.
Qed.

Lemma checkCompatibility_nothing_reachable w store packageName projectPath :
  mkdirOk (io w) = true ->
  (exists e, registry w packageName = Thrown e) ->
  store !! peersKey packageName = None ->
  manifestReadable w projectPath ->
  checkCompatibility semver_intersects w store packageName projectPath
  = (Returned (nothingChecked packageName), store).
Proof.
  intros Hdir [e He] Hnone Hread. unfold checkCompatibility, manifestReadable in *.
  destruct (findPackageJson w projectPath 3) as [pkgJsonPath|]; [|done].
  destruct Hread as [pkg Hpkg]. unfold getInstalledPackages. rewrite Hpkg.
  cbn [bind]. unfold fetchPeerDependencies. fold (peersKey packageName).
  unfold cache_get, ensureDir. rewrite Hdir, Hnone.
  unfold fetchPeersUncached. by rewrite He.
Qed.

Lemma getPackageInfo_nothing_reachable w store packageName :
  mkdirOk (nio w) = true ->
  (exists e, packument w packageName = Thrown e) ->
  store !! infoKey packageName = None ->
  getPackageInfo parseDate w store packageName = (Returned None, store).
Proof.
  intros Hdir [e He] Hnone. unfold getPackageInfo. fold (infoKey packageName).
  unfold cache_get, ensureDir. rewrite Hdir, Hnone.
  unfold fetchInfoUncached. by rewrite He.
Qed.

Lemma checkSecurity_nothing_reachable w store packageName version :
  mkdirOk (sio w) = true ->
  (exists e, osv w packageName version = Thrown e) ->
  store !! securityKey packageName version = None ->
  checkSecurity parseFloat w store packageName version
  = (Returned (emptyReportOf packageName), store).
Proof.
  intros Hdir [e He] Hnone. unfold checkSecurity.
  fold (securityKey packageName version).
  unfold cache_get, ensureDir. rewrite Hdir, Hnone.
  unfold querySecurity. by rewrite He.
Qed.
End ValidatorFacts.

(** X25. [validatePackage] rejects in three cases only: [checkCompatibility]
    rejects, or the cache directory cannot be created when [getPackageInfo]
    or [checkSecurity] asks for it.  No failure of the registry, of the
    downloads service or of OSV makes it reject. *)
Theorem validatePackage_rejects_iff
    (semver_intersects : string -> string -> result bool)
    (parseFloat : string -> JsNumber) (parseDate : string -> option Z)
    (s : Services) (c : Caches) (packageName : string) (projectPath : Path) :
  (exists e,
     validatePackage semver_intersects parseFloat parseDate s c
                     packageName projectPath = Thrown e)
  <-> (exists e,
         (checkCompatibility semver_intersects (project s) (peersCache c)
                             packageName projectPath).1 = Thrown e)
      \/ mkdirOk (nio (npm s)) = false
      \/ mkdirOk (sio (advisories s)) = false.
Proof. apply validatePackage_rejects. Qed.

(** X26. The validation fails open.  When neither the registry nor OSV can
    be reached and the cache holds nothing about the package, a package is
    given the full score of 100 and ALLOW, with no check, no vulnerability
    and no metadata, and the cache is left as it was: a package nothing is
    known about is rated like one nothing is wrong with. *)
Theorem validatePackage_fails_open
    (semver_intersects : string -> string -> result bool)
    (parseFloat : string -> JsNumber) (parseDate : string -> option Z)
    (s : Services) (c : Caches) (packageName : string) (projectPath : Path) :
  cacheDirUsable s ->
  unreachable s packageName ->
  nothingCached c packageName ->
  manifestReadable (project s) projectPath ->
  exists r,
    validatePackage semver_intersects parseFloat parseDate s c
                    packageName projectPath = Returned (r, c)
    /\ checks (vr_compatibility r) = []
    /\ vulnerabilities (vr_security r) = []
    /\ vr_packageInfo r = None
    /\ score (riskScore r) = 100
    /\ vr_action r = ALLOW.
Proof.
  intros (Hd1 & Hd2 & Hd3) (Hr1 & Hr2 & Hr3) (Hc1 & Hc2 & Hc3) Hread.
  unfold validatePackage.
  rewrite (checkCompatibility_nothing_reachable semver_intersects _ _ _ _
             Hd1 Hr1 Hc1 Hread).
  rewrite (getPackageInfo_nothing_reachable parseDate _ _ _ Hd2 Hr2 Hc2).
  cbn [Promise_all bind fmap option_fmap option_map default].
  rewrite (checkSecurity_nothing_reachable parseFloat _ _ _ _
             Hd3 (Hr3 "latest") (Hc3 "latest")).
  cbn [bind]. destruct c as [pc ic sc]. eexists. split; [reflexivity|].
  repeat split; reflexivity.
Qed.

Lemma validatePackage_fails_open_witness :
  exists r,
    validatePackage alwaysThrows sampleParseFloat sampleParseDate
                    (allDown (dependsOn {[ "react" := "^17.0.2" ]})) noCaches
                    "some-pkg" projectDir = Returned (r, noCaches)
    /\ checks (vr_compatibility r) = []
    /\ vulnerabilities (vr_security r) = []
    /\ vr_packageInfo r = None
    /\ score (riskScore r) = 100
    /\ vr_action r = ALLOW.
Proof.
  apply validatePackage_fails_open.
  - repeat split; reflexivity.
  - repeat split; intros; eexists; reflexivity.
  - repeat split; intros; reflexivity.
  - eexists. reflexivity.
Defined.

(** X27. [--dry-run] does not mean exit status 0: with it, the [check]
    command exits with status 1 exactly when the validation rejects, that
    is when [checkCompatibility] rejects or the cache directory cannot be
    created; and whenever it exits with 1, so does the run without it. *)
Theorem check_dry_run_exit_status
    (semver_intersects : string -> string -> result bool)
    (parseFloat : string -> JsNumber) (parseDate : string -> option Z)
    (s : Services) (c : Caches) (pkg : string) (projectPath : Path) :
  (checkCommand semver_intersects parseFloat parseDate s c pkg projectPath true
   = 1
   <-> (exists e,
          (checkCompatibility semver_intersects (project s) (peersCache c)
                              pkg projectPath).1 = Thrown e)
       \/ mkdirOk (nio (npm s)) = false
       \/ mkdirOk (sio (advisories s)) = false)
  /\ (checkCommand semver_intersects parseFloat parseDate s c pkg projectPath
                   true = 1 ->
      checkCommand semver_intersects parseFloat parseDate s c pkg projectPath
                   false = 1).
Proof.
  rewrite <- (validatePackage_rejects semver_intersects parseFloat parseDate).
  unfold checkCommand.
  destruct (validatePackage _ _ _ _ _ _ _) as [[r c1]|e].
  - cbn [negb andb]. split.
    + split; [intros H; discriminate H|]. intros [e He]. discriminate He.
    + intros H. discriminate H.
  - split; [|done]. split; [|done]. intros _. by eexists.
Qed.

(** X28. What is written to the cache is read back until its time to live
    has elapsed, and not after: a later [cache.get] of the key returns the
    data when at most [ttl] milliseconds have passed since the write, and
    otherwise returns null; the expired entry is then removed, unless its
    file cannot be removed, in which case it stays as it is. *)
Theorem cache_set_then_get {T : Type} (io1 io2 : Io)
    (store : gmap string (CacheEntry T)) (key : string) (d : T) (ttl0 : Z) :
  mkdirOk io1 = true -> writeOk io1 = true -> mkdirOk io2 = true ->
  cache_get io2 (cache_set io1 store key d ttl0).2 key
  = if (ttl0 <? now io2 - now io1)%Z
    then (Returned None,
          if unlinkOk io2 then delete key store
          else <[key := {| data := d; timestamp := now io1; ttl := ttl0 |}]>
                 store)
    else (Returned (Some d),
          <[key := {| data := d; timestamp := now io1; ttl := ttl0 |}]> store).
Proof.
  intros Hd1 Hw1 Hd2. unfold cache_set, cache_get, ensureDir.
  rewrite Hd1, Hw1, Hd2. cbn [snd]. rewrite lookup_insert_eq.
  cbn [ttl timestamp data].
  destruct (ttl0 <? now io2 - now io1)%Z; [|done].
  destruct (unlinkOk io2); [|done]. by rewrite delete_insert_eq.
Qed.

Lemma cache_set_then_get_witness :
  cache_get {| now := DEFAULT_TTL_MS + 1; mkdirOk := true; writeOk := false;
               unlinkOk := false |}
            (cache_set quietIo (∅ : gmap string (CacheEntry nat)) "k" 7%nat
                       DEFAULT_TTL_MS).2 "k"
  = if (DEFAULT_TTL_MS <? (DEFAULT_TTL_MS + 1) - 0)%Z
    then (Returned None,
          if false then delete "k" ∅
          else <["k" := {| data := 7%nat; timestamp := 0;
                           ttl := DEFAULT_TTL_MS |}]> ∅)
    else (Returned (Some 7%nat),
          <["k" := {| data := 7%nat; timestamp := 0; ttl := DEFAULT_TTL_MS |}]> ∅).
Proof.
  apply (cache_set_then_get quietIo
           {| now := DEFAULT_TTL_MS + 1; mkdirOk := true; writeOk := false;
              unlinkOk := false |}
           ∅ "k" 7%nat DEFAULT_TTL_MS); reflexivity.
Defined.
